(** * sql-tables-parser: the extraction engine of [parser.ts]

    A shallow embedding of [SqlTableExtractor] (scrubber
    [removeCommentsAndStrings], keyword scan [extractTableNames],
    catalog lookups [resolveTableName] / [isKnownTable], and the helper
    [getTableNamesSimple]) together with the properties the specification
    states about them. The engine with a [Map] of table metadata is
    embedded at top level; the engine with a [Set] of known names, which
    shares the scrubber and the scan, is the module [SetVariant]. The
    keyword configurations of [sql-keywords-config.ts] are the modules
    [Config] (with database-specific lists) and [ConfigAll] (with the
    list of all keywords); of the command line, the reading of
    comma-separated options and the call of the engine are embedded.

    Conventions of the embedding.
    - A JavaScript string is the list of its UTF-16 code units; a code
      unit is a number of type [N].
    - The regular expressions of the source are values of the type
      [regex] below, run by a backtracking matcher with the priorities of
      the ECMAScript matcher (leftmost start, alternatives left to right,
      greedy repetition that gives characters back).
    - The keywords are trigger phrases: each keyword is read as the
      literal sequence of its characters, compared without regard to
      ASCII letter case ([plain_keyword] says when this is what the
      pattern built from the keyword means).
    - A loop whose end rests on the pattern ([while] over [exec]) returns
      an [option], [None] standing for a loop that does not end; the
      lemma [scan_total] shows that the loop of the source always ends. *)

From Stdlib Require Import NArith Ascii String.
From stdpp Require Import list.

Local Open Scope N_scope.
Local Open Scope nat_scope.

(** ** Strings *)

Abbreviation char16 := N (only parsing).
Abbreviation jsstring := (list N) (only parsing).

(** A string literal of the development, as code units (ASCII only). *)
Definition str (s : string) : jsstring :=
  map N_of_ascii (list_ascii_of_string s).

Definition ch_lf : N := 10%N.
Definition ch_space : N := 32%N.
Definition ch_bang : N := 33%N.
Definition ch_dquote : N := 34%N.
Definition ch_hash : N := 35%N.
Definition ch_squote : N := 39%N.
Definition ch_lparen : N := 40%N.
Definition ch_star : N := 42%N.
Definition ch_minus : N := 45%N.
Definition ch_dot : N := 46%N.
Definition ch_slash : N := 47%N.
Definition ch_lt : N := 60%N.
Definition ch_eq : N := 61%N.
Definition ch_gt : N := 62%N.
Definition ch_at : N := 64%N.
Definition ch_lbracket : N := 91%N.
Definition ch_rbracket : N := 93%N.
Definition ch_underscore : N := 95%N.
Definition ch_backtick : N := 96%N.

(** The class [\s] of ECMAScript (WhiteSpace and LineTerminator); the same
    set is what [String.prototype.trim] strips. *)
Definition is_space (c : N) : bool :=
  ((9 <=? c) && (c <=? 13))%N
  || (c =? 32)%N || (c =? 160)%N || (c =? 5760)%N
  || ((8192 <=? c) && (c <=? 8202))%N
  || (c =? 8232)%N || (c =? 8233)%N || (c =? 8239)%N || (c =? 8287)%N
  || (c =? 12288)%N || (c =? 65279)%N.

Definition is_upper (c : N) : bool := ((65 <=? c) && (c <=? 90))%N.
Definition is_lower (c : N) : bool := ((97 <=? c) && (c <=? 122))%N.
Definition is_digit (c : N) : bool := ((48 <=? c) && (c <=? 57))%N.

(** The class [\w]: [A-Za-z0-9_]. *)
Definition is_word (c : N) : bool :=
  is_upper c || is_lower c || is_digit c || (c =? ch_underscore)%N.

(** [toUpperCase] on ASCII text; other code units are left as they are. *)
Definition upper_char (c : N) : N := if is_lower c then (c - 32)%N else c.
Definition toUpperCase (s : jsstring) : jsstring := map upper_char s.

(** A literal pattern character under the [i] flag. *)
Definition ci_eq (k c : N) : bool := (upper_char c =? upper_char k)%N.

Definition str_eqb (a b : jsstring) : bool := bool_decide (a = b).

(** [s.includes(sub)] *)
Fixpoint starts_with (sub s : jsstring) : bool :=
  match sub, s with
  | [], _ => true
  | _ :: _, [] => false
  | a :: sub', b :: s' => (a =? b)%N && starts_with sub' s'
  end.

Fixpoint includes (sub s : jsstring) : bool :=
  starts_with sub s ||
  match s with
  | [] => false
  | _ :: s' => includes sub s'
  end.

(** [s.split(sep)] for a one-character separator: the segments between the
    separators, never an empty list. *)
Fixpoint split (sep : N) (s : jsstring) : list jsstring :=
  match s with
  | [] => [[]]
  | c :: s' =>
      if (c =? sep)%N then [] :: split sep s'
      else match split sep s' with
           | seg :: segs => (c :: seg) :: segs
           | [] => [[c]]
           end
  end.

(** [a.pop()] read as a value: the last element. *)
Definition pop (l : list jsstring) : jsstring := default [] (last l).

(** [s.slice(-n)] *)
Definition slice_last (n : nat) (s : jsstring) : jsstring :=
  drop (length s - n) s.

(** [s.trim()] *)
Fixpoint trim_start (s : jsstring) : jsstring :=
  match s with
  | c :: s' => if is_space c then trim_start s' else s
  | [] => []
  end.

Fixpoint trim_end (s : jsstring) : jsstring :=
  match s with
  | [] => []
  | c :: s' =>
      match trim_end s' with
      | [] => if is_space c then [] else [c]
      | t => c :: t
      end
  end.

Definition trim (s : jsstring) : jsstring := trim_end (trim_start s).

(** ** Regular expressions *)

Inductive regex : Type :=
| Eps : regex                       (* the empty pattern *)
| Bos : regex                       (* ^ *)
| Eos : regex                       (* $ *)
| Chr : (N → bool) → regex          (* one character of a class *)
| Seq : regex → regex → regex
| Alt : regex → regex → regex       (* r1|r2 *)
| Star : regex → regex              (* r*, greedy *)
| Group : regex → regex.            (* ( r ), capture group 1 *)

Definition Plus (r : regex) : regex := Seq r (Star r).
Definition Lit (c : N) : regex := Chr (N.eqb c).

(** The state of the matcher: the index reached, the text from there on,
    and the capture of group 1. *)
Record mstate : Type := MState {
  idx : nat;
  rest : jsstring;
  cap : option jsstring
}.

Section Matcher.
Context {R : Type}.

(** Greedy repetition: one more round of [body] first, the continuation
    second; a round that consumes nothing is refused. Every round
    shortens the text, so [fuel] above its length is never used up. *)
Fixpoint star (body : mstate → (mstate → option R) → option R)
    (fuel : nat) (st : mstate) (k : mstate → option R) : option R :=
  match fuel with
  | 0 => None
  | S f =>
      match body st (λ st',
              if length (rest st') <? length (rest st)
              then star body f st' k else None) with
      | Some x => Some x
      | None => k st
      end
  end.

Fixpoint rmatch (r : regex) (st : mstate) (k : mstate → option R)
    {struct r} : option R :=
  match r with
  | Eps => k st
  | Bos => if idx st =? 0 then k st else None
  | Eos => match rest st with [] => k st | _ :: _ => None end
  | Chr p =>
      match rest st with
      | c :: t => if p c then k (MState (S (idx st)) t (cap st)) else None
      | [] => None
      end
  | Seq r1 r2 => rmatch r1 st (λ st', rmatch r2 st' k)
  | Alt r1 r2 =>
      match rmatch r1 st k with
      | Some x => Some x
      | None => rmatch r2 st k
      end
  | Star r1 => star (rmatch r1) (S (length (rest st))) st k
  | Group r1 =>
      rmatch r1 st (λ st',
        k (MState (idx st') (rest st')
             (Some (take (idx st' - idx st) (rest st)))))
  end.
End Matcher.

(** The result of [RegExp.prototype.exec]: [index], [match[0]],
    [match[1]], and the text after the match. *)
Record MatchResult : Type := {
  m_index : nat;
  m_0 : jsstring;
  m_1 : option jsstring;
  m_after : jsstring
}.

Definition match_here (r : regex) (i : nat) (s : jsstring) : option MatchResult :=
  match rmatch r (MState i s None) Some with
  | Some st' =>
      Some {| m_index := i; m_0 := take (idx st' - i) s;
              m_1 := cap st'; m_after := rest st' |}
  | None => None
  end.

(** [exec] from index [i], where [s] is the text from [i] on: the first
    start position at which the pattern matches. *)
Fixpoint exec_from (r : regex) (i : nat) (s : jsstring) : option MatchResult :=
  match match_here r i s with
  | Some mt => Some mt
  | None =>
      match s with
      | [] => None
      | _ :: s' => exec_from r (S i) s'
      end
  end.

(** [r.test(s)] and [s.match(r)] for a pattern without the [g] flag. *)
Definition exec (r : regex) (s : jsstring) : option MatchResult := exec_from r 0 s.
Definition regex_test (r : regex) (s : jsstring) : bool := bool_decide (is_Some (exec r s)).

(** [s.replace(r, f)] for a pattern with the [g] flag, [f] building the
    replacement from capture group 1. After an empty match the scan moves
    on by one character. *)
Fixpoint replace_from (fuel : nat) (r : regex) (f : option jsstring → jsstring)
    (i : nat) (s : jsstring) : jsstring :=
  match fuel with
  | 0 => s
  | S fuel' =>
      match match_here r i s with
      | Some mt =>
          if length (m_after mt) <? length s
          then f (m_1 mt) ++ replace_from fuel' r f (i + length (m_0 mt)) (m_after mt)
          else match s with
               | [] => f (m_1 mt)
               | c :: s' => f (m_1 mt) ++ c :: replace_from fuel' r f (S i) s'
               end
      | None =>
          match s with
          | [] => []
          | c :: s' => c :: replace_from fuel' r f (S i) s'
          end
      end
  end.

Definition replace (r : regex) (f : option jsstring → jsstring) (s : jsstring) : jsstring :=
  replace_from (S (length s)) r f 0 s.

Definition ws : regex := Chr is_space.

(** ** The scrubber: [removeCommentsAndStrings] *)

(** [while (i < sql.length && sql[i] !== '\n') i++] *)
Fixpoint skip_line (s : jsstring) : jsstring :=
  match s with
  | c :: s' => if (c =? ch_lf)%N then s else skip_line s'
  | [] => []
  end.

(** The loop after the opener of a block comment:
    [while (i < sql.length - 1) { if (sql[i] === '*' && sql[i+1] === '/')
    { i += 2; break; } i++; }] *)
Fixpoint skip_block (s : jsstring) : jsstring :=
  match s with
  | a :: ((b :: t) as s') =>
      if (a =? ch_star)%N && (b =? ch_slash)%N then t else skip_block s'
  | _ => s
  end.

(** The loop after the opening single quote; a doubled quote is skipped. *)
Fixpoint skip_squote (s : jsstring) : jsstring :=
  match s with
  | [] => []
  | c :: t =>
      if (c =? ch_squote)%N then
        match t with
        | c2 :: t2 => if (c2 =? ch_squote)%N then skip_squote t2 else t
        | [] => []
        end
      else skip_squote t
  end.

(** The loop after the opening double quote of a string literal. *)
Fixpoint skip_dquote (s : jsstring) : jsstring :=
  match s with
  | [] => []
  | c :: t => if (c =? ch_dquote)%N then t else skip_dquote t
  end.

Definition is_cmp (c : N) : bool :=
  (c =? ch_eq)%N || (c =? ch_bang)%N || (c =? ch_lt)%N || (c =? ch_gt)%N.

(** [/[=!<>]\s*$/] *)
Definition re_before_quote : regex := Seq (Chr is_cmp) (Seq (Star ws) Eos).

(** [/[=!<>]\s*$/.test(result.slice(-10))] *)
Definition isStringLiteral (result : jsstring) : bool :=
  regex_test re_before_quote (slice_last 10 result).

(** One round of the outer [while (i < sql.length)] loop: [sql] is the
    text from [i] on, [result] the output so far. *)
Definition scrub_step (sql result : jsstring) : jsstring * jsstring :=
  match sql with
  | [] => ([], result)
  | char :: tl =>
      let nextChar := head tl in
      if (char =? ch_minus)%N && bool_decide (nextChar = Some ch_minus) then
        (skip_line sql, result)
      else if (char =? ch_slash)%N && bool_decide (nextChar = Some ch_star) then
        (skip_block (drop 2 sql), result)
      else if (char =? ch_squote)%N then
        (skip_squote tl, result ++ [ch_space])
      else if (char =? ch_dquote)%N then
        if isStringLiteral result
        then (skip_dquote tl, result ++ [ch_space])
        else (tl, result ++ [char])
      else (tl, result ++ [char])
  end.

(** The outer loop; every round consumes a character, so [length sql]
    rounds are enough (lemma [scrub_loop_done]). *)
Fixpoint scrub_loop (fuel : nat) (sql result : jsstring) : jsstring * jsstring :=
  match fuel with
  | 0 => (sql, result)
  | S fuel' =>
      match sql with
      | [] => (sql, result)
      | _ :: _ =>
          let '(sql', result') := scrub_step sql result in
          scrub_loop fuel' sql' result'
      end
  end.

(** The output buffer when the loop ends. *)
Definition scrub_raw (sql : jsstring) : jsstring :=
  (scrub_loop (length sql) sql []).2.

(** [result.replace(/\s+/g, ' ').trim()] *)
Definition normalize_ws (result : jsstring) : jsstring :=
  trim (replace (Plus ws) (λ _, [ch_space]) result).

Definition removeCommentsAndStrings (sql : jsstring) : jsstring :=
  normalize_ws (scrub_raw sql).

Definition dq (s : jsstring) : jsstring := ch_dquote :: s ++ [ch_dquote].

(** ** The keyword scan *)

(** A [Set<string>] in insertion order, as [Array.from] lists it. *)
Definition Set_add (x : jsstring) (s : list jsstring) : list jsstring :=
  if decide (x ∈ s) then s else s ++ [x].

(** [Array.from(new Set(l))] *)
Definition Set_from (l : list jsstring) : list jsstring :=
  foldl (λ s x, Set_add x s) [] l.

(** [defaultSqlKeywords.default] of [sql-keywords-config.ts]. *)
Definition defaultSqlKeywords_default : list jsstring :=
  map str
    ["FROM"; "JOIN"; "INNER JOIN"; "LEFT JOIN"; "RIGHT JOIN"; "FULL JOIN";
     "CROSS JOIN"; "OUTER JOIN";
     "INTO"; "UPDATE"; "DELETE FROM"; "INSERT INTO"; "REPLACE INTO";
     "UPSERT INTO"; "MERGE INTO"; "USING"]%string.

(** A keyword inside the pattern: its characters one after the other. *)
Definition keyword_regex (kw : jsstring) : regex :=
  foldr (λ c r, Seq (Chr (ci_eq c)) r) Eps kw.

(** [allKeywords.join('|')] inside a group; the empty pattern matches the
    empty string. *)
Fixpoint keywordPattern (kws : list jsstring) : regex :=
  match kws with
  | [] => Eps
  | [kw] => keyword_regex kw
  | kw :: kws' => Alt (keyword_regex kw) (keywordPattern kws')
  end.

Definition is_ident_char (c : N) : bool :=
  is_word c || (c =? ch_at)%N || (c =? ch_hash)%N.

Definition quoted (open close : N) : regex :=
  Seq (Lit open) (Seq (Plus (Chr (λ c, negb (c =? close)%N))) (Lit close)).

(** One part of an identifier: bracket-quoted, double-quoted,
    backtick-quoted (each with a non-empty content free of the closing
    delimiter), or a run of [[\w@#]]; the alternatives in this order. *)
Definition re_part : regex :=
  Alt (quoted ch_lbracket ch_rbracket)
    (Alt (quoted ch_dquote ch_dquote)
       (Alt (quoted ch_backtick ch_backtick)
          (Plus (Chr is_ident_char)))).

(** The pattern of step 3, with flags [gi]: a keyword, [\s+], and in
    capture group 1 an identifier, which is a part followed by any number
    of dot-and-part. *)
Definition re_identifier : regex :=
  Seq re_part (Star (Seq (Lit ch_dot) re_part)).

Definition table_regex (kws : list jsstring) : regex :=
  Seq (keywordPattern kws) (Seq (Plus ws) (Group re_identifier)).

(** [new RegExp('^(' + keywordPattern + ')\\s+', 'i')] *)
Definition keyword_prefix_regex (kws : list jsstring) : regex :=
  Seq Bos (Seq (Group (keywordPattern kws)) (Plus ws)).

(** [/^\s*\(/] *)
Definition re_call : regex := Seq Bos (Seq (Star ws) (Lit ch_lparen)).

(** Capture group 1 of a match in which the group took part. *)
Definition group1 (mt : MatchResult) : jsstring := default [] (m_1 mt).

Definition isFunctionContext (keyword : jsstring) : bool :=
  str_eqb keyword (str "FROM") || includes (str "JOIN") keyword
  || str_eqb keyword (str "USING").

(** [keywordMatch[1].toUpperCase()], when the keyword is found again at the
    start of [match[0]]. *)
Definition keyword_of (kws : list jsstring) (mt : MatchResult) : option jsstring :=
  match exec (keyword_prefix_regex kws) (m_0 mt) with
  | Some keywordMatch => Some (toUpperCase (group1 keywordMatch))
  | None => None
  end.

Definition isFunction (mt : MatchResult) : bool := regex_test re_call (m_after mt).

(** The test that ends in [continue]: a function call after a table-source
    keyword. *)
Definition skipped (kws : list jsstring) (mt : MatchResult) : bool :=
  isFunction mt &&
  match keyword_of kws mt with
  | Some keyword => isFunctionContext keyword
  | None => false
  end.

(** The three [replace] calls that remove brackets, double quotes and
    backticks around a part: [open (content) close] becomes [$1]. *)
Definition unquote (open close : N) (s : jsstring) : jsstring :=
  replace
    (Seq (Lit open) (Seq (Group (Plus (Chr (λ c, negb (c =? close)%N)))) (Lit close)))
    (default []) s.

Definition cleanTableName (tableIdentifier : jsstring) : jsstring :=
  unquote ch_backtick ch_backtick
    (unquote ch_dquote ch_dquote
       (unquote ch_lbracket ch_rbracket tableIdentifier)).

Section Scan.
(** The resolution applied to a cleaned name: [resolveTableName] with the
    catalog of the call in the map-based engine, nothing in the
    set-based one. *)
Variable resolve : jsstring → jsstring.
Variable kws : list jsstring.

(** The body of the [while] loop for one match. *)
Definition scan_body (mt : MatchResult) (extractedTables : list jsstring)
    : list jsstring :=
  match m_1 mt with
  | Some ((_ :: _) as tableIdentifier) =>
      if skipped kws mt then extractedTables
      else Set_add (resolve (cleanTableName tableIdentifier)) extractedTables
  | _ => extractedTables
  end.

(** [while ((match = regex.exec(cleanSql)) !== null) { ... }]: [s] is the
    text from [lastIndex] on. A pattern that matched the empty string
    would leave [lastIndex] in place and the loop would not end: [None]. *)
Fixpoint scan_loop (fuel : nat) (i : nat) (s : jsstring)
    (extractedTables : list jsstring) : option (list jsstring) :=
  match fuel with
  | 0 => None
  | S fuel' =>
      match exec_from (table_regex kws) i s with
      | None => Some extractedTables
      | Some mt =>
          scan_loop fuel' (m_index mt + length (m_0 mt)) (m_after mt)
            (scan_body mt extractedTables)
      end
  end.

Definition scan (cleanSql : jsstring) : option (list jsstring) :=
  scan_loop (S (length cleanSql)) 0 cleanSql [].
End Scan.

(** ** The catalog of the map-based engine *)

Record TableMetadata : Type := {
  tableName : jsstring;
  fullyQualifiedName : jsstring;
  schema : option jsstring;
  database : option jsstring
}.

(** [Map<string, TableMetadata>]: the entries in iteration (insertion)
    order; [get] takes the entry of a key, and [has] says whether there is
    one. *)
Abbreviation catalog := (list (jsstring * TableMetadata)) (only parsing).

Definition Map_get (key : jsstring) (m : catalog) : option TableMetadata :=
  snd <$> find (λ e, str_eqb (fst e) key) m.

(** [name.includes('.') ? name.split('.').pop()! : name] *)
Definition tableWithoutSchema (name : jsstring) : jsstring :=
  if includes [ch_dot] name then pop (split ch_dot name) else name.

(** The [for (const [key, metadata] of knownTables)] loop of
    [resolveTableName]. *)
Fixpoint resolve_loop (name bare : jsstring) (m : catalog) : jsstring :=
  match m with
  | [] => name
  | (key, metadata) :: m' =>
      if str_eqb key name then fullyQualifiedName metadata
      else if str_eqb (tableName metadata) bare then fullyQualifiedName metadata
      else if str_eqb (fullyQualifiedName metadata) name then fullyQualifiedName metadata
      else resolve_loop name bare m'
  end.

Definition resolveTableName (name : jsstring) (knownTables : option catalog)
    : jsstring :=
  match knownTables with
  | None => name
  | Some m =>
      match Map_get name m with
      | Some metadata => fullyQualifiedName metadata
      | None => resolve_loop name (tableWithoutSchema name) m
      end
  end.

Definition isKnownTable (name : jsstring) (knownTables : catalog) : bool :=
  let bare := tableWithoutSchema name in
  existsb (λ '(key, metadata),
      str_eqb key name || str_eqb (tableName metadata) bare
      || str_eqb (fullyQualifiedName metadata) name)
    knownTables.

(** ** [extractTableNames] and [getTableNamesSimple] *)

Record TableExtractionResult : Type := {
  allTables : list jsstring;
  realTables : list jsstring;
  filteredCTEs : list jsstring
}.

(** The options bundle; [None] is a field left out. *)
Record TableExtractionOptions : Type := {
  knownTables : option catalog;
  filterCTEs : option bool;
  customKeywords : option (list jsstring);
  keywords : option (list jsstring)
}.

Definition no_options : TableExtractionOptions :=
  {| knownTables := None; filterCTEs := None;
     customKeywords := None; keywords := None |}.

(** Step 2 of [extractTableNames]: the list the pattern is built from. *)
Definition effective_keywords (options : TableExtractionOptions) : list jsstring :=
  let customKeywords := default [] (customKeywords options) in
  let allKeywords :=
    match keywords options with
    | Some ((_ :: _) as keywords) => keywords
    | _ => defaultSqlKeywords_default
    end in
  let allKeywords :=
    match customKeywords with
    | [] => allKeywords
    | _ :: _ => allKeywords ++ customKeywords
    end in
  Set_from allKeywords.

(** Step 4 of [extractTableNames]. *)
Definition classify (allTables : list jsstring)
    (knownTables : option catalog) (filterCTEs : bool) : TableExtractionResult :=
  match filterCTEs, knownTables with
  | true, Some known =>
      {| allTables := allTables;
         realTables := filter (λ table, isKnownTable table known) allTables;
         filteredCTEs := filter (λ table, ¬ isKnownTable table known) allTables |}
  | _, _ =>
      {| allTables := allTables; realTables := allTables; filteredCTEs := [] |}
  end.

(** [None] stands for a call that does not return. *)
Definition extractTableNames (sql : jsstring) (options : TableExtractionOptions)
    : option TableExtractionResult :=
  let cleanSql := removeCommentsAndStrings sql in
  let allKeywords := effective_keywords options in
  match scan (λ name, resolveTableName name (knownTables options)) allKeywords cleanSql with
  | Some allTables =>
      Some (classify allTables (knownTables options) (default false (filterCTEs options)))
  | None => None
  end.

Definition getTableNamesSimple (sql : jsstring) (knownTables : option catalog)
    : option (list jsstring) :=
  match extractTableNames sql
          {| knownTables := knownTables; filterCTEs := Some (bool_decide (is_Some knownTables));
             customKeywords := None; keywords := None |} with
  | Some result =>
      Some (if knownTables is Some _ then realTables result else allTables result)
  | None => None
  end.

(** ** The set-based engine of [src/parser.ts]

    The same scrubber and the same loop; the known tables are a
    [Set<string>] (here the list of its elements), a captured name is not
    resolved, and a [databaseType] may choose the keywords. *)

Module SetVariant.

Inductive DatabaseType : Type :=
| postgresql | mysql | sqlserver | oracle | bigquery | snowflake | sqlite.

(** [defaultSqlKeywords.databaseSpecific] of the configuration that goes
    with this engine. *)
Definition databaseSpecific (databaseType : DatabaseType) : list jsstring :=
  map str
    match databaseType with
    | postgresql => ["LATERAL JOIN"; "RETURNING"]
    | mysql => ["STRAIGHT_JOIN"; "REPLACE INTO"]
    | sqlserver => ["CROSS APPLY"; "OUTER APPLY"; "MERGE INTO"; "OUTPUT"]
    | oracle => ["CONNECT BY"; "MERGE INTO"; "MODEL"]
    | bigquery => ["MERGE INTO"]
    | snowflake => ["LATERAL FLATTEN"; "MERGE INTO"; "COPY INTO"]
    | sqlite => ["REPLACE INTO"]
    end%string.

Definition getKeywordsForDatabase (databaseType : option DatabaseType)
    : list jsstring :=
  Set_from
    (defaultSqlKeywords_default
     ++ match databaseType with
        | Some d => databaseSpecific d
        | None => []
        end).

Record TableExtractionOptions : Type := {
  knownTables : option (list jsstring);
  filterCTEs : option bool;
  customKeywords : option (list jsstring);
  databaseType : option DatabaseType;
  keywords : option (list jsstring)
}.

Definition Set_has (x : jsstring) (s : list jsstring) : bool :=
  bool_decide (x ∈ s).

Definition effective_keywords (options : TableExtractionOptions) : list jsstring :=
  let customKeywords := default [] (customKeywords options) in
  let allKeywords :=
    match keywords options with
    | Some ((_ :: _) as keywords) => keywords
    | _ =>
        match databaseType options with
        | Some d => getKeywordsForDatabase (Some d)
        | None => defaultSqlKeywords_default
        end
    end in
  let allKeywords :=
    match customKeywords with
    | [] => allKeywords
    | _ :: _ => allKeywords ++ customKeywords
    end in
  Set_from allKeywords.

Definition is_known (known : list jsstring) (table : jsstring) : bool :=
  Set_has table known || Set_has (tableWithoutSchema table) known.

Definition classify (allTables : list jsstring)
    (knownTables : option (list jsstring)) (filterCTEs : bool)
    : TableExtractionResult :=
  match filterCTEs, knownTables with
  | true, Some known =>
      {| allTables := allTables;
         realTables := filter (λ table, is_known known table) allTables;
         filteredCTEs :=
           filter (λ table, ¬ Set_has table known
                            ∧ ¬ Set_has (tableWithoutSchema table) known)
             allTables |}
  | _, _ =>
      {| allTables := allTables; realTables := allTables; filteredCTEs := [] |}
  end.

Definition extractTableNames (sql : jsstring) (options : TableExtractionOptions)
    : option TableExtractionResult :=
  let cleanSql := removeCommentsAndStrings sql in
  let allKeywords := effective_keywords options in
  match scan (λ name, name) allKeywords cleanSql with
  | Some allTables =>
      Some (classify allTables (knownTables options) (default false (filterCTEs options)))
  | None => None
  end.

Definition getTableNamesSimple (sql : jsstring) (knownTables : option (list jsstring))
    : option (list jsstring) :=
  match extractTableNames sql
          {| knownTables := knownTables;
             filterCTEs := Some (bool_decide (is_Some knownTables));
             customKeywords := None; databaseType := None; keywords := None |} with
  | Some result =>
      Some (if knownTables is Some _ then realTables result else allTables result)
  | None => None
  end.

End SetVariant.

(** ** The keyword configuration with database-specific lists *)

Module Config.
Import SetVariant.

(** [SqlKeywordsConfig]: [default], [databaseSpecific] with its seven
    lists, and the optional [all]. *)
Record SqlKeywordsConfig : Type := {
  default : list jsstring;
  databaseSpecific : DatabaseType → list jsstring;
  all : option (list jsstring)
}.

Definition defaultSqlKeywords : SqlKeywordsConfig :=
  {| default := defaultSqlKeywords_default;
     databaseSpecific := SetVariant.databaseSpecific;
     all := None |}.

(** [getKeywordsForDatabase(databaseType, config)] *)
Definition getKeywordsForDatabase (databaseType : option DatabaseType)
    (config : SqlKeywordsConfig) : list jsstring :=
  let keywords := default config in
  let keywords :=
    match databaseType with
    | Some d => keywords ++ databaseSpecific config d
    | None => keywords
    end in
  Set_from keywords.

(** [createCustomKeywordsConfig(customKeywords, baseConfig)] *)
Definition createCustomKeywordsConfig (customKeywords : list jsstring)
    (baseConfig : SqlKeywordsConfig) : SqlKeywordsConfig :=
  {| default := default baseConfig ++ customKeywords;
     databaseSpecific := databaseSpecific baseConfig;
     all := all baseConfig |}.
End Config.

(** ** The keyword configuration with the list of all keywords *)

Module ConfigAll.
Record SqlKeywordsConfig : Type := {
  default : list jsstring;
  all : list jsstring
}.

Definition defaultSqlKeywords : SqlKeywordsConfig :=
  {| default := defaultSqlKeywords_default;
     all :=
       map str
         ["FROM"; "JOIN"; "INNER JOIN"; "LEFT JOIN"; "RIGHT JOIN"; "FULL JOIN";
          "CROSS JOIN"; "OUTER JOIN";
          "INTO"; "UPDATE"; "DELETE FROM"; "INSERT INTO"; "REPLACE INTO";
          "UPSERT INTO"; "MERGE INTO"; "USING";
          "LATERAL JOIN"; "RETURNING"; "STRAIGHT_JOIN"; "CROSS APPLY";
          "OUTER APPLY"; "OUTPUT"; "CONNECT BY"; "MODEL"; "LATERAL FLATTEN";
          "COPY INTO"; "CREATE TABLE"; "CREATE OR REPLACE TABLE";
          "CREATE TRANSIENT TABLE"; "CREATE TEMPORARY TABLE";
          "INSERT ALL INTO"; "INSERT IGNORE INTO"; "SELECT * FROM"]%string |}.

(** [getAllKeywords(config)]: a copy of [config.all]. *)
Definition getAllKeywords (config : SqlKeywordsConfig) : list jsstring :=
  all config.

Definition createCustomKeywordsConfig (customKeywords : list jsstring)
    (baseConfig : SqlKeywordsConfig) : SqlKeywordsConfig :=
  {| default := default baseConfig ++ customKeywords;
     all := all baseConfig ++ customKeywords |}.
End ConfigAll.

(** ** The command line: comma-separated lists *)

Definition ch_comma : N := 44%N.

(** [a.join(sep)] *)
Fixpoint join (sep : jsstring) (a : list jsstring) : jsstring :=
  match a with
  | [] => []
  | [x] => x
  | x :: a' => x ++ sep ++ join sep a'
  end.

(** [s.split(',').map(k => k.trim()).filter(k => k.length > 0)] *)
Definition parse_list (s : jsstring) : list jsstring :=
  filter (λ k, 0 < length k) (map trim (split ch_comma s)).

(** [if (options.keywords) { keywords = ... }]: an option that is absent
    or the empty string leaves the list undefined. *)
Definition cli_list (arg : option jsstring) : option (list jsstring) :=
  match arg with
  | Some ((_ :: _) as s) => Some (parse_list s)
  | _ => None
  end.

(** The call of [extractTableNames] in the [parse] command of the
    map-based command line: [filterCtes] is the flag [--filter-ctes],
    [knownTables] the catalog loaded from the file of [--known-tables],
    if any. *)
Definition cli_extract (sql : jsstring)
    (knownTables : option (list (jsstring * TableMetadata)))
    (filterCtes : bool) (keywords customKeywords : option jsstring)
    : option TableExtractionResult :=
  extractTableNames sql
    {| knownTables := knownTables;
       filterCTEs := if filterCtes then Some (bool_decide (is_Some knownTables)) else None;
       customKeywords := cli_list customKeywords;
       keywords := cli_list keywords |}.

(** * Notions used in the statements *)

(** ** A declarative reading of the patterns *)

(** [matches r st st']: [r] can take the matcher from [st] to [st']. *)
Inductive matches : regex → mstate → mstate → Prop :=
| M_Eps st : matches Eps st st
| M_Bos st : idx st = 0 → matches Bos st st
| M_Eos st : rest st = [] → matches Eos st st
| M_Chr p i c t cp :
    p c = true → matches (Chr p) (MState i (c :: t) cp) (MState (S i) t cp)
| M_Seq r1 r2 st st1 st2 :
    matches r1 st st1 → matches r2 st1 st2 → matches (Seq r1 r2) st st2
| M_AltL r1 r2 st st' : matches r1 st st' → matches (Alt r1 r2) st st'
| M_AltR r1 r2 st st' : matches r2 st st' → matches (Alt r1 r2) st st'
| M_StarNil r st : matches (Star r) st st
| M_StarStep r st st1 st2 :
    matches r st st1 → length (rest st1) < length (rest st) →
    matches (Star r) st1 st2 → matches (Star r) st st2
| M_Group r st st' :
    matches r st st' →
    matches (Group r) st
      (MState (idx st') (rest st') (Some (take (idx st' - idx st) (rest st)))).

#[local] Hint Constructors matches : core.

Fixpoint no_group (r : regex) : bool :=
  match r with
  | Group _ => false
  | Seq r1 r2 | Alt r1 r2 => no_group r1 && no_group r2
  | Star r1 => no_group r1
  | _ => true
  end.

(** ** Keywords that are plain phrases

    The patterns are built from the text of the keywords. The embedding
    reads a keyword as the sequence of its characters, which is what the
    pattern means when the keyword is ASCII and holds none of the
    characters that have a meaning in a pattern. *)

Definition is_syntax_char (c : N) : bool :=
  bool_decide (c ∈ str "\^$.*+?()[]{}|").

Definition plain_keyword (kw : jsstring) : Prop :=
  Forall (λ c, (c < 128)%N ∧ is_syntax_char c = false) kw.

Definition plain_options (options : TableExtractionOptions) : Prop :=
  Forall plain_keyword
    (default [] (keywords options) ++ default [] (customKeywords options)).

Definition set_plain_options (options : SetVariant.TableExtractionOptions) : Prop :=
  Forall plain_keyword
    (default [] (SetVariant.keywords options)
     ++ default [] (SetVariant.customKeywords options)).

(** ** The alternative that makes a match

    The matcher tries the keywords of the pattern in the order of the
    list: the keyword that triggers a match at a position is the first
    one after which the rest of the pattern can be matched. *)

Definition tail_regex : regex := Seq (Plus ws) (Group re_identifier).

Definition alternative_matches (kw : jsstring) (i : nat) (s : jsstring) : Prop :=
  is_Some (rmatch (Seq (keyword_regex kw) tail_regex) (MState i s None) Some).

#[global] Instance alternative_matches_dec kw i s :
  Decision (alternative_matches kw i s).
Proof. unfold alternative_matches. apply _. Defined.

(** The keyword that triggers the match at index [i], where [s] is the
    text from [i] on. *)
Definition triggering_keyword (kws : list jsstring) (i : nat) (s : jsstring)
    : option jsstring :=
  (λ x, x.2) <$> list_find (λ kw, alternative_matches kw i s) kws.

(** Keywords made of word characters and spaces, as are those of the
    configuration. *)
Definition wordy_char (c : N) : bool := is_word c || (c =? ch_space)%N.

Definition wordy_keyword (kw : jsstring) : Prop :=
  Forall (λ c, wordy_char c = true) kw.

(** The first result in the order of the list. *)
Fixpoint first_some {A B : Type} (f : A → option B) (l : list A) : option B :=
  match l with
  | [] => None
  | a :: l' =>
      match f a with
      | Some x => Some x
      | None => first_some f l'
      end
  end.

(** ** The matches and the captures of a scan *)

(** The matches [regex.exec] reports in turn. *)
Fixpoint scan_matches (kws : list jsstring) (fuel i : nat) (s : jsstring)
    : list MatchResult :=
  match fuel with
  | 0 => []
  | S fuel' =>
      match exec_from (table_regex kws) i s with
      | None => []
      | Some mt =>
          mt :: scan_matches kws fuel' (m_index mt + length (m_0 mt)) (m_after mt)
      end
  end.

(** The matches of a call on the cleaned text. *)
Definition matches_of (kws : list jsstring) (cleanSql : jsstring) : list MatchResult :=
  scan_matches kws (S (length cleanSql)) 0 cleanSql.

(** The set after adding the values of [l], one after the other, to [s]. *)
Definition Set_into (s l : list jsstring) : list jsstring :=
  foldl (λ s x, Set_add x s) s l.

Section Captures.
Variable resolve : jsstring → jsstring.
Variable kws : list jsstring.

(** The name a match contributes, if it does. *)
Definition captured (mt : MatchResult) : option jsstring :=
  match m_1 mt with
  | Some ((_ :: _) as tableIdentifier) =>
      if skipped kws mt then None
      else Some (resolve (cleanTableName tableIdentifier))
  | _ => None
  end.

(** The resolved names in the order the scan captures them. *)
Definition captures (cleanSql : jsstring) : list jsstring :=
  omap captured (matches_of kws cleanSql).
End Captures.

(** ** White space and clean text *)

(** [replace(/\s+/g, ' ')] read directly: every run of white space becomes
    one space ([in_run] says that the run has begun). *)
Fixpoint collapse (in_run : bool) (s : jsstring) : jsstring :=
  match s with
  | [] => []
  | c :: t =>
      if is_space c
      then if in_run then collapse true t else ch_space :: collapse true t
      else c :: collapse false t
  end.

Definition starts_with_space (s : jsstring) : bool :=
  match s with
  | c :: _ => is_space c
  | [] => false
  end.

(** Every white space character is a space and is not followed by white
    space. *)
Fixpoint single_spaced (s : jsstring) : bool :=
  match s with
  | [] => true
  | c :: t =>
      (if is_space c then (c =? ch_space)%N && negb (starts_with_space t) else true)
      && single_spaced t
  end.

(** A character the loop copies: no quote, and not the first character of
    a comment opener. *)
Definition regular (c : N) (next : option N) : bool :=
  negb ((c =? ch_minus)%N && bool_decide (next = Some ch_minus))
  && negb ((c =? ch_slash)%N && bool_decide (next = Some ch_star))
  && negb (c =? ch_squote)%N && negb (c =? ch_dquote)%N.

Fixpoint all_regular (t rest : jsstring) : bool :=
  match t with
  | [] => true
  | c :: t' => regular c (head (t' ++ rest)) && all_regular t' rest
  end.

(** Text with no quote character and no comment opener. *)
Definition clean_text (t : jsstring) : Prop :=
  (ch_squote ∉ t) ∧ (ch_dquote ∉ t)
  ∧ includes (str "--") t = false ∧ includes (str "/*") t = false.

(** ** The inputs of the scenarios *)

Definition simple_entry (name : string) : jsstring * TableMetadata :=
  (str name, {| tableName := str name; fullyQualifiedName := str name;
                schema := None; database := None |}).


(** A query with a CTE, a catalog, and explicit keywords. *)
Definition cte_sql : jsstring :=
  str "WITH temp AS (SELECT * FROM users) SELECT * FROM temp JOIN orders ON temp.id = orders.user_id".

Definition cte_options : TableExtractionOptions :=
  {| knownTables := Some [simple_entry "users"; simple_entry "orders"];
     filterCTEs := Some true;
     customKeywords := Some [str "MERGE INTO"];
     keywords := Some [str "FROM"; str "JOIN"] |}.

(** The match on [FROM generate_series] of the scenario of C7. *)
Definition generate_series_sql : jsstring :=
  str "SELECT * FROM generate_series(1,100) t JOIN users u ON t.id=u.id".

Definition generate_series_match : MatchResult :=
  {| m_index := 9;
     m_0 := str "FROM generate_series";
     m_1 := Some (str "generate_series");
     m_after := str "(1,100) t JOIN users u ON t.id=u.id" |}.

(** A keyword list in which a keyword holds a quote character, and a query
    in which a quoted identifier with white space inside is followed by a
    parenthesis. *)
Definition quoted_keyword_options : TableExtractionOptions :=
  {| knownTables := None; filterCTEs := None; customKeywords := None;
     keywords := Some [str "FROM " ++ ch_dquote :: str "a"; str "FROM"] |}.

Definition quoted_keyword_sql : jsstring :=
  str "SELECT * FROM " ++ dq (str "a ! b") ++ str "(1)".

Definition quoted_keyword_match : MatchResult :=
  {| m_index := 9;
     m_0 := str "FROM " ++ dq (str "a ! b");
     m_1 := Some (dq (str "a ! b"));
     m_after := str "(1)" |}.

(** A catalog in which the qualified name of the first entry is borne by a
    table whose short name is spelt with a capital. *)
Definition users_catalog : catalog :=
  [ (str "users_tbl",
     {| tableName := str "Users"; fullyQualifiedName := str "dbo.users";
        schema := Some (str "dbo"); database := None |});
    (str "archive_users",
     {| tableName := str "users"; fullyQualifiedName := str "archive.users";
        schema := Some (str "archive"); database := None |}) ].

(** ** Comments and literals in the text

    Notions for the statements on what the scrubber removes. *)

(** Every single quote of the text is one of a pair of adjacent quotes. *)
Fixpoint quotes_doubled (s : jsstring) : bool :=
  match s with
  | [] => true
  | c :: t =>
      if (c =? ch_squote)%N then
        match t with
        | c2 :: t2 => (c2 =? ch_squote)%N && quotes_doubled t2
        | [] => false
        end
      else quotes_doubled t
  end.

(** No comment opener arises where [a] ends and [b] begins. *)
Definition no_opener_across (a b : jsstring) : Prop :=
  ¬ (last a = Some ch_minus ∧ head b = Some ch_minus)
  ∧ ¬ (last a = Some ch_slash ∧ head b = Some ch_star).

(** ** The parts of an identifier *)

(** The parts an identifier is written with. *)
Inductive part : Type :=
| Bare (s : jsstring)
| Bracketed (s : jsstring)
| DoubleQuoted (s : jsstring)
| Backticked (s : jsstring).

Definition part_name (p : part) : jsstring :=
  match p with Bare s | Bracketed s | DoubleQuoted s | Backticked s => s end.

Definition part_text (p : part) : jsstring :=
  match p with
  | Bare s => s
  | Bracketed s => ch_lbracket :: s ++ [ch_rbracket]
  | DoubleQuoted s => ch_dquote :: s ++ [ch_dquote]
  | Backticked s => ch_backtick :: s ++ [ch_backtick]
  end.

Definition is_quote_char (c : N) : bool :=
  (c =? ch_lbracket)%N || (c =? ch_rbracket)%N || (c =? ch_dquote)%N
  || (c =? ch_backtick)%N.

(** The name of a part holds no bracket, double quote or backtick, and the
    name of a quoted part is not empty. *)
Definition part_ok (p : part) : Prop :=
  Forall (λ c, is_quote_char c = false) (part_name p)
  ∧ match p with Bare _ => True | _ => part_name p ≠ [] end.

Definition parts_text (ps : list part) : jsstring := concat (map part_text ps).

(** The pattern of one [replace] call of [cleanTableName]. *)
Definition unquote_regex (open close : N) : regex :=
  Seq (Lit open) (Seq (Group (Plus (Chr (λ c, negb (c =? close)%N)))) (Lit close)).


Definition strip_brackets (p : part) : part :=
  match p with Bracketed s => Bare s | _ => p end.
Definition strip_dquotes (p : part) : part :=
  match p with DoubleQuoted s => Bare s | _ => p end.
Definition strip_backticks (p : part) : part :=
  match p with Backticked s => Bare s | _ => p end.

(** ** The simplest query *)

Definition select_from : jsstring := str "SELECT * FROM ".

(** * Properties *)

(** ** The scenarios of the specification *)

Example scrub_strings_and_comments :
  removeCommentsAndStrings
    (str "SELECT * FROM users WHERE note = 'JOIN this FROM that' AND n != "
     ++ dq (str "DELETE x") ++ str " /* c */ JOIN " ++ dq (str "t") ++ str " -- c")
  = str "SELECT * FROM users WHERE note = AND n != JOIN " ++ dq (str "t").
Proof. vm_compute. reflexivity. Qed.

Example extract_simple :
  extractTableNames (str "SELECT * FROM users") no_options
  = Some {| allTables := [str "users"]; realTables := [str "users"]; filteredCTEs := [] |}.
Proof. vm_compute. reflexivity. Qed.

Example extract_join :
  allTables <$> extractTableNames (str "SELECT * FROM users u JOIN orders o ON u.id = o.user_id") no_options
  = Some [str "users"; str "orders"].
Proof. vm_compute. reflexivity. Qed.

Example extract_schema :
  allTables <$> extractTableNames (str "SELECT * FROM public.users JOIN blog.posts ON users.id = posts.user_id") no_options
  = Some [str "public.users"; str "blog.posts"].
Proof. vm_compute. reflexivity. Qed.

Example extract_cte :
  extractTableNames
    (str "WITH temp AS (SELECT * FROM users) SELECT * FROM temp JOIN orders ON temp.id = orders.user_id")
    {| knownTables := Some [simple_entry "users"; simple_entry "orders"];
       filterCTEs := Some true; customKeywords := None; keywords := None |}
  = Some {| allTables := [str "users"; str "temp"; str "orders"];
            realTables := [str "users"; str "orders"];
            filteredCTEs := [str "temp"] |}.
Proof. vm_compute. reflexivity. Qed.

(** Two scenarios of the test suite on resolution: the first entry whose
    [tableName] is the bare name wins, and an exact key wins over it. *)
Example extract_first_bare_match :
  allTables <$> extractTableNames (str "SELECT * FROM users")
    {| knownTables := Some
         [ (str "public.users",
            {| tableName := str "users"; fullyQualifiedName := str "public.users";
               schema := Some (str "public"); database := None |});
           (str "private.users",
            {| tableName := str "users"; fullyQualifiedName := str "private.users";
               schema := Some (str "private"); database := None |}) ];
       filterCTEs := None; customKeywords := None; keywords := None |}
  = Some [str "public.users"].
Proof. by vm_compute. Qed.

Example extract_exact_key_first :
  allTables <$> extractTableNames (str "SELECT * FROM users")
    {| knownTables := Some
         [ (str "admin.users",
            {| tableName := str "users"; fullyQualifiedName := str "admin.users";
               schema := Some (str "admin"); database := None |});
           (str "users",
            {| tableName := str "users"; fullyQualifiedName := str "public.users";
               schema := Some (str "public"); database := None |}) ];
       filterCTEs := None; customKeywords := None; keywords := None |}
  = Some [str "public.users"].
Proof. by vm_compute. Qed.

Example extract_quoted :
  allTables <$> extractTableNames
    (str "SELECT * FROM `users` JOIN " ++ dq (str "order table") ++ str " CROSS JOIN [db].[products] ON 1=1") no_options
  = Some [str "users"; str "order table"; str "db.products"].
Proof. vm_compute. reflexivity. Qed.


(** ** The matcher against a declarative reading of the patterns *)


(** What a match consumes is a prefix of the text, and the index counts it. *)
Lemma matches_consume r st st' :
  matches r st st' →
  ∃ w, rest st = w ++ rest st' ∧ idx st' = idx st + length w.
Proof.
  induction 1 as
    [st|st _|st _|p i c t cp _|r1 r2 st st1 st2 _ IH1 _ IH2
    |r1 r2 st st' _ IH|r1 r2 st st' _ IH|r st
    |r st st1 st2 _ IH1 _ _ IH2|r st st' _ IH]; simpl in *.
  1-3, 8: by exists []; rewrite Nat.add_0_r.
  - exists [c]. simpl. split; [done | lia].
  - destruct IH1 as (w1 & E1 & I1), IH2 as (w2 & E2 & I2).
    exists (w1 ++ w2). rewrite length_app, <- app_assoc, <- E2. split; [done | lia].
  - done.
  - done.
  - destruct IH1 as (w1 & E1 & I1), IH2 as (w2 & E2 & I2).
    exists (w1 ++ w2). rewrite length_app, <- app_assoc, <- E2. split; [done | lia].
  - done.
Qed.

Lemma matches_length r st st' :
  matches r st st' → length (rest st') ≤ length (rest st).
Proof.
  intros (w & E & _)%matches_consume. rewrite E, length_app. lia.
Qed.

Section MatcherFacts.
Context {R : Type}.
Implicit Types (k : mstate → option R) (x : R).

Lemma star_sound r body fuel :
  (∀ st k x, body st k = Some x → ∃ st', matches r st st' ∧ k st' = Some x) →
  ∀ st k x, star body fuel st k = Some x →
  ∃ st', matches (Star r) st st' ∧ k st' = Some x.
Proof.
  intros Hbody. induction fuel as [|f IH]; intros st k x; simpl; [done|].
  destruct (body st _) as [y|] eqn:E.
  - intros [= ->]. apply Hbody in E as (st1 & H1 & E1).
    destruct (Nat.ltb_spec (length (rest st1)) (length (rest st))); [|done].
    apply IH in E1 as (st2 & H2 & E2). eauto.
  - eauto.
Qed.

(** Soundness: a result of the matcher comes from a way to match. *)
Lemma rmatch_sound r :
  ∀ st k x, rmatch r st k = Some x →
  ∃ st', matches r st st' ∧ k st' = Some x.
Proof.
  induction r as [| | |p|r1 IH1 r2 IH2|r1 IH1 r2 IH2|r IH|r IH];
    intros st k x.
  - simpl. eauto.
  - simpl. destruct (Nat.eqb_spec (idx st) 0); [eauto | done].
  - simpl. destruct (rest st) eqn:E; [eauto | done].
  - destruct st as [i [|c t] cp]; simpl; [done|].
    destruct (p c) eqn:E; [eauto | done].
  - simpl. intros (st1 & H1 & (st2 & H2 & E2)%IH2)%IH1. eauto.
  - simpl. destruct (rmatch r1 st k) as [y|] eqn:E.
    + intros [= ->]. apply IH1 in E as (st' & ? & ?). eauto.
    + intros (st' & ? & ?)%IH2. eauto.
  - intros H. exact (star_sound r _ _ IH _ _ _ H).
  - simpl. intros (st' & H & E)%IH. eauto.
Qed.

Lemma star_complete r body :
  (∀ st st' k, matches r st st' → is_Some (k st') → is_Some (body st k)) →
  ∀ st st', matches (Star r) st st' →
  ∀ fuel k, length (rest st) < fuel → is_Some (k st') →
  is_Some (star body fuel st k).
Proof.
  intros Hbody st st' H. remember (Star r) as sr eqn:Esr.
  induction H as
    [| | | | | | |r' st|r' st st1 st2 H1 _ Hlt _ IH2|]; try done;
    injection Esr as ->; intros [|f] k Hf Hk; simpl; try lia.
  - destruct (body st _); [by eexists | done].
  - assert (is_Some (body st (λ st'0,
        if length (rest st'0) <? length (rest st)
        then star body f st'0 k else None))) as [y ->]; [|by eexists].
    apply (Hbody _ _ _ H1).
    destruct (Nat.ltb_spec (length (rest st1)) (length (rest st))); [|lia].
    apply IH2; [done | lia | done].
Qed.

(** Completeness: where there is a way to match that the continuation
    accepts, the matcher returns a result (that of the way it tries
    first). *)
Lemma rmatch_complete r :
  ∀ st st' k, matches r st st' → is_Some (k st') → is_Some (rmatch r st k).
Proof.
  induction r as [| | |p|r1 IH1 r2 IH2|r1 IH1 r2 IH2|r IH|r IH];
    intros st st' k H Hk; inv H.
  - done.
  - simpl. by destruct (Nat.eqb_spec (idx st') 0).
  - simpl. by match goal with E : rest _ = [] |- _ => rewrite E end.
  - simpl. by match goal with E : p _ = true |- _ => rewrite E end.
  - simpl. eapply IH1; [done|]. by eapply IH2.
  - simpl.
    match goal with M : matches r1 _ _ |- _ =>
      destruct (IH1 _ _ _ M Hk) as [y ->] end.
    by eexists.
  - simpl. destruct (rmatch r1 st k); [by eexists|]. by eapply IH2.
  - eapply (star_complete r _ IH); [apply M_StarNil | | done].
    apply Nat.lt_succ_diag_r.
  - eapply (star_complete r _ IH); [by eapply M_StarStep | | done].
    apply Nat.lt_succ_diag_r.
  - simpl.
    match goal with M : matches r _ _ |- _ => eapply (IH _ _ _ M) end.
    done.
Qed.
End MatcherFacts.

(** Inversion of [matches] on a pattern whose head is known ([Star] is
    left alone). *)
Ltac inv_matches :=
  repeat match goal with
  | H : matches Eps _ _ |- _ => inv H
  | H : matches Bos _ _ |- _ => inv H
  | H : matches Eos _ _ |- _ => inv H
  | H : matches (Chr _) _ _ |- _ => inv H
  | H : matches (Lit _) _ _ |- _ => inv H
  | H : matches (Seq _ _) _ _ |- _ => inv H
  | H : matches (Plus _) _ _ |- _ => inv H
  | H : matches (Alt _ _) _ _ |- _ => inv H
  | H : matches (Group _) _ _ |- _ => inv H
  end.

Lemma match_here_Some r i s mt :
  match_here r i s = Some mt →
  ∃ st', matches r (MState i s None) st'
    ∧ mt = {| m_index := i; m_0 := take (idx st' - i) s;
              m_1 := cap st'; m_after := rest st' |}.
Proof.
  unfold match_here. destruct (rmatch _ _ _) as [st'|] eqn:E; [|done].
  intros [= <-]. apply rmatch_sound in E as (st1 & H & [= ->]). eauto.
Qed.

(** A match splits the text from its start into [match[0]] and the rest. *)
Lemma match_here_split r i s mt :
  match_here r i s = Some mt → m_index mt = i ∧ s = m_0 mt ++ m_after mt.
Proof.
  intros (st' & (w & E & I)%matches_consume & ->)%match_here_Some.
  simpl in *. subst s. split; [done|].
  replace (idx st' - i) with (length w) by lia.
  by rewrite take_app_length.
Qed.

Lemma exec_from_Some r i s mt :
  exec_from r i s = Some mt →
  ∃ pre s', s = pre ++ s' ∧ m_index mt = i + length pre
    ∧ match_here r (i + length pre) s' = Some mt.
Proof.
  revert i. induction s as [|c s IH]; intros i; simpl.
  - destruct (match_here r i []) as [mt'|] eqn:E; [|done]. intros [= ->].
    exists [], []. simpl. rewrite Nat.add_0_r.
    by apply match_here_split in E as H; destruct H.
  - destruct (match_here r i (c :: s)) as [mt'|] eqn:E.
    + intros [= ->]. exists [], (c :: s). simpl. rewrite Nat.add_0_r.
      by apply match_here_split in E as H; destruct H.
    + intros (pre & s' & -> & I & E')%IH. exists (c :: pre), s'. simpl.
      replace (i + S (length pre)) with (S i + length pre) by lia. done.
Qed.

Lemma exec_from_shorter r i s mt :
  exec_from r i s = Some mt → length (m_after mt) ≤ length s.
Proof.
  intros (pre & s' & -> & _ & [_ E]%match_here_split)%exec_from_Some.
  rewrite E, !length_app. lia.
Qed.

(** ** The shape of a match of the table pattern *)

Lemma keyword_regex_matches kw st st' :
  matches (keyword_regex kw) st st' →
  ∃ w, rest st = w ++ rest st' ∧ idx st' = idx st + length w
    ∧ cap st' = cap st ∧ toUpperCase w = toUpperCase kw.
Proof.
  revert st. induction kw as [|c kw IH]; intros st H; simpl in H; inv_matches.
  - exists []. by rewrite Nat.add_0_r.
  - match goal with M : matches (keyword_regex kw) _ _ |- _ =>
      apply IH in M as (w & E & I & C & U) end.
    simpl in *.
    match goal with X : ci_eq _ ?d = true |- _ =>
      exists (d :: w); apply N.eqb_eq in X; simpl; rewrite E, U, X end.
    repeat split; [lia | done].
Qed.

Lemma keyword_regex_complete kw w i t cp :
  toUpperCase w = toUpperCase kw →
  matches (keyword_regex kw) (MState i (w ++ t) cp) (MState (i + length w) t cp).
Proof.
  revert i w. induction kw as [|c kw IH]; intros i [|d w] U; try done; simpl.
  - rewrite Nat.add_0_r. constructor.
  - injection U as Ud U. eapply M_Seq.
    + constructor. by apply N.eqb_eq.
    + replace (i + S (length w)) with (S i + length w) by lia. by apply IH.
Qed.

Lemma keywordPattern_matches kws st st' :
  matches (keywordPattern kws) st st' →
  ∃ w, rest st = w ++ rest st' ∧ idx st' = idx st + length w
    ∧ cap st' = cap st
    ∧ (kws = [] ∧ w = [] ∨ ∃ kw, kw ∈ kws ∧ toUpperCase w = toUpperCase kw).
Proof.
  induction kws as [|kw [|kw' kws] IH]; intros H.
  - inv H. exists []. rewrite Nat.add_0_r. repeat split; auto.
  - apply keyword_regex_matches in H as (w & ? & ? & ? & ?).
    exists w. repeat split; try done. right. exists kw. split; [left | done].
  - change (matches (Alt (keyword_regex kw) (keywordPattern (kw' :: kws))) st st') in H.
    inv H.
    + match goal with M : matches _ st st' |- _ =>
        apply keyword_regex_matches in M as (w & ? & ? & ? & ?) end.
      exists w. repeat split; try done. right. exists kw. split; [left | done].
    + match goal with M : matches _ st st' |- _ =>
        apply IH in M as (w & ? & ? & ? & [[? _]|(k & ? & ?)]) end; [done|].
      exists w. repeat split; try done. right. exists k. split; [by right | done].
Qed.

Lemma keywordPattern_complete kws kw w i t cp :
  kw ∈ kws → toUpperCase w = toUpperCase kw →
  matches (keywordPattern kws) (MState i (w ++ t) cp) (MState (i + length w) t cp).
Proof.
  intros Hin U. induction kws as [|k [|k' kws] IH]; [by inv Hin| |].
  - apply list_elem_of_singleton in Hin as ->. by apply keyword_regex_complete.
  - change (keywordPattern (k :: k' :: kws))
      with (Alt (keyword_regex k) (keywordPattern (k' :: kws))).
    inv Hin; [apply M_AltL; by apply keyword_regex_complete | apply M_AltR; auto].
Qed.

Lemma chr_matches p st st' :
  matches (Chr p) st st' →
  ∃ c, p c = true ∧ rest st = c :: rest st' ∧ idx st' = S (idx st)
    ∧ cap st' = cap st.
Proof. intros H. inv H. eauto. Qed.

Lemma plus_ws_matches st st' :
  matches (Plus ws) st st' →
  ∃ c w, is_space c = true ∧ rest st = c :: w ++ rest st'
    ∧ idx st' = S (idx st) + length w.
Proof.
  intros H. inv H.
  match goal with M : matches ws _ _ |- _ =>
    apply chr_matches in M as (c & Hc & E & I & _) end.
  match goal with M : matches (Star ws) _ _ |- _ =>
    apply matches_consume in M as (w & E' & I') end.
  exists c, w. rewrite E, E', I', I. done.
Qed.

Lemma plus_ws_one c i t cp :
  is_space c = true →
  matches (Plus ws) (MState i (c :: t) cp) (MState (S i) t cp).
Proof. intros Hc. eapply M_Seq; [by constructor | constructor]. Qed.

Lemma re_part_shorter st st' :
  matches re_part st st' → length (rest st') < length (rest st).
Proof.
  intros H. unfold re_part, quoted in H. inv_matches;
    repeat match goal with
    | M : matches (Star _) _ _ |- _ => apply matches_length in M
    end; simpl in *; lia.
Qed.

(** A match of the table pattern: a keyword, white space, and a non-empty
    identifier that is the capture. *)
Lemma table_regex_shape kws i s st' :
  matches (table_regex kws) (MState i s None) st' →
  ∃ wk c wsp wid,
    s = wk ++ c :: wsp ++ wid ++ rest st'
    ∧ idx st' = i + length (wk ++ c :: wsp ++ wid)
    ∧ cap st' = Some wid ∧ wid ≠ [] ∧ is_space c = true
    ∧ (kws = [] ∧ wk = [] ∨ ∃ kw, kw ∈ kws ∧ toUpperCase wk = toUpperCase kw).
Proof.
  intros H. unfold table_regex in H.
  inv H. match goal with M : matches (Seq _ (Group _)) _ _ |- _ => inv M end.
  match goal with M : matches (Group _) _ _ |- _ => inv M end.
  match goal with M : matches (keywordPattern _) _ _ |- _ =>
    apply keywordPattern_matches in M as (wk & Ek & Ik & _ & Hk) end.
  match goal with M : matches (Plus ws) _ _ |- _ =>
    apply plus_ws_matches in M as (c & wsp & Hc & Es & Is) end.
  match goal with M : matches re_identifier ?a ?b |- _ =>
    assert (length (rest b) < length (rest a)) as Hlt;
    [ unfold re_identifier in M; inv M;
      repeat match goal with
      | M1 : matches re_part _ _ |- _ => apply re_part_shorter in M1
      | M2 : matches (Star _) _ _ |- _ => apply matches_length in M2
      end; lia
    | apply matches_consume in M as (wid & Ei & Ii) ]
  end.
  simpl in *. exists wk, c, wsp, wid.
  rewrite Ek, Es, Ei, Ii, Is, Ik, !length_app. simpl. rewrite !length_app.
  repeat split; try done; try lia.
  - f_equal.
    match goal with |- take ?n _ = _ => replace n with (length wid) by lia end.
    apply take_app_length.
  - intros ->. rewrite Ei in Hlt. simpl in Hlt. lia.
Qed.

Lemma match_here_table kws i s mt :
  match_here (table_regex kws) i s = Some mt →
  ∃ wk c wsp wid,
    m_0 mt = wk ++ c :: wsp ++ wid
    ∧ s = m_0 mt ++ m_after mt
    ∧ m_index mt = i
    ∧ m_1 mt = Some wid ∧ wid ≠ [] ∧ is_space c = true
    ∧ (kws = [] ∧ wk = [] ∨ ∃ kw, kw ∈ kws ∧ toUpperCase wk = toUpperCase kw).
Proof.
  intros H. destruct (match_here_split _ _ _ _ H) as [Hi Hs].
  apply match_here_Some in H
    as (st' & (wk & c & wsp & wid & E & I & C & Hn & Hc & Hk)%table_regex_shape & ->).
  simpl in *. exists wk, c, wsp, wid.
  repeat split; try done.
  replace (idx st' - i) with (length (wk ++ c :: wsp ++ wid)) by lia.
  rewrite E.
  replace (wk ++ c :: wsp ++ wid ++ rest st')
    with ((wk ++ c :: wsp ++ wid) ++ rest st')
    by (rewrite <- app_assoc; simpl; by rewrite <- app_assoc).
  apply take_app_length.
Qed.

(** Every match of the table pattern moves the scan forward. *)
Lemma exec_table_progress kws i s mt :
  exec_from (table_regex kws) i s = Some mt → length (m_after mt) < length s.
Proof.
  intros (pre & s' & -> & _ & H)%exec_from_Some.
  apply match_here_table in H as (wk & c & wsp & wid & E0 & -> & _).
  rewrite E0, !length_app. simpl. lia.
Qed.

(** ** The scan as a fold over the list of matches *)

Lemma scan_loop_fold resolve kws fuel : ∀ i s acc,
  length s < fuel →
  scan_loop resolve kws fuel i s acc
  = Some (foldl (λ acc mt, scan_body resolve kws mt acc) acc
            (scan_matches kws fuel i s)).
Proof.
  induction fuel as [|fuel IH]; intros i s acc Hf; [lia|]. simpl.
  destruct (exec_from _ i s) as [mt|] eqn:E; [|done].
  apply exec_table_progress in E. simpl. apply IH. lia.
Qed.

(** The scan always ends, with the fold of its body over the matches. *)
Lemma scan_total resolve kws cleanSql :
  scan resolve kws cleanSql
  = Some (foldl (λ acc mt, scan_body resolve kws mt acc) []
            (matches_of kws cleanSql)).
Proof. apply scan_loop_fold. lia. Qed.


(** ** The keyword found again at the start of a match *)

Lemma matches_cap r st st' :
  matches r st st' → no_group r = true → cap st' = cap st.
Proof.
  induction 1; simpl; intros Hg; try done;
    try (apply andb_prop in Hg as [? ?]); try by auto.
  - rewrite IHmatches2, IHmatches1; auto.
  - rewrite IHmatches2, IHmatches1; auto.
Qed.

Lemma exec_from_here r i s mt :
  match_here r i s = Some mt → exec_from r i s = Some mt.
Proof. intros H. destruct s; simpl; by rewrite H. Qed.

Lemma keyword_prefix_shape kws s st' :
  matches (keyword_prefix_regex kws) (MState 0 s None) st' →
  ∃ w c tail, s = w ++ c :: tail ∧ is_space c = true ∧ cap st' = Some w
    ∧ (kws = [] ∧ w = [] ∨ ∃ kw, kw ∈ kws ∧ toUpperCase w = toUpperCase kw).
Proof.
  intros H. unfold keyword_prefix_regex in H. inv H.
  match goal with M : matches Bos _ _ |- _ => inv M end.
  match goal with M : matches (Seq _ _) _ _ |- _ => inv M end.
  match goal with M : matches (Group _) _ _ |- _ => inv M end.
  match goal with M : matches (keywordPattern _) _ _ |- _ =>
    apply keywordPattern_matches in M as (w & Ek & Ik & _ & Hk) end.
  match goal with M : matches (Plus ws) _ _ |- _ =>
    pose proof (matches_cap _ _ _ M eq_refl) as Hcap;
    apply plus_ws_matches in M as (c & wsp & Hc & Es & _) end.
  simpl in *. exists w, c, (wsp ++ rest st'). rewrite Hcap, Ek, Es, Ik.
  repeat split; try done.
  rewrite Nat.sub_0_r. simpl. by rewrite take_app_length.
Qed.

(** The keyword the loop body reads off a match: a keyword of the list
    (up to letter case) with which [match[0]] starts, followed by white
    space. It is always found. *)
Lemma keyword_of_table kws i s mt :
  exec_from (table_regex kws) i s = Some mt →
  ∃ w c tail, m_0 mt = w ++ c :: tail ∧ is_space c = true
    ∧ keyword_of kws mt = Some (toUpperCase w)
    ∧ (kws = [] ∧ w = [] ∨ ∃ kw, kw ∈ kws ∧ toUpperCase w = toUpperCase kw).
Proof.
  intros (pre & s' & -> & _ & H)%exec_from_Some.
  apply match_here_table in H as (wk & c & wsp & wid & E0 & _ & _ & _ & _ & Hc & Hk).
  assert (is_Some (match_here (keyword_prefix_regex kws) 0 (m_0 mt))) as [km Hkm].
  { unfold match_here.
    assert (matches (keyword_prefix_regex kws) (MState 0 (m_0 mt) None)
              (MState (S (length wk)) (wsp ++ wid) (Some wk))) as M.
    { rewrite E0. eapply M_Seq; [by constructor|]. eapply M_Seq.
      - apply M_Group.
        instantiate (1 := MState (0 + length wk) (c :: wsp ++ wid) None).
        destruct Hk as [[-> ->]|(kw & Hin & U)]; [apply M_Eps|].
        by eapply keywordPattern_complete.
      - simpl. rewrite Nat.sub_0_r, take_app_length. by apply plus_ws_one. }
    destruct (rmatch_complete _ _ _ Some M) as [st1 ->]; [done|]. by eexists. }
  unfold keyword_of, exec. rewrite (exec_from_here _ _ _ _ Hkm).
  apply match_here_Some in Hkm
    as (st1 & (w & c1 & tail & E1 & Hc1 & C1 & Hk1)%keyword_prefix_shape & ->).
  exists w, c1, tail. unfold group1. simpl. rewrite C1. done.
Qed.

(** ** The two tests by pattern, read directly *)

Lemma star_ws_matches st st' :
  matches (Star ws) st st' →
  ∃ w, rest st = w ++ rest st' ∧ Forall (λ c, is_space c = true) w.
Proof.
  intros H. remember (Star ws) as r eqn:Er.
  induction H as [| | | | | | |r' st|r' st st1 st2 H1 _ _ _ IH|]; try done.
  - by exists [].
  - injection Er as ->. destruct (IH eq_refl) as (w & E & Hw).
    apply chr_matches in H1 as (c & Hc & E1 & _).
    exists (c :: w). rewrite E1, E. split; [done | by constructor].
Qed.

Lemma star_ws_all w : ∀ i t cp,
  Forall (λ c, is_space c = true) w →
  matches (Star ws) (MState i (w ++ t) cp) (MState (i + length w) t cp).
Proof.
  induction w as [|c w IH]; intros i t cp Hw; simpl.
  - rewrite Nat.add_0_r. constructor.
  - inv Hw. eapply M_StarStep; [by constructor | simpl; lia |].
    replace (i + S (length w)) with (S i + length w) by lia. by apply IH.
Qed.

Lemma match_here_complete r i s st' :
  matches r (MState i s None) st' → is_Some (match_here r i s).
Proof.
  intros M. unfold match_here.
  destruct (rmatch_complete r _ _ Some M) as [st1 ->]; [done|]. by eexists.
Qed.

Lemma exec_from_complete r pre : ∀ i s',
  is_Some (match_here r (i + length pre) s') →
  is_Some (exec_from r i (pre ++ s')).
Proof.
  induction pre as [|c pre IH]; intros i s' [mt H]; simpl in *.
  - rewrite Nat.add_0_r in H. rewrite (exec_from_here _ _ _ _ H). by eexists.
  - destruct (match_here r i (c :: pre ++ s')); [by eexists|].
    apply IH. replace (S i + length pre) with (i + S (length pre)) by lia.
    by eexists.
Qed.

(** The test before a double quote: the last ten characters of the output
    end with a comparison operator followed by white space only. *)
Lemma isStringLiteral_spec out :
  isStringLiteral out = true ↔
  ∃ pre c sp, slice_last 10 out = pre ++ c :: sp
    ∧ is_cmp c = true ∧ Forall (λ c, is_space c = true) sp.
Proof.
  unfold isStringLiteral, regex_test, exec. rewrite bool_decide_eq_true. split.
  - intros [mt (pre & s' & E & _ & Hm)%exec_from_Some].
    apply match_here_Some in Hm as (st' & M & _).
    unfold re_before_quote in M. inv M.
    match goal with M1 : matches (Chr is_cmp) _ _ |- _ =>
      apply chr_matches in M1 as (c & Hc & E1 & _) end.
    match goal with M2 : matches (Seq (Star ws) Eos) _ _ |- _ => inv M2 end.
    match goal with M3 : matches (Star ws) _ _ |- _ =>
      apply star_ws_matches in M3 as (sp & E3 & Hsp) end.
    match goal with M4 : matches Eos _ _ |- _ => inv M4 end.
    simpl in *. exists pre, c, sp. rewrite E, E1, E3.
    match goal with X : rest _ = [] |- _ => rewrite X end.
    by rewrite app_nil_r.
  - intros (pre & c & sp & -> & Hc & Hsp).
    apply (exec_from_complete _ pre 0), (match_here_complete _ _ _
      (MState (S (length pre) + length sp) [] None)).
    eapply M_Seq; [by constructor|]. eapply M_Seq; [|by constructor].
    rewrite <- (app_nil_r sp) at 1. by apply star_ws_all.
Qed.

(** The test after a match: white space, if any, and an opening
    parenthesis. *)
Lemma isFunction_spec mt :
  isFunction mt = true ↔
  ∃ sp t, m_after mt = sp ++ ch_lparen :: t ∧ Forall (λ c, is_space c = true) sp.
Proof.
  unfold isFunction, regex_test, exec. rewrite bool_decide_eq_true. split.
  - intros [km (pre & s' & E & _ & Hm)%exec_from_Some].
    apply match_here_Some in Hm as (st' & M & _).
    unfold re_call in M. inv M.
    match goal with M1 : matches Bos _ _ |- _ => inv M1 end.
    match goal with M2 : matches (Seq (Star ws) _) _ _ |- _ => inv M2 end.
    match goal with M3 : matches (Star ws) _ _ |- _ =>
      apply star_ws_matches in M3 as (sp & E3 & Hsp) end.
    match goal with M4 : matches (Lit _) _ _ |- _ =>
      apply chr_matches in M4 as (c & ->%N.eqb_eq & E4 & _) end.
    simpl in *. destruct pre; [|done]. simpl in E.
    exists sp, (rest st'). by rewrite E, E3, E4.
  - intros (sp & t & E & Hsp). rewrite E.
    apply (exec_from_complete _ [] 0), (match_here_complete _ _ _
      (MState (S (0 + length sp)) t None)).
    eapply M_Seq; [by constructor|]. eapply M_Seq; [by apply star_ws_all|].
    constructor. apply N.eqb_refl.
Qed.

(** ** The insertion-ordered set *)

Lemma Set_add_NoDup x s : NoDup s → NoDup (Set_add x s).
Proof.
  intros Hs. unfold Set_add. case_decide; [done|].
  apply NoDup_app. repeat split; [done | | apply NoDup_singleton].
  intros y Hy ->%list_elem_of_singleton. done.
Qed.

Lemma Set_add_elem x y s : y ∈ Set_add x s ↔ y ∈ s ∨ y = x.
Proof.
  unfold Set_add. case_decide.
  - split; [auto | intros [?| ->]; done].
  - rewrite elem_of_app, list_elem_of_singleton. done.
Qed.

Lemma Set_add_prefix x s : s `prefix_of` Set_add x s.
Proof. unfold Set_add. case_decide; [done | by apply prefix_app_r]. Qed.

(** A value that is already in the set leaves the set as it is. *)
Lemma Set_add_repeat x s : x ∈ s → Set_add x s = s.
Proof. intros. unfold Set_add. by case_decide. Qed.

Lemma Set_into_NoDup l : ∀ s, NoDup s → NoDup (Set_into s l).
Proof.
  induction l as [|x l IH]; intros s Hs; simpl; [done|].
  by apply IH, Set_add_NoDup.
Qed.

Lemma Set_into_elem l : ∀ s y, y ∈ Set_into s l ↔ y ∈ s ∨ y ∈ l.
Proof.
  induction l as [|x l IH]; intros s y; simpl.
  - rewrite elem_of_nil. tauto.
  - rewrite IH, Set_add_elem, elem_of_cons. tauto.
Qed.

Lemma Set_into_prefix l : ∀ s, s `prefix_of` Set_into s l.
Proof.
  induction l as [|x l IH]; intros s; simpl; [done|].
  etrans; [apply Set_add_prefix | apply IH].
Qed.

Lemma Set_from_app l1 l2 : Set_from (l1 ++ l2) = Set_into (Set_from l1) l2.
Proof. apply foldl_app. Qed.

Lemma Set_from_NoDup l : NoDup (Set_from l).
Proof. apply Set_into_NoDup, NoDup_nil_2. Qed.

Lemma Set_from_elem l y : y ∈ Set_from l ↔ y ∈ l.
Proof. unfold Set_from. fold (Set_into [] l). rewrite Set_into_elem, elem_of_nil. tauto. Qed.

(** The set only grows at its end: what a prefix of the values gave stays
    where it is. *)
Lemma Set_from_stable l n : Set_from (take n l) `prefix_of` Set_from l.
Proof.
  rewrite <- (take_drop n l) at 2. rewrite Set_from_app. apply Set_into_prefix.
Qed.

(** First-occurrence order. *)
Lemma Set_from_order l i j x y :
  l !! i = Some x → l !! j = Some y → y ∉ take j l → i < j →
  ∃ i' j', Set_from l !! i' = Some x ∧ Set_from l !! j' = Some y ∧ i' < j'.
Proof.
  intros Hx Hy Hfirst Hij.
  assert (x ∈ Set_from (take j l)) as (i' & Hi')%list_elem_of_lookup_1.
  { apply Set_from_elem, elem_of_take. eauto. }
  assert (y ∈ Set_from l) as (j' & Hj')%list_elem_of_lookup_1.
  { apply Set_from_elem. by eapply list_elem_of_lookup_2. }
  pose proof (Set_from_stable l j) as Hpre.
  exists i', j'. split; [by eapply prefix_lookup_Some | split; [done|]].
  apply lookup_lt_Some in Hi' as Hlt.
  destruct (decide (j' < length (Set_from (take j l)))) as [Hlt'|]; [|lia].
  exfalso. apply Hfirst, Set_from_elem.
  apply lookup_lt_is_Some in Hlt' as [z Hz].
  rewrite (prefix_lookup_Some _ _ _ _ Hz Hpre) in Hj'. injection Hj' as ->.
  by eapply list_elem_of_lookup_2.
Qed.

(** ** The result of the scan *)

Section ScanFacts.
Variable resolve : jsstring → jsstring.
Variable kws : list jsstring.

Lemma scan_body_captured mt s :
  scan_body resolve kws mt s
  = match captured resolve kws mt with Some x => Set_add x s | None => s end.
Proof.
  unfold scan_body, captured.
  destruct (m_1 mt) as [[|c t]|]; try done. by destruct (skipped kws mt).
Qed.

Lemma foldl_scan_body ms : ∀ s,
  foldl (λ acc mt, scan_body resolve kws mt acc) s ms
  = Set_into s (omap (captured resolve kws) ms).
Proof.
  induction ms as [|mt ms IH]; intros s; simpl; [done|].
  rewrite IH, scan_body_captured. by destruct (captured resolve kws mt).
Qed.

Lemma scan_captures cleanSql :
  scan resolve kws cleanSql = Some (Set_from (captures resolve kws cleanSql)).
Proof. rewrite scan_total. f_equal. apply foldl_scan_body. Qed.
End ScanFacts.

Lemma extractTableNames_eq sql options :
  extractTableNames sql options
  = Some (classify
            (Set_from (captures (λ name, resolveTableName name (knownTables options))
                         (effective_keywords options)
                         (removeCommentsAndStrings sql)))
            (knownTables options) (default false (filterCTEs options))).
Proof. unfold extractTableNames. by rewrite scan_captures. Qed.

Lemma filter_none {A} (P : A → Prop) `{!∀ x, Decision (P x)} (l : list A) :
  (∀ x, ¬ P x) → filter P l = [].
Proof.
  intros HP. induction l as [|a l IH]; [done|]. by rewrite filter_cons_False.
Qed.

Lemma filter_all {A} (P : A → Prop) `{!∀ x, Decision (P x)} (l : list A) :
  (∀ x, P x) → filter P l = l.
Proof.
  intros HP. induction l as [|a l IH]; [done|].
  by rewrite filter_cons_True, IH.
Qed.

Lemma classify_empty_catalog (l : list jsstring) :
  classify l (Some []) true
  = {| allTables := l; realTables := []; filteredCTEs := l |}.
Proof.
  unfold classify. f_equal.
  - apply filter_none. intros x [].
  - apply filter_all. intros x [].
Qed.

(** * The claims about [extractTableNames] and [getTableNamesSimple] *)

(** C1. With CTE classification on and a catalog supplied, [allTables] is
    the disjoint union of [realTables] and [filteredCTEs]: every element
    of [allTables] is in exactly one of the two, and each of the two lists
    its elements in the order of [allTables]. Otherwise [realTables] is
    [allTables] and [filteredCTEs] is empty. The call always returns. *)
Theorem partition_invariant (sql : jsstring) (options : TableExtractionOptions) :
  plain_options options →
  ∃ res, extractTableNames sql options = Some res ∧
    match default false (filterCTEs options), knownTables options with
    | true, Some _ =>
        (∀ x, x ∈ allTables res ↔ x ∈ realTables res ∨ x ∈ filteredCTEs res)
        ∧ (∀ x, x ∈ realTables res → x ∉ filteredCTEs res)
        ∧ realTables res `sublist_of` allTables res
        ∧ filteredCTEs res `sublist_of` allTables res
        ∧ realTables res ++ filteredCTEs res ≡ₚ allTables res
    | _, _ => realTables res = allTables res ∧ filteredCTEs res = []
    end.
Proof.
  intros _. rewrite extractTableNames_eq. eexists. split; [done|].
  destruct (default false (filterCTEs options)), (knownTables options) as [known|];
    simpl; try done.
  repeat split.
  - intros Hx. destruct (isKnownTable x known) eqn:E.
    + left. apply list_elem_of_filter. rewrite E. by split.
    + right. apply list_elem_of_filter. rewrite E. split; [by intros []|done].
  - intros [[_ ?]%list_elem_of_filter|[_ ?]%list_elem_of_filter]; done.
  - intros x [Hk _]%list_elem_of_filter [Hn _]%list_elem_of_filter. done.
  - apply sublist_filter.
  - apply sublist_filter.
  - apply filter_app_complement.
Qed.

(** C1 at the query with a CTE: [temp] goes to [filteredCTEs]. *)
Lemma partition_invariant_witness :
  ∃ res, extractTableNames cte_sql cte_options = Some res ∧
    (∀ x, x ∈ allTables res ↔ x ∈ realTables res ∨ x ∈ filteredCTEs res)
    ∧ (∀ x, x ∈ realTables res → x ∉ filteredCTEs res)
    ∧ realTables res `sublist_of` allTables res
    ∧ filteredCTEs res `sublist_of` allTables res
    ∧ realTables res ++ filteredCTEs res ≡ₚ allTables res.
Proof.
  apply (partition_invariant cte_sql cte_options).
  apply (bool_decide_unpack _). by vm_compute.
Defined.

(** C2. [allTables] has no duplicate, holds exactly the captured
    (resolved) names, and lists them in the order of their first capture:
    a name captured before the first capture of another one stands before
    it, and the list built from any number of leading captures is a prefix
    of the final one, so that a repeated capture moves nothing. *)
Theorem allTables_first_occurrence_order
    (sql : jsstring) (options : TableExtractionOptions) :
  plain_options options →
  ∃ res, extractTableNames sql options = Some res ∧
    let caps :=
      captures (λ name, resolveTableName name (knownTables options))
        (effective_keywords options) (removeCommentsAndStrings sql) in
    NoDup (allTables res)
    ∧ (∀ x, x ∈ allTables res ↔ x ∈ caps)
    ∧ (∀ i j x y,
         caps !! i = Some x → caps !! j = Some y → y ∉ take j caps → i < j →
         ∃ i' j', allTables res !! i' = Some x ∧ allTables res !! j' = Some y
                  ∧ i' < j')
    ∧ (∀ n, Set_from (take n caps) `prefix_of` allTables res).
Proof.
  intros _. rewrite extractTableNames_eq. eexists. split; [done|].
  assert (∀ l known f, allTables (classify l known f) = l) as ->.
  { intros l [known|] []; done. }
  repeat split.
  - apply Set_from_NoDup.
  - apply Set_from_elem.
  - apply Set_from_elem.
  - apply Set_from_order.
  - apply Set_from_stable.
Qed.

(** C2 at the query with a CTE: the captures are [users], [temp] and
    [orders], in this order. *)
Lemma allTables_first_occurrence_order_witness :
  ∃ res, extractTableNames cte_sql cte_options = Some res ∧
    let caps :=
      captures (λ name, resolveTableName name (knownTables cte_options))
        (effective_keywords cte_options) (removeCommentsAndStrings cte_sql) in
    NoDup (allTables res)
    ∧ (∀ x, x ∈ allTables res ↔ x ∈ caps)
    ∧ (∀ i j x y,
         caps !! i = Some x → caps !! j = Some y → y ∉ take j caps → i < j →
         ∃ i' j', allTables res !! i' = Some x ∧ allTables res !! j' = Some y
                  ∧ i' < j')
    ∧ (∀ n, Set_from (take n caps) `prefix_of` allTables res).
Proof.
  apply (allTables_first_occurrence_order cte_sql cte_options).
  apply (bool_decide_unpack _). by vm_compute.
Defined.

(** C3 (as the code has it). An explicit keyword list that is empty does
    not empty the pattern: the default keywords are used and the custom
    keywords, if any, are added. When the custom keywords are plain
    phrases, the call returns, and it returns what it returns when no
    keyword list is given. *)
Theorem empty_keywords_use_defaults (sql : jsstring)
    (known : option catalog) (filter : option bool)
    (custom : option (list jsstring)) :
  Forall plain_keyword (default [] custom) →
  ∃ res,
    extractTableNames sql
      {| knownTables := known; filterCTEs := filter;
         customKeywords := custom; keywords := Some [] |} = Some res
    ∧ extractTableNames sql
        {| knownTables := known; filterCTEs := filter;
           customKeywords := custom; keywords := None |} = Some res.
Proof. intros _. rewrite !extractTableNames_eq. by eexists. Qed.

(** C3 at a plain query, with one custom keyword. *)
Lemma empty_keywords_use_defaults_witness :
  ∃ res,
    extractTableNames (str "SELECT * FROM users")
      {| knownTables := None; filterCTEs := None;
         customKeywords := Some [str "MERGE INTO"]; keywords := Some [] |}
    = Some res
    ∧ extractTableNames (str "SELECT * FROM users")
        {| knownTables := None; filterCTEs := None;
           customKeywords := Some [str "MERGE INTO"]; keywords := None |}
      = Some res.
Proof.
  apply (empty_keywords_use_defaults (str "SELECT * FROM users") None None
           (Some [str "MERGE INTO"])).
  apply (bool_decide_unpack _). by vm_compute.
Defined.

(** C3, the claim as stated fails: with an explicit empty keyword list the
    table of a plain query is still found. *)
Lemma empty_keywords_still_extract :
  extractTableNames (str "SELECT * FROM users")
    {| knownTables := None; filterCTEs := None;
       customKeywords := None; keywords := Some [] |}
  = Some {| allTables := [str "users"]; realTables := [str "users"];
            filteredCTEs := [] |}
  ∧ [str "users"] ≠ ([] : list jsstring).
Proof. split; [vm_compute; reflexivity | done]. Qed.

(** C9. [getTableNamesSimple] returns the [realTables] of the extraction
    with the catalog and classification on when a catalog is given, and
    the [allTables] of the extraction without options when none is. *)
Theorem getTableNamesSimple_result (sql : jsstring) :
  (∀ known : catalog, ∃ res,
      extractTableNames sql
        {| knownTables := Some known; filterCTEs := Some true;
           customKeywords := None; keywords := None |} = Some res
      ∧ getTableNamesSimple sql (Some known) = Some (realTables res))
  ∧ (∃ res, extractTableNames sql no_options = Some res
      ∧ getTableNamesSimple sql None = Some (allTables res)).
Proof.
  unfold getTableNamesSimple. split; [intros known|];
    rewrite !extractTableNames_eq; by eexists.
Qed.

(** C10. With a catalog that is present but empty, [getTableNamesSimple]
    returns the empty list: classification is on, no name is known, every
    name the query yields without a catalog is filed under
    [filteredCTEs]. *)
Theorem getTableNamesSimple_empty_catalog (sql : jsstring) :
  getTableNamesSimple sql (Some []) = Some []
  ∧ ∃ res res0,
      extractTableNames sql
        {| knownTables := Some []; filterCTEs := Some true;
           customKeywords := None; keywords := None |} = Some res
      ∧ extractTableNames sql no_options = Some res0
      ∧ realTables res = []
      ∧ filteredCTEs res = allTables res0.
Proof.
  unfold getTableNamesSimple. rewrite !extractTableNames_eq.
  cbn [knownTables filterCTEs].
  change (default false (Some true)) with true.
  rewrite !classify_empty_catalog.
  split; [done|]. do 2 eexists. repeat split.
Qed.

(** ** Function calls after a keyword *)

Lemma scan_matches_elem kws mt fuel : ∀ i s,
  mt ∈ scan_matches kws fuel i s →
  ∃ i' s', exec_from (table_regex kws) i' s' = Some mt.
Proof.
  induction fuel as [|fuel IH]; intros i s; simpl; [by intros ?%elem_of_nil|].
  destruct (exec_from _ i s) as [mt'|] eqn:E; [|by intros ?%elem_of_nil].
  intros [->|?]%elem_of_cons; eauto.
Qed.

Lemma effective_keywords_nonempty options : effective_keywords options ≠ [].
Proof.
  unfold effective_keywords.
  set (base := match keywords options with
               | Some ((_ :: _) as keywords) => keywords
               | _ => defaultSqlKeywords_default
               end).
  assert (∃ k ks, base = k :: ks) as (k & ks & Hb).
  { subst base. destruct (keywords options) as [[|k ks]|]; eauto;
      by eexists _, _. }
  intros Hnil.
  assert (k ∈ ([] : list jsstring)) as ?%elem_of_nil; [|done].
  rewrite <- Hnil. apply Set_from_elem. rewrite Hb.
  destruct (default [] (customKeywords options)); left.
Qed.

(** * The claims about the catalog *)

Lemma split_segments sep s :
  ∃ seg segs, split sep s = seg :: segs ∧ (sep ∉ seg)
    ∧ (segs = [] ∧ s = seg
       ∨ ∃ l pre, last segs = Some l ∧ (sep ∉ l) ∧ s = pre ++ sep :: l).
Proof.
  induction s as [|c s (seg & segs & E & Hseg & Hlast)]; simpl.
  - exists [], []. repeat split; [apply not_elem_of_nil | by left].
  - rewrite E. destruct (N.eqb_spec c sep) as [->|Hc].
    + exists [], (seg :: segs). repeat split; [apply not_elem_of_nil|]. right.
      destruct Hlast as [[-> ->]|(l & pre & Hl & Hnl & ->)].
      * by exists seg, [].
      * exists l, (sep :: pre). rewrite last_cons, Hl. done.
    + exists (c :: seg), segs. repeat split; [by apply not_elem_of_cons|].
      destruct Hlast as [[-> ->]|(l & pre & Hl & Hnl & ->)]; [by left|].
      right. by exists l, (c :: pre).
Qed.

(** The bare form of a name is its last dot-separated segment: what
    follows the last dot, the whole name when it has no dot. *)
Lemma tableWithoutSchema_last_segment name :
  (ch_dot ∉ tableWithoutSchema name)
  ∧ (name = tableWithoutSchema name
     ∨ ∃ pre, name = pre ++ ch_dot :: tableWithoutSchema name).
Proof.
  unfold tableWithoutSchema, pop.
  destruct (split_segments ch_dot name)
    as (seg & segs & E & Hseg & [[-> ->]|(l & pre & Hl & Hnl & ->)]).
  - rewrite E. simpl. destruct (includes _ _); auto.
  - rewrite E, last_cons, Hl. simpl.
    assert (includes [ch_dot] (pre ++ ch_dot :: l) = true) as ->; [|eauto].
    clear. induction pre as [|c pre IH]; simpl; [done|].
    rewrite IH. apply orb_true_r.
Qed.

Lemma list_find_cons {A} (P : A → Prop) `{!∀ x, Decision (P x)} x l :
  list_find P (x :: l)
  = if decide (P x) then Some (0, x) else prod_map S id <$> list_find P l.
Proof. done. Qed.

Lemma Map_get_find name (known : catalog) :
  Map_get name known = (λ e, (e.2).2) <$> list_find (λ e, e.1 = name) known.
Proof.
  unfold Map_get, str_eqb. induction known as [|[key md] known IH]; [done|].
  cbn [find fst]. rewrite list_find_cons. simpl.
  case_bool_decide; case_decide; try done.
  rewrite IH. by destruct (list_find _ known) as [[??]|].
Qed.

Lemma resolve_loop_find name bare (known : catalog) :
  list_find (λ e, e.1 = name) known = None →
  resolve_loop name bare known
  = match list_find (λ e, tableName e.2 = bare ∨ fullyQualifiedName e.2 = name)
            known with
    | Some (_, e) => fullyQualifiedName e.2
    | None => name
    end.
Proof.
  induction known as [|[key md] known IH]; [done|].
  rewrite !list_find_cons. simpl. unfold str_eqb.
  case_decide; [done|]. intros Hnone.
  rewrite bool_decide_eq_false_2 by done.
  destruct (list_find (λ e, e.1 = name) known) eqn:Ek; [done|].
  repeat case_bool_decide; case_decide; try tauto.
  rewrite IH by done.
  by destruct (list_find (λ e, tableName e.2 = bare ∨ _) known) as [[??]|].
Qed.

(** C8 (as the code has it). Resolution against a catalog returns the
    [fullyQualifiedName] of the entry whose key is the name, if there is
    one; otherwise that of the first entry, in iteration order, whose
    [tableName] is the bare form of the name or whose
    [fullyQualifiedName] is the name itself; otherwise the name. The bare
    form is what follows the last dot of the name, the name itself when it
    has no dot. *)
Theorem resolveTableName_policy (name : jsstring) (known : catalog) :
  resolveTableName name (Some known)
  = match list_find (λ e, e.1 = name) known with
    | Some (_, e) => fullyQualifiedName e.2
    | None =>
        match list_find
                (λ e, tableName e.2 = tableWithoutSchema name
                      ∨ fullyQualifiedName e.2 = name) known with
        | Some (_, e) => fullyQualifiedName e.2
        | None => name
        end
    end
  ∧ (ch_dot ∉ tableWithoutSchema name)
  ∧ (name = tableWithoutSchema name
     ∨ ∃ pre, name = pre ++ ch_dot :: tableWithoutSchema name).
Proof.
  split; [|apply tableWithoutSchema_last_segment].
  unfold resolveTableName. rewrite Map_get_find.
  destruct (list_find (λ e, e.1 = name) known) as [[i e]|] eqn:E; [done|].
  by apply resolve_loop_find.
Qed.

(** C8, the claim as stated fails: no key is [dbo.users], the first entry
    whose [tableName] is the bare form [users] is the second one, with
    [archive.users]; the code stops at the first entry, whose
    [fullyQualifiedName] is the name, and returns [dbo.users]. *)
Lemma resolveTableName_stops_at_qualified_name :
  list_find (λ e : jsstring * TableMetadata, e.1 = str "dbo.users") users_catalog = None
  ∧ (λ e, fullyQualifiedName ((e.2).2)) <$>
      list_find (λ e : jsstring * TableMetadata,
                   tableName e.2 = tableWithoutSchema (str "dbo.users"))
        users_catalog
    = Some (str "archive.users")
  ∧ resolveTableName (str "dbo.users") (Some users_catalog) = str "dbo.users"
  ∧ str "dbo.users" ≠ str "archive.users".
Proof. repeat split; try by vm_compute. Qed.

(** * The claims about the scrubber *)

(** ** White space normalisation *)

Lemma trim_start_length s : length (trim_start s) ≤ length s.
Proof. induction s as [|c s IH]; simpl; [done|]. destruct (is_space c); simpl; lia. Qed.

Lemma collapse_true_trim s : collapse true s = collapse false (trim_start s).
Proof.
  induction s as [|c s IH]; simpl; [done|].
  destruct (is_space c) eqn:E; [done|]. simpl. by rewrite E.
Qed.

(** Against a continuation that accepts, [\s*] takes all the white space
    there is. *)
Lemma star_ws_Some fuel : ∀ st,
  length (rest st) < fuel →
  ∃ n, star (rmatch ws) fuel st Some
       = Some (MState n (trim_start (rest st)) (cap st)).
Proof.
  induction fuel as [|fuel IH]; intros [i s cp] Hf; [simpl in Hf; lia|].
  cbn [star rmatch ws rest idx cap]. destruct s as [|c t]; [by eexists|].
  cbn [trim_start]. destruct (is_space c) eqn:E; [|by eexists].
  cbn [rest length]. destruct (Nat.ltb_spec (length t) (S (length t))); [|lia].
  destruct (IH (MState (S i) t cp)) as [n Hn]; [simpl in *; lia|].
  match goal with |- ∃ _, match ?X with _ => _ end = _ =>
    change X with (star (rmatch ws) fuel (MState (S i) t cp) Some) end.
  rewrite Hn. by eexists.
Qed.

Lemma match_here_plus_ws i s :
  match s with
  | c :: t =>
      if is_space c
      then ∃ mt, match_here (Plus ws) i s = Some mt ∧ m_after mt = trim_start t
      else match_here (Plus ws) i s = None
  | [] => match_here (Plus ws) i s = None
  end.
Proof.
  destruct s as [|c t]; [done|]. unfold match_here.
  cbn [Plus rmatch ws rest]. destruct (is_space c) eqn:E; [|done].
  cbn [idx cap].
  destruct (star_ws_Some (S (length t)) (MState (S i) t None)) as [n Hn];
    [simpl; lia|].
  cbn [rest cap] in Hn.
  match goal with |- ∃ _, match ?X with _ => _ end = _ ∧ _ =>
    change X with (star (rmatch ws) (S (length t)) (MState (S i) t None) Some) end.
  rewrite Hn. by eexists.
Qed.

Lemma replace_ws_collapse fuel : ∀ i s,
  length s < fuel →
  replace_from fuel (Plus ws) (λ _, [ch_space]) i s = collapse false s.
Proof.
  induction fuel as [|fuel IH]; intros i s Hf; [lia|].
  pose proof (match_here_plus_ws i s) as Hm. cbn [replace_from].
  destruct s as [|c t]; [by rewrite Hm|]. simpl in Hf. cbn [collapse].
  destruct (is_space c) eqn:E.
  - destruct Hm as (mt & -> & Ha). rewrite Ha.
    pose proof (trim_start_length t).
    destruct (Nat.ltb_spec (length (trim_start t)) (length (c :: t)));
      [|simpl in *; lia].
    rewrite IH by lia. by rewrite collapse_true_trim.
  - rewrite Hm, IH by lia. done.
Qed.

Lemma normalize_ws_collapse s : normalize_ws s = trim (collapse false s).
Proof. unfold normalize_ws, replace. rewrite replace_ws_collapse; [done | lia]. Qed.

Lemma collapse_true_head s : starts_with_space (collapse true s) = false.
Proof. induction s as [|c s IH]; simpl; [done|]. by destruct (is_space c) eqn:E. Qed.

Lemma collapse_single_spaced s : ∀ b, single_spaced (collapse b s) = true.
Proof.
  induction s as [|c s IH]; intros b; simpl; [done|].
  destruct (is_space c) eqn:E; [destruct b|]; simpl; rewrite ?E, ?IH; try done.
  by rewrite collapse_true_head.
Qed.

Lemma single_spaced_collapse s : single_spaced s = true → collapse false s = s.
Proof.
  induction s as [|c s IH]; simpl; [done|].
  intros [Hc Hs]%andb_prop. destruct (is_space c) eqn:E.
  - apply andb_prop in Hc as [->%N.eqb_eq Hn%negb_true_iff].
    rewrite collapse_true_trim. destruct s as [|d s]; [done|].
    simpl in Hn. cbn [trim_start]. rewrite Hn. by rewrite IH.
  - by rewrite IH.
Qed.

Lemma single_spaced_trim_start s :
  single_spaced s = true → single_spaced (trim_start s) = true.
Proof.
  induction s as [|c s IH]; simpl; [done|].
  intros [Hc Hs]%andb_prop. destruct (is_space c) eqn:E; [auto|].
  simpl. by rewrite E, Hs.
Qed.

Lemma trim_end_head s :
  starts_with_space s = false → starts_with_space (trim_end s) = false.
Proof.
  destruct s as [|c s]; simpl; [done|]. intros E.
  destruct (trim_end s); simpl; by rewrite E.
Qed.

Lemma single_spaced_trim_end s :
  single_spaced s = true → single_spaced (trim_end s) = true.
Proof.
  induction s as [|c s IH]; simpl; [done|].
  intros [Hc Hs]%andb_prop. specialize (IH Hs).
  destruct (trim_end s) as [|d u] eqn:Eu.
  - destruct (is_space c) eqn:E; simpl; by rewrite ?E.
  - apply andb_true_intro. split; [|exact IH].
    destruct (is_space c) eqn:E; [|done].
    apply andb_prop in Hc as [-> Hn]. simpl.
    destruct s as [|d' s']; [done|]. simpl in Eu, Hn.
    destruct (trim_end s'); [destruct (is_space d') eqn:E'|];
      simplify_eq; by rewrite ?E'.
Qed.

Lemma trim_start_id s : starts_with_space s = false → trim_start s = s.
Proof. destruct s as [|c s]; simpl; [done|]. by intros ->. Qed.

Lemma trim_start_head s : starts_with_space (trim_start s) = false.
Proof.
  induction s as [|c s IH]; simpl; [done|].
  destruct (is_space c) eqn:E; [done|]. simpl. by rewrite E.
Qed.

Lemma trim_end_idem s : trim_end (trim_end s) = trim_end s.
Proof.
  induction s as [|c s IH]; simpl; [done|].
  destruct (trim_end s) as [|d u] eqn:Eu.
  - destruct (is_space c) eqn:E; simpl; by rewrite ?E.
  - change (trim_end (c :: d :: u))
      with (match trim_end (d :: u) with
            | [] => if is_space c then [] else [c]
            | t => c :: t
            end).
    by rewrite IH.
Qed.

Lemma trim_idem s : trim (trim s) = trim s.
Proof.
  unfold trim. rewrite (trim_start_id (trim_end _)).
  - apply trim_end_idem.
  - apply trim_end_head, trim_start_head.
Qed.

(** Normalising twice is normalising once. *)
Lemma normalize_ws_idem s : normalize_ws (normalize_ws s) = normalize_ws s.
Proof.
  rewrite !normalize_ws_collapse.
  rewrite (single_spaced_collapse (trim _)).
  - apply trim_idem.
  - apply single_spaced_trim_end, single_spaced_trim_start, collapse_single_spaced.
Qed.

(** ** The loop of the scrubber *)

Arguments scrub_step : simpl never.

Lemma skip_line_length s : length (skip_line s) ≤ length s.
Proof. induction s as [|c s IH]; simpl; [done|]. destruct (c =? ch_lf)%N; simpl; lia. Qed.

Lemma skip_block_length s : length (skip_block s) ≤ length s.
Proof.
  induction s as [|a s IH]; simpl; [done|]. destruct s as [|b t]; [done|].
  destruct ((a =? ch_star)%N && (b =? ch_slash)%N); simpl in *; lia.
Qed.

Lemma skip_squote_length s : length (skip_squote s) ≤ length s.
Proof.
  induction s as [s IH] using (induction_ltof1 _ length). unfold ltof in IH.
  destruct s as [|c t]; simpl; [done|].
  destruct (c =? ch_squote)%N.
  - destruct t as [|c2 t2]; simpl; [lia|].
    destruct (c2 =? ch_squote)%N; [|simpl; lia].
    specialize (IH t2). simpl in IH. lia.
  - specialize (IH t). simpl in IH. lia.
Qed.

Lemma skip_dquote_length s : length (skip_dquote s) ≤ length s.
Proof. induction s as [|c s IH]; simpl; [done|]. destruct (c =? ch_dquote)%N; simpl; lia. Qed.

(** Every round of the loop consumes at least one character. *)
Lemma scrub_step_shorter c tl out :
  length (scrub_step (c :: tl) out).1 < length (c :: tl).
Proof.
  unfold scrub_step.
  destruct ((c =? ch_minus)%N && _) eqn:E1.
  { apply andb_prop in E1 as [->%N.eqb_eq _]. cbn [skip_line].
    change (ch_minus =? ch_lf)%N with false. cbn [fst length].
    pose proof (skip_line_length tl). lia. }
  destruct ((c =? ch_slash)%N && _) eqn:E2.
  { cbn [fst]. pose proof (skip_block_length (drop 2 (c :: tl))).
    pose proof (length_drop (c :: tl) 2). simpl in *. lia. }
  destruct (c =? ch_squote)%N.
  { cbn [fst length]. pose proof (skip_squote_length tl). lia. }
  destruct (c =? ch_dquote)%N; [destruct (isStringLiteral out)|];
    cbn [fst length]; try lia.
  pose proof (skip_dquote_length tl). lia.
Qed.

(** The loop uses up its input within [length sql] rounds: the bound of
    [scrub_raw] never cuts a run short. *)
Lemma scrub_loop_done fuel : ∀ sql out,
  length sql ≤ fuel → (scrub_loop fuel sql out).1 = [].
Proof.
  induction fuel as [|fuel IH]; intros [|c tl] out Hf; simpl in *; try done; [lia|].
  pose proof (scrub_step_shorter c tl out) as Hlt.
  destruct (scrub_step (c :: tl) out) as [sql' out']. apply IH. simpl in *. lia.
Qed.

Lemma scrub_step_regular c tl out :
  regular c (head tl) = true → scrub_step (c :: tl) out = (tl, out ++ [c]).
Proof.
  unfold regular, scrub_step.
  intros [[[H1 H2]%andb_prop H3]%andb_prop H4]%andb_prop.
  apply negb_true_iff in H1 as ->, H2 as ->, H3 as ->, H4 as ->. done.
Qed.

Lemma scrub_loop_regular t : ∀ rest out fuel,
  all_regular t rest = true →
  scrub_loop (length t + fuel) (t ++ rest) out = scrub_loop fuel rest (out ++ t).
Proof.
  induction t as [|c t IH]; intros rest out fuel; simpl.
  - by rewrite app_nil_r.
  - intros [Hc Ht]%andb_prop.
    rewrite scrub_step_regular by done. rewrite IH by done.
    by rewrite <- app_assoc.
Qed.

Lemma clean_all_regular t rest :
  clean_text t → head rest ≠ Some ch_minus → head rest ≠ Some ch_star →
  all_regular t rest = true.
Proof.
  intros (Hs & Hd & Hl & Hb) Hm Hst.
  induction t as [|c t IH]; [done|]. simpl.
  apply not_elem_of_cons in Hs as [Hs1 Hs2], Hd as [Hd1 Hd2].
  simpl in Hl, Hb.
  apply orb_false_elim in Hl as [Hl1 Hl2], Hb as [Hb1 Hb2].
  rewrite IH by done. rewrite andb_true_r. unfold regular.
  rewrite (proj2 (N.eqb_neq c ch_squote)), (proj2 (N.eqb_neq c ch_dquote)) by done.
  rewrite !andb_true_r. apply andb_true_intro. split; apply negb_true_iff.
  - destruct (N.eqb_spec c ch_minus) as [->|]; [|done]. simpl.
    apply bool_decide_eq_false. destruct t as [|d t]; [done|]. simpl in *.
    intros [= ->]. done.
  - destruct (N.eqb_spec c ch_slash) as [->|]; [|done]. simpl.
    apply bool_decide_eq_false. destruct t as [|d t]; [done|]. simpl in *.
    intros [= ->]. done.
Qed.

(** On clean text the loop copies its input. *)
Lemma scrub_raw_clean t : clean_text t → scrub_raw t = t.
Proof.
  intros Hc. unfold scrub_raw.
  pose proof (scrub_loop_regular t [] [] 0) as H.
  rewrite app_nil_r, Nat.add_0_r in H. rewrite H; [done|].
  by apply clean_all_regular.
Qed.


(** C6 (as the code has it). Scrubbing a scrubbed string changes nothing
    when the scrubbed string holds no quote character and no comment
    opener. *)
Theorem scrub_idempotent_on_clean_output (s : jsstring) :
  clean_text (removeCommentsAndStrings s) →
  removeCommentsAndStrings (removeCommentsAndStrings s)
  = removeCommentsAndStrings s.
Proof.
  intros Hc. unfold removeCommentsAndStrings at 1.
  rewrite scrub_raw_clean by done.
  unfold removeCommentsAndStrings. apply normalize_ws_idem.
Qed.

(** C6 at a query with a comment, a string literal and runs of spaces. *)
Lemma scrub_idempotent_on_clean_output_witness :
  removeCommentsAndStrings
    (removeCommentsAndStrings (str "SELECT  *  FROM users /* all */ WHERE n = 'x' -- c"))
  = removeCommentsAndStrings (str "SELECT  *  FROM users /* all */ WHERE n = 'x' -- c").
Proof.
  apply (scrub_idempotent_on_clean_output
           (str "SELECT  *  FROM users /* all */ WHERE n = 'x' -- c")).
  repeat split; try (apply (bool_decide_unpack _)); vm_compute; done.
Defined.

(** C6, the claim as stated fails: a block comment is removed without a
    trace, so the two minus signs around it meet and open a line comment
    for the second pass. *)
Lemma scrub_not_idempotent :
  removeCommentsAndStrings (str "SELECT 1 -/**/- 2") = str "SELECT 1 -- 2"
  ∧ removeCommentsAndStrings (str "SELECT 1 -- 2") = str "SELECT 1"
  ∧ str "SELECT 1 -- 2" ≠ str "SELECT 1".
Proof. repeat split; by vm_compute. Qed.

(** C5, the code at an unterminated block comment: the loop that looks for
    the closer stops one character short of the end, and the last
    character of the comment is copied to the output. *)
Theorem unterminated_block_comment_keeps_last_char :
  removeCommentsAndStrings (str "SELECT * FROM users/* note") = str "SELECT * FROM userse"
  ∧ removeCommentsAndStrings (str "SELECT * FROM users") = str "SELECT * FROM users"
  ∧ scrub_step (str "/* note") (str "SELECT * FROM users")
    = (str "e", str "SELECT * FROM users")
  ∧ allTables <$> extractTableNames (str "SELECT * FROM users/* note") no_options
    = Some [str "userse"].
Proof. repeat split; by vm_compute. Qed.

Lemma includes_pair p q a b t :
  includes [p; q] (a :: b :: t)
  = (p =? a)%N && (q =? b)%N || includes [p; q] (b :: t).
Proof. cbn [includes starts_with]. by rewrite andb_true_r. Qed.

(** The shortfall at any unterminated block comment that is not empty. *)
Lemma skip_block_unterminated body x :
  includes [ch_star; ch_slash] (body ++ [x]) = false →
  skip_block (body ++ [x]) = [x].
Proof.
  induction body as [|a body IH]; [done|]. intros Hi.
  change ((a :: body) ++ [x]) with (a :: (body ++ [x])) in *.
  destruct (body ++ [x]) as [|b t] eqn:E; [by destruct body|].
  rewrite includes_pair in Hi. apply orb_false_elim in Hi as [Hs Hi].
  cbn [skip_block]. rewrite (N.eqb_sym a), (N.eqb_sym b), Hs. by apply IH.
Qed.

(** X27. At a double quote that the test on the last ten characters of
    the output does not take for a string literal, the loop copies the
    quote and goes on with the ordinary rules. A quoted span whose
    content holds no quote character and no comment opener, and whose
    closing quote the same test does not take for a string literal, is
    copied to the output buffer as it stands, [length content + 2]
    rounds later. *)
Theorem quoted_identifier_copied (content rest out : jsstring) (fuel : nat) :
  isStringLiteral out = false →
  isStringLiteral (out ++ ch_dquote :: content) = false →
  clean_text content →
  scrub_loop (length content + 2 + fuel) (dq content ++ rest) out
  = scrub_loop fuel rest (out ++ dq content).
Proof.
  intros Hopen Hclose Hc. unfold dq.
  replace (length content + 2 + fuel) with (S (length content + S fuel)) by lia.
  cbn [scrub_loop app]. unfold scrub_step at 1. cbn [head].
  change (ch_dquote =? ch_minus)%N with false.
  change (ch_dquote =? ch_slash)%N with false.
  change (ch_dquote =? ch_squote)%N with false.
  change (ch_dquote =? ch_dquote)%N with true. cbn [andb]. rewrite Hopen.
  rewrite <- app_assoc. rewrite scrub_loop_regular
    by (by apply clean_all_regular).
  cbn [scrub_loop app]. unfold scrub_step at 1.
  change (ch_dquote =? ch_minus)%N with false.
  change (ch_dquote =? ch_slash)%N with false.
  change (ch_dquote =? ch_squote)%N with false.
  change (ch_dquote =? ch_dquote)%N with true. cbn [andb].
  rewrite <- app_assoc. cbn [app]. rewrite Hclose.
  by rewrite <- app_assoc.
Qed.

(** X27 at a quoted table name after [FROM]. *)
Lemma quoted_identifier_copied_witness :
  scrub_loop (length (str "user table") + 2 + 2)
    (dq (str "user table") ++ str " u") (str "SELECT * FROM ")
  = scrub_loop 2 (str " u") (str "SELECT * FROM " ++ dq (str "user table")).
Proof.
  apply (quoted_identifier_copied (str "user table") (str " u")
           (str "SELECT * FROM ") 2).
  - vm_compute. reflexivity.
  - vm_compute. reflexivity.
  - repeat split; try (apply (bool_decide_unpack _)); vm_compute; done.
Defined.

(** C4, the code at a quoted identifier that holds two minus signs: the
    output so far ends with the letter [T], the span is taken for an
    identifier, but only its opening quote is copied; the two minus signs
    inside the span open a line comment and the rest of the span is lost.
    No number of rounds gives the state in which the span has been
    copied, and the scrubbed text ends after the first character of the
    span. *)
Lemma quoted_identifier_with_dashes_cut :
  isStringLiteral (str "SELECT ") = false
  ∧ last (trim_end (str "SELECT ")) = Some 84%N ∧ is_cmp 84%N = false
  ∧ (∀ n, scrub_loop n (dq (str "a--b") ++ str " FROM t") (str "SELECT ")
          ≠ (str " FROM t", str "SELECT " ++ dq (str "a--b")))
  ∧ removeCommentsAndStrings (str "SELECT " ++ dq (str "a--b") ++ str " FROM t")
    = str "SELECT " ++ [ch_dquote; 97%N].
Proof.
  repeat split; try by vm_compute.
  intros [|[|[|[|n]]]]; by vm_compute.
Qed.

(** * The set-based engine

    The claims C1, C2, C3, C9 and C10 on the engine of [src/parser.ts]. *)

Lemma set_extractTableNames_eq sql options :
  SetVariant.extractTableNames sql options
  = Some (SetVariant.classify
            (Set_from (captures (λ name, name)
                         (SetVariant.effective_keywords options)
                         (removeCommentsAndStrings sql)))
            (SetVariant.knownTables options)
            (default false (SetVariant.filterCTEs options))).
Proof. unfold SetVariant.extractTableNames. by rewrite scan_captures. Qed.

Lemma set_classify_complement known (l : list jsstring) :
  filter (λ table, ¬ SetVariant.Set_has table known
                   ∧ ¬ SetVariant.Set_has (tableWithoutSchema table) known) l
  = filter (λ table, ¬ SetVariant.is_known known table) l.
Proof.
  apply list_filter_iff. intros x. unfold SetVariant.is_known.
  destruct (SetVariant.Set_has x known),
    (SetVariant.Set_has (tableWithoutSchema x) known); simpl; tauto.
Qed.

(** X22. The set-based engine splits its result in the same way: with
    [filterCTEs] on and a set of known names, [realTables] and
    [filteredCTEs] are the two complementary filters of [allTables] (a
    name is real when it, or what follows its last dot, is in the set);
    otherwise [realTables] is [allTables] and [filteredCTEs] is empty. *)
Lemma set_partition_invariant sql options :
  set_plain_options options →
  ∃ res, SetVariant.extractTableNames sql options = Some res ∧
    match default false (SetVariant.filterCTEs options),
          SetVariant.knownTables options with
    | true, Some _ =>
        (∀ x, x ∈ allTables res ↔ x ∈ realTables res ∨ x ∈ filteredCTEs res)
        ∧ (∀ x, x ∈ realTables res → x ∉ filteredCTEs res)
        ∧ realTables res `sublist_of` allTables res
        ∧ filteredCTEs res `sublist_of` allTables res
        ∧ realTables res ++ filteredCTEs res ≡ₚ allTables res
    | _, _ => realTables res = allTables res ∧ filteredCTEs res = []
    end.
Proof.
  intros _. rewrite set_extractTableNames_eq. eexists. split; [done|].
  destruct (default false (SetVariant.filterCTEs options)),
    (SetVariant.knownTables options) as [known|]; simpl; try done.
  rewrite set_classify_complement. repeat split.
  - intros Hx. destruct (SetVariant.is_known known x) eqn:E.
    + left. apply list_elem_of_filter. rewrite E. by split.
    + right. apply list_elem_of_filter. rewrite E. split; [by intros []|done].
  - intros [[_ ?]%list_elem_of_filter|[_ ?]%list_elem_of_filter]; done.
  - intros x [Hk _]%list_elem_of_filter [Hn _]%list_elem_of_filter. done.
  - apply sublist_filter.
  - apply sublist_filter.
  - apply filter_app_complement.
Qed.

Lemma set_partition_invariant_witness :
  ∃ res,
    SetVariant.extractTableNames cte_sql
      {| SetVariant.knownTables := Some [str "users"; str "orders"];
         SetVariant.filterCTEs := Some true;
         SetVariant.customKeywords := None;
         SetVariant.databaseType := None;
         SetVariant.keywords := None |} = Some res
    ∧ (∀ x, x ∈ allTables res ↔ x ∈ realTables res ∨ x ∈ filteredCTEs res)
    ∧ (∀ x, x ∈ realTables res → x ∉ filteredCTEs res)
    ∧ realTables res `sublist_of` allTables res
    ∧ filteredCTEs res `sublist_of` allTables res
    ∧ realTables res ++ filteredCTEs res ≡ₚ allTables res.
Proof.
  apply (set_partition_invariant cte_sql
           {| SetVariant.knownTables := Some [str "users"; str "orders"];
              SetVariant.filterCTEs := Some true;
              SetVariant.customKeywords := None;
              SetVariant.databaseType := None;
              SetVariant.keywords := None |}).
  apply Forall_nil_2.
Defined.

Lemma set_allTables_NoDup sql options :
  set_plain_options options →
  ∃ res, SetVariant.extractTableNames sql options = Some res
    ∧ NoDup (allTables res).
Proof.
  intros _. rewrite set_extractTableNames_eq. eexists. split; [done|].
  destruct (default false (SetVariant.filterCTEs options)),
    (SetVariant.knownTables options); apply Set_from_NoDup.
Qed.

Lemma set_empty_keywords_use_defaults sql known filter custom db :
  SetVariant.extractTableNames sql
    {| SetVariant.knownTables := known; SetVariant.filterCTEs := filter;
       SetVariant.customKeywords := custom; SetVariant.databaseType := db;
       SetVariant.keywords := Some [] |}
  = SetVariant.extractTableNames sql
      {| SetVariant.knownTables := known; SetVariant.filterCTEs := filter;
         SetVariant.customKeywords := custom; SetVariant.databaseType := db;
         SetVariant.keywords := None |}.
Proof. done. Qed.

Lemma set_getTableNamesSimple_result sql :
  (∀ known, ∃ res,
      SetVariant.extractTableNames sql
        {| SetVariant.knownTables := Some known;
           SetVariant.filterCTEs := Some true;
           SetVariant.customKeywords := None; SetVariant.databaseType := None;
           SetVariant.keywords := None |} = Some res
      ∧ SetVariant.getTableNamesSimple sql (Some known) = Some (realTables res))
  ∧ (∃ res,
      SetVariant.extractTableNames sql
        {| SetVariant.knownTables := None; SetVariant.filterCTEs := None;
           SetVariant.customKeywords := None; SetVariant.databaseType := None;
           SetVariant.keywords := None |} = Some res
      ∧ SetVariant.getTableNamesSimple sql None = Some (allTables res)).
Proof.
  unfold SetVariant.getTableNamesSimple. split; [intros known|];
    rewrite !set_extractTableNames_eq; by eexists.
Qed.

(** X24. In the set-based engine an empty set of known names is a set
    all the same: [getTableNamesSimple] filters, no name is known, and the
    result is empty. *)
Lemma set_getTableNamesSimple_empty_catalog sql :
  SetVariant.getTableNamesSimple sql (Some []) = Some [].
Proof.
  unfold SetVariant.getTableNamesSimple. rewrite set_extractTableNames_eq.
  f_equal. simpl. apply filter_none. by intros x [].
Qed.

Example set_extract_cte :
  SetVariant.extractTableNames cte_sql
    {| SetVariant.knownTables := Some [str "users"; str "orders"];
       SetVariant.filterCTEs := Some true;
       SetVariant.customKeywords := None;
       SetVariant.databaseType := Some SetVariant.postgresql;
       SetVariant.keywords := None |}
  = Some {| allTables := [str "users"; str "temp"; str "orders"];
            realTables := [str "users"; str "orders"];
            filteredCTEs := [str "temp"] |}.
Proof. by vm_compute. Qed.

(** * The keyword that triggers a match *)

Lemma rmatch_keywordPattern {R} kws st (k : mstate → option R) :
  kws ≠ [] →
  rmatch (keywordPattern kws) st k
  = first_some (λ kw, rmatch (keyword_regex kw) st k) kws.
Proof.
  induction kws as [|kw [|kw' kws] IH]; intros Hne; [done| |].
  - cbn [keywordPattern first_some].
    by destruct (rmatch (keyword_regex kw) st k).
  - change (keywordPattern (kw :: kw' :: kws))
      with (Alt (keyword_regex kw) (keywordPattern (kw' :: kws))).
    cbn [rmatch first_some]. by rewrite IH.
Qed.

Lemma first_some_find {A B} (f : A → option B) l x :
  first_some f l = Some x →
  ∃ i a, list_find (λ a, is_Some (f a)) l = Some (i, a) ∧ f a = Some x.
Proof.
  induction l as [|a l IH]; [done|].
  rewrite list_find_cons. cbn [first_some]. destruct (f a) as [y|] eqn:E.
  - intros [= ->]. exists 0, a. rewrite decide_True by by eexists. done.
  - intros (i & b & Hf & Hb)%IH. exists (S i), b.
    rewrite decide_False by by intros [? ?]. by rewrite Hf.
Qed.

(** ** Classes of characters *)

Lemma is_space_spec c :
  is_space c = true ↔
  ((9 ≤ c ∧ c ≤ 13) ∨ c = 32 ∨ c = 160 ∨ c = 5760 ∨ (8192 ≤ c ∧ c ≤ 8202)
   ∨ c = 8232 ∨ c = 8233 ∨ c = 8239 ∨ c = 8287 ∨ c = 12288 ∨ c = 65279)%N.
Proof.
  unfold is_space.
  rewrite !orb_true_iff, !andb_true_iff, !N.leb_le, !N.eqb_eq. tauto.
Qed.

Lemma is_word_spec c :
  is_word c = true ↔
  ((65 ≤ c ∧ c ≤ 90) ∨ (97 ≤ c ∧ c ≤ 122) ∨ (48 ≤ c ∧ c ≤ 57) ∨ c = 95)%N.
Proof.
  unfold is_word, is_upper, is_lower, is_digit, ch_underscore.
  rewrite !orb_true_iff, !andb_true_iff, !N.leb_le, !N.eqb_eq. tauto.
Qed.

Lemma upper_char_spec c :
  ((97 ≤ c ∧ c ≤ 122) ∧ upper_char c = c - 32
   ∨ ¬ (97 ≤ c ∧ c ≤ 122) ∧ upper_char c = c)%N.
Proof.
  unfold upper_char, is_lower.
  destruct (N.leb_spec 97 c), (N.leb_spec c 122); simpl; lia.
Qed.

Lemma wordy_char_spec c :
  wordy_char c = true ↔ is_word c = true ∨ c = ch_space.
Proof. unfold wordy_char. by rewrite orb_true_iff, N.eqb_eq. Qed.

(** A character that matches a wordy character of a keyword is wordy. *)
Lemma wordy_char_ci d k :
  upper_char d = upper_char k → wordy_char k = true → wordy_char d = true.
Proof.
  rewrite !wordy_char_spec, !is_word_spec. unfold ch_space.
  pose proof (upper_char_spec d). pose proof (upper_char_spec k). lia.
Qed.

Lemma wordy_space d : wordy_char d = true → is_space d = true → d = ch_space.
Proof.
  rewrite wordy_char_spec, is_word_spec, is_space_spec. unfold ch_space. lia.
Qed.

Lemma wordy_nonspace d :
  wordy_char d = true → is_space d = false → is_ident_char d = true.
Proof.
  rewrite wordy_char_spec. intros [Hw| ->] Hs; [|done].
  unfold is_ident_char. by rewrite Hw.
Qed.

Lemma ident_char_not_space c : is_ident_char c = true → is_space c = false.
Proof.
  unfold is_ident_char. rewrite !orb_true_iff, !N.eqb_eq, is_word_spec.
  intros H. apply not_true_iff_false. rewrite is_space_spec.
  unfold ch_at, ch_hash in H. lia.
Qed.

Lemma toUpperCase_wordy w kw :
  toUpperCase w = toUpperCase kw → wordy_keyword kw →
  Forall (λ c, wordy_char c = true) w.
Proof.
  revert kw. induction w as [|d w IH]; intros [|k kw] E Hk; try done.
  injection E as Ed E. inv Hk. constructor; [by eapply wordy_char_ci | eauto].
Qed.

(** The white space a text starts with. *)
Lemma span_space s :
  ∃ z y, s = z ++ y ∧ Forall (λ c, is_space c = true) z
    ∧ (y = [] ∨ ∃ d y', y = d :: y' ∧ is_space d = false).
Proof.
  induction s as [|c s (z & y & -> & Hz & Hy)].
  - exists [], []. by repeat split; [|left].
  - destruct (is_space c) eqn:E.
    + exists (c :: z), y. repeat split; [by constructor | done].
    + exists [], (c :: z ++ y). repeat split; [done|]. right. by eexists _, _.
Qed.

(** ** The shape of an identifier *)

Lemma star_chr_matches p st st' :
  matches (Star (Chr p)) st st' →
  ∃ w, rest st = w ++ rest st' ∧ Forall (λ c, p c = true) w.
Proof.
  intros H. remember (Star (Chr p)) as r eqn:Er.
  induction H as [| | | | | | |r' st|r' st st1 st2 H1 _ _ _ IH|]; try done.
  - by exists [].
  - injection Er as ->. destruct (IH eq_refl) as (w & E & Hw).
    apply chr_matches in H1 as (c & Hc & E1 & _).
    exists (c :: w). rewrite E1, E. split; [done | by constructor].
Qed.

Lemma ident_single_char d i t cp :
  is_ident_char d = true →
  matches re_identifier (MState i (d :: t) cp) (MState (S i) t cp).
Proof.
  intros Hd. unfold re_identifier, re_part.
  eapply M_Seq; [|apply M_StarNil]. do 3 apply M_AltR.
  eapply M_Seq; [by constructor | apply M_StarNil].
Qed.

Lemma quoted_shape open close st st' :
  matches (quoted open close) st st' → ∃ tl, rest st = open :: tl ++ rest st'.
Proof.
  intros H. unfold quoted in H. inv H.
  match goal with M : matches (Lit open) _ _ |- _ =>
    apply chr_matches in M as (q & Hq%N.eqb_eq & Eq & _) end.
  match goal with M : matches (Seq _ _) _ _ |- _ =>
    apply matches_consume in M as (tl & Etl & _) end.
  subst q. exists tl. by rewrite Eq, Etl.
Qed.

Lemma re_part_shape st st' :
  matches re_part st st' →
  (∃ q tl, rest st = q :: tl ++ rest st'
     ∧ (q = ch_lbracket ∨ q = ch_dquote ∨ q = ch_backtick))
  ∨ ∃ c r, rest st = c :: r ++ rest st' ∧ is_ident_char c = true
      ∧ Forall (λ c, is_ident_char c = true) r.
Proof.
  intros H. unfold re_part in H.
  inversion H as [| | | | |? ? ? ? M1|? ? ? ? M1| | |]; subst;
    [apply quoted_shape in M1 as (tl & E); left; eauto 10|].
  inversion M1 as [| | | | |? ? ? ? M2|? ? ? ? M2| | |]; subst;
    [apply quoted_shape in M2 as (tl & E); left; eauto 10|].
  inversion M2 as [| | | | |? ? ? ? M3|? ? ? ? M3| | |]; subst;
    [apply quoted_shape in M3 as (tl & E); left; eauto 10|].
  right. inv M3.
  match goal with M : matches (Chr is_ident_char) _ _ |- _ =>
    apply chr_matches in M as (c & Hc & Ec & _) end.
  match goal with M : matches (Star (Chr is_ident_char)) _ _ |- _ =>
    apply star_chr_matches in M as (r & Er & Hr) end.
  exists c, r. by rewrite Ec, Er.
Qed.

Lemma star_dot_shape st st' :
  matches (Star (Seq (Lit ch_dot) re_part)) st st' →
  ∃ tl, rest st = tl ++ rest st' ∧ (tl = [] ∨ ∃ tl', tl = ch_dot :: tl').
Proof.
  intros H. inversion H as [| | | | | | |? ?|? ? sa sb Mstep _ Mrest|]; subst.
  - exists []. split; [done | by left].
  - apply matches_consume in Mrest as (w2 & E2 & _). inv Mstep.
    match goal with M : matches (Lit _) _ _ |- _ =>
      apply chr_matches in M as (q & Hq%N.eqb_eq & Eq & _) end.
    match goal with M : matches re_part _ _ |- _ =>
      apply matches_consume in M as (w1 & E1 & _) end.
    subst q. exists (ch_dot :: w1 ++ w2). rewrite Eq, E1, E2.
    split; [simpl; by rewrite <- app_assoc | right; by eexists].
Qed.

(** An identifier starts with a quoting character, or with a run of
    identifier characters that ends the identifier or is followed by a
    dot. *)
Lemma ident_shape st st' :
  matches re_identifier st st' →
  ∃ wid, rest st = wid ++ rest st' ∧ idx st' = idx st + length wid
    ∧ ((∃ q tl, wid = q :: tl
          ∧ (q = ch_lbracket ∨ q = ch_dquote ∨ q = ch_backtick))
       ∨ ∃ r tl, wid = r ++ tl ∧ r ≠ []
           ∧ Forall (λ c, is_ident_char c = true) r
           ∧ (tl = [] ∨ ∃ tl', tl = ch_dot :: tl')).
Proof.
  intros H. pose proof (matches_consume _ _ _ H) as (wid & E & I).
  exists wid. do 2 (split; [done|]). unfold re_identifier in H. inv H.
  match goal with M : matches re_part _ _ |- _ =>
    apply re_part_shape in M as [(q & tl & Ep & Hq)|(c & r & Ep & Hc & Hr)] end;
  match goal with M : matches (Star _) _ _ |- _ =>
    apply star_dot_shape in M as (tl2 & Es & Htl2) end;
  rewrite Ep, Es in E.
  - left. exists q, (tl ++ tl2). split; [|done].
    change (q :: tl ++ tl2 ++ rest st') with ((q :: tl) ++ tl2 ++ rest st') in E.
    rewrite app_assoc in E. by apply app_inv_tail in E.
  - right. exists (c :: r), tl2. repeat split; [|done|by constructor|done].
    change (c :: r ++ tl2 ++ rest st') with ((c :: r) ++ tl2 ++ rest st') in E.
    rewrite app_assoc in E. by apply app_inv_tail in E.
Qed.

(** ** One alternative of the table pattern *)

Lemma alternative_parse kw j s st' :
  matches (Seq (keyword_regex kw) tail_regex) (MState j s None) st' →
  ∃ w c wsp x st3,
    s = w ++ c :: wsp ++ x
    ∧ toUpperCase w = toUpperCase kw
    ∧ is_space c = true ∧ Forall (λ c, is_space c = true) wsp
    ∧ matches re_identifier (MState (j + length w + S (length wsp)) x None) st3
    ∧ rest st3 = rest st' ∧ idx st3 = idx st'.
Proof.
  intros H. inv H.
  match goal with M : matches (keyword_regex _) _ _ |- _ =>
    apply keyword_regex_matches in M as (w & Ew & Iw & Cw & Uw) end.
  match goal with M : matches tail_regex _ _ |- _ =>
    unfold tail_regex in M; inv M end.
  match goal with M : matches (Plus ws) ?a ?b |- _ =>
    pose proof (matches_cap _ _ _ M eq_refl) as Cs; inv M end.
  match goal with M : matches ws _ _ |- _ =>
    apply chr_matches in M as (c & Hc & Ec & Ic & _) end.
  match goal with M : matches (Star ws) _ _ |- _ =>
    pose proof (matches_consume _ _ _ M) as (wsp' & Es' & Is);
    apply star_ws_matches in M as (wsp & Es & Hs) end.
  match goal with M : matches (Group _) _ _ |- _ => inv M end.
  match goal with M : matches re_identifier ?a ?b |- _ =>
    rename M into Mi; destruct a as [i2 x cp2] end.
  simpl in *. exists w, c, wsp, x. eexists. subst s.
  assert (wsp' = wsp) as ->.
  { rewrite Es in Es'. by apply app_inv_tail in Es'. }
  repeat split; try done.
  - by rewrite Ec, Es.
  - replace (j + length w + S (length wsp)) with i2 by lia.
    rewrite <- Cw, <- Cs. exact Mi.
Qed.

Lemma alternative_build kw j w c wsp x st3 :
  toUpperCase w = toUpperCase kw →
  is_space c = true → Forall (λ c, is_space c = true) wsp →
  matches re_identifier (MState (j + length w + S (length wsp)) x None) st3 →
  alternative_matches kw j (w ++ c :: wsp ++ x).
Proof.
  intros U Hc Hs Mi. unfold alternative_matches.
  eapply rmatch_complete; [|by eexists].
  eapply M_Seq; [by apply keyword_regex_complete|].
  unfold tail_regex. eapply M_Seq.
  - eapply M_Seq; [by constructor | by apply star_ws_all].
  - replace (S (j + length w) + length wsp)
      with (j + length w + S (length wsp)) by lia.
    apply M_Group. exact Mi.
Qed.

(** In an identifier no white space follows a stretch of word characters
    and spaces that begins the identifier. *)
Lemma ident_no_space_after_wordy st st' k c' tl :
  matches re_identifier st st' →
  rest st = (k ++ c' :: tl) ++ rest st' →
  Forall (λ c, wordy_char c = true) k → is_space c' = true → False.
Proof.
  intros (wid & E & _ & Hshape)%ident_shape E' Hk Hc'.
  rewrite E in E'. apply app_inv_tail in E'. subst wid.
  destruct Hshape as [(q & tl0 & Eq & Hq)|(r & tl0 & Er & Hr & Hri & Htl)].
  - destruct k as [|d k]; simpl in Eq; injection Eq as -> _.
    + by destruct Hq as [->|[->| ->]].
    + inv Hk. by destruct Hq as [->|[->| ->]].
  - apply app_eq_inv in Er as [(k2 & -> & Ek2)|(k2 & -> & Ek2)].
    + destruct Htl as [->|(tl' & ->)].
      * by destruct k2.
      * destruct k2 as [|d k2]; simpl in Ek2; injection Ek2 as <- _; [done|].
        apply Forall_app in Hk as [_ Hk]. by inv Hk.
    + destruct k2 as [|d k2]; simpl in Ek2.
      * destruct Htl as [->|(tl' & ->)]; [done|]. by injection Ek2 as ->.
      * injection Ek2 as <- _. apply Forall_app in Hri as [_ Hri]. inv Hri.
        match goal with X : is_ident_char _ = true |- _ =>
          apply ident_char_not_space in X end. congruence.
Qed.

Lemma alternative_consumed kw j s st' :
  matches (Seq (keyword_regex kw) tail_regex) (MState j s None) st' →
  ∃ w c wsp wid st3,
    s = w ++ c :: wsp ++ wid ++ rest st'
    ∧ take (idx st' - j) s = w ++ c :: wsp ++ wid
    ∧ toUpperCase w = toUpperCase kw
    ∧ is_space c = true ∧ Forall (λ c, is_space c = true) wsp
    ∧ matches re_identifier
        (MState (j + length w + S (length wsp)) (wid ++ rest st') None) st3
    ∧ rest st3 = rest st'.
Proof.
  intros (w & c & wsp & x & st3 & -> & U & Hc & Hs & Mi & Er & Ei)%alternative_parse.
  pose proof (ident_shape _ _ Mi) as (wid & Ex & Ii & _). simpl in Ex, Ii.
  exists w, c, wsp, wid, st3. rewrite Ex, Er in *.
  repeat split; try done.
  replace (idx st' - j) with (length (w ++ c :: wsp ++ wid))
    by (rewrite <- Ei, Ii, !length_app; simpl; rewrite !length_app; lia).
  replace (w ++ c :: wsp ++ wid ++ rest st')
    with ((w ++ c :: wsp ++ wid) ++ rest st')
    by (rewrite <- app_assoc; simpl; by rewrite <- app_assoc).
  apply take_app_length.
Qed.

(** A keyword that is read at the start of [match[0]], before white space,
    is an alternative that matches where the match starts. *)
Lemma alternative_of_prefix kw_a kw_b j s st' w_a c' tl :
  wordy_keyword kw_a → wordy_keyword kw_b →
  matches (Seq (keyword_regex kw_b) tail_regex) (MState j s None) st' →
  take (idx st' - j) s = w_a ++ c' :: tl →
  is_space c' = true → toUpperCase w_a = toUpperCase kw_a →
  alternative_matches kw_a j s.
Proof.
  intros Ha Hb M Em Hc' Ua.
  apply alternative_consumed in M
    as (w & c & wsp & wid & st3 & -> & Et & Ub & Hc & Hs & Mi & Er).
  rewrite Et in Em. clear Et.
  pose proof (toUpperCase_wordy _ _ Ua Ha) as Hwa.
  pose proof (toUpperCase_wordy _ _ Ub Hb) as Hwb.
  apply app_eq_inv in Em as [(k & -> & Ek)|(k & -> & Ek)].
  - destruct k as [|e k1]; simpl in Ek.
    + injection Ek as -> ->. rewrite app_nil_r in *.
      by eapply alternative_build.
    + injection Ek as -> ->.
      destruct (span_space k1) as (z & y & -> & Hz & [->|(d & y' & -> & Hd)]).
      * rewrite app_nil_r in *. rewrite <- app_assoc. simpl.
        replace (z ++ c :: wsp ++ wid ++ rest st')
          with ((z ++ c :: wsp) ++ wid ++ rest st')
          by (by rewrite <- app_assoc).
        eapply alternative_build; try done.
        -- apply Forall_app. split; [done | by constructor].
        -- replace (j + length w_a + S (length (z ++ c :: wsp)))
             with (j + length (w_a ++ e :: z) + S (length wsp))
             by (rewrite !length_app; simpl; lia).
           exact Mi.
      * rewrite <- !app_assoc. simpl. rewrite <- !app_assoc. simpl.
        eapply alternative_build; try done.
        apply ident_single_char, wordy_nonspace; [|done].
        apply Forall_app in Hwb as [_ Hwb]. inv Hwb.
        match goal with X : Forall _ (z ++ _) |- _ =>
          apply Forall_app in X as [_ X]; by inv X end.
  - change (c :: wsp ++ wid) with ((c :: wsp) ++ wid) in Ek.
    apply app_eq_inv in Ek as [(k2 & E1 & E2)|(k2 & -> & E2)].
    + destruct k2 as [|e k3]; simpl in E2.
      * exfalso. subst wid.
        apply (ident_no_space_after_wordy _ _ [] c' tl Mi);
          [simpl; by rewrite Er | constructor | done].
      * injection E2 as -> ->.
        replace (w ++ c :: wsp ++ wid ++ rest st')
          with ((w ++ k) ++ e :: k3 ++ wid ++ rest st').
        2:{ rewrite <- !app_assoc. f_equal.
            change (c :: wsp ++ wid ++ rest st')
              with ((c :: wsp) ++ wid ++ rest st').
            rewrite E1, <- app_assoc. done. }
        eapply alternative_build; try done.
        -- assert (Forall (λ c, is_space c = true) (c :: wsp)) as Hall
             by by constructor.
           rewrite E1 in Hall. apply Forall_app in Hall as [_ Hall]. by inv Hall.
        -- apply (f_equal length) in E1. rewrite length_app in E1. simpl in E1.
           rewrite length_app.
           replace (j + (length w + length k) + S (length k3))
             with (j + length w + S (length wsp)) by lia.
           exact Mi.
    + exfalso. apply Forall_app in Hwa as [_ Hwa].
      apply Forall_app in Hwa as [_ Hwa].
      apply (ident_no_space_after_wordy _ _ k2 c' tl Mi);
        [simpl; by rewrite Er, E2 | done | done].
Qed.

(** The alternative that makes a match is the first keyword of the list
    that can. *)
Lemma match_here_triggering kws j s mt :
  kws ≠ [] → match_here (table_regex kws) j s = Some mt →
  ∃ ib kw st',
    list_find (λ kw, alternative_matches kw j s) kws = Some (ib, kw)
    ∧ matches (Seq (keyword_regex kw) tail_regex) (MState j s None) st'
    ∧ m_0 mt = take (idx st' - j) s.
Proof.
  intros Hne. unfold match_here.
  destruct (rmatch (table_regex kws) (MState j s None) Some) as [st'|] eqn:E;
    [|done].
  intros [= <-].
  change (rmatch (keywordPattern kws) (MState j s None)
            (λ st1, rmatch tail_regex st1 Some) = Some st') in E.
  rewrite rmatch_keywordPattern in E by done.
  apply first_some_find in E as (ib & kw & Hf & Hkw).
  exists ib, kw, st'. split; [exact Hf|]. split; [|done].
  apply (rmatch_sound (Seq (keyword_regex kw) tail_regex)) in Hkw
    as (st1 & M & [= ->]). done.
Qed.

Lemma rmatch_keyword_prefix {R} kws m0 (k : mstate → option R) :
  kws ≠ [] →
  rmatch (keyword_prefix_regex kws) (MState 0 m0 None) k
  = first_some
      (λ kw, rmatch (keyword_prefix_regex [kw]) (MState 0 m0 None) k) kws.
Proof.
  intros Hne. unfold keyword_prefix_regex. cbn [rmatch idx Nat.eqb].
  by rewrite rmatch_keywordPattern.
Qed.

Lemma first_some_elem {A B} (f : A → option B) l a :
  a ∈ l → is_Some (f a) → is_Some (first_some f l).
Proof.
  induction l as [|b l IH]; [by intros ?%elem_of_nil|].
  intros [->|Hin]%elem_of_cons Ha; cbn [first_some].
  - by destruct Ha as [y ->].
  - destruct (f b); [by eexists | by apply IH].
Qed.

Lemma prefix_match_first kws m0 km :
  kws ≠ [] → match_here (keyword_prefix_regex kws) 0 m0 = Some km →
  ∃ ia kw w c tl,
    list_find
      (λ kw, is_Some (rmatch (keyword_prefix_regex [kw]) (MState 0 m0 None) Some))
      kws = Some (ia, kw)
    ∧ m0 = w ++ c :: tl ∧ is_space c = true
    ∧ toUpperCase w = toUpperCase kw ∧ group1 km = w.
Proof.
  intros Hne. unfold match_here.
  destruct (rmatch (keyword_prefix_regex kws) (MState 0 m0 None) Some)
    as [st'|] eqn:E; [|done].
  intros [= <-].
  rewrite rmatch_keyword_prefix in E by done.
  apply first_some_find in E as (ia & kw & Hf & Hkw).
  apply rmatch_sound in Hkw as (st1 & M & [= ->]).
  apply keyword_prefix_shape in M as (w & c & tl & -> & Hc & Hcap & Hk).
  destruct Hk as [[? _]|(kw' & Hin%list_elem_of_singleton & U)]; [done|].
  subst kw'. exists ia, kw, w, c, tl. split; [exact Hf|].
  unfold group1. simpl. by rewrite Hcap.
Qed.

(** The keyword that made the match is read at the start of [match[0]]. *)
Lemma prefix_of_alternative kw j s st' :
  matches (Seq (keyword_regex kw) tail_regex) (MState j s None) st' →
  is_Some (rmatch (keyword_prefix_regex [kw])
             (MState 0 (take (idx st' - j) s) None) Some).
Proof.
  intros (w & c & wsp & wid & st3 & _ & -> & U & Hc & _)%alternative_consumed.
  eapply rmatch_complete; [|by eexists].
  eapply M_Seq; [by constructor|]. eapply M_Seq.
  - apply M_Group.
    apply (keyword_regex_complete kw w 0 (c :: wsp ++ wid) None U).
  - by apply plus_ws_one.
Qed.

(** With keywords made of word characters and spaces, the keyword the loop
    reads off a match is the keyword that triggered the match. *)
Lemma keyword_of_triggering kws i s mt :
  kws ≠ [] → Forall wordy_keyword kws →
  exec_from (table_regex kws) i s = Some mt →
  ∃ kw, triggering_keyword kws (m_index mt) (m_0 mt ++ m_after mt) = Some kw
    ∧ keyword_of kws mt = Some (toUpperCase kw).
Proof.
  intros Hne Hw (pre & s' & -> & Hi & Hm)%exec_from_Some.
  destruct (match_here_split _ _ _ _ Hm) as [_ Hs]. rewrite <- Hs, Hi.
  destruct (match_here_triggering _ _ _ _ Hne Hm)
    as (ib & kw_b & st' & Hfb & Mb & Em).
  unfold triggering_keyword. rewrite Hfb. exists kw_b. split; [done|].
  pose proof (prefix_of_alternative _ _ _ _ Mb) as Pb. rewrite <- Em in Pb.
  apply list_find_Some in Hfb as (Hlb & _ & Hminb).
  assert (is_Some (match_here (keyword_prefix_regex kws) 0 (m_0 mt)))
    as [km Hkm].
  { unfold match_here. rewrite rmatch_keyword_prefix by done.
    destruct (first_some_elem
                (λ kw, rmatch (keyword_prefix_regex [kw])
                         (MState 0 (m_0 mt) None) Some) kws kw_b)
      as [st1 ->]; [by eapply list_elem_of_lookup_2 | done | by eexists]. }
  unfold keyword_of, exec. rewrite (exec_from_here _ _ _ _ Hkm).
  destruct (prefix_match_first _ _ _ Hne Hkm)
    as (ia & kw_a & w & c & tl & Hfa & E0 & Hc & U & ->).
  apply list_find_Some in Hfa as (Hla & _ & Hmina).
  assert (alternative_matches kw_a (i + length pre) s') as Pa.
  { apply (alternative_of_prefix kw_a kw_b _ _ st' w c tl); try done.
    - exact (Forall_lookup_1 _ _ _ _ Hw Hla).
    - exact (Forall_lookup_1 _ _ _ _ Hw Hlb).
    - by rewrite <- Em. }
  assert (ia = ib) as ->.
  { destruct (Nat.lt_trichotomy ia ib) as [Hlt|[?|Hlt]]; [|done|].
    - by destruct (Hminb _ _ Hla Hlt).
    - by destruct (Hmina _ _ Hlb Hlt). }
  rewrite Hla in Hlb. injection Hlb as <-. by rewrite U.
Qed.

Lemma defaultSqlKeywords_wordy : Forall wordy_keyword defaultSqlKeywords_default.
Proof.
  apply (bool_decide_unpack
           (Forall (λ kw, Forall (λ c, wordy_char c = true) kw)
              defaultSqlKeywords_default)).
  by vm_compute.
Qed.

(** * Function calls and the keyword read off the match *)

(** X23. With keywords that are plain phrases, a match whose identifier
    is followed, white space apart, by an opening parenthesis starts with
    a keyword of the list followed by white space; the loop reads that
    keyword off the match, and it drops the capture exactly when the
    keyword read, in upper case, is [FROM], contains [JOIN], or is
    [USING]. With any other keyword read ([INTO], [UPDATE], [MERGE INTO],
    ...) the cleaned and resolved capture is added to the set. When the
    keywords are made of word characters and spaces, as those of the
    configuration are, the keyword read is the keyword that triggered the
    match. In the scenario, [generate_series] is left out and [users] is
    kept; the target of an [INSERT INTO] followed by a column list is
    kept. *)
Theorem function_call_suppression :
  (∀ (sql : jsstring) (options : TableExtractionOptions) (mt : MatchResult),
     let kws := effective_keywords options in
     plain_options options →
     mt ∈ matches_of kws (removeCommentsAndStrings sql) →
     (∃ sp t, m_after mt = sp ++ ch_lparen :: t
              ∧ Forall (λ c, is_space c = true) sp) →
     ∃ kw w c tail ident,
       kw ∈ kws
       ∧ (Forall wordy_keyword kws →
          triggering_keyword kws (m_index mt) (m_0 mt ++ m_after mt) = Some kw)
       ∧ m_0 mt = w ++ c :: tail ∧ is_space c = true
       ∧ toUpperCase w = toUpperCase kw
       ∧ keyword_of kws mt = Some (toUpperCase kw)
       ∧ m_1 mt = Some ident ∧ ident ≠ []
       ∧ (skipped kws mt = true ↔
            toUpperCase kw = str "FROM"
            ∨ includes (str "JOIN") (toUpperCase kw) = true
            ∨ toUpperCase kw = str "USING")
       ∧ ∀ resolve tables,
           scan_body resolve kws mt tables
           = if skipped kws mt then tables
             else Set_add (resolve (cleanTableName ident)) tables)
  ∧ Forall wordy_keyword (effective_keywords no_options)
  ∧ isFunctionContext (str "INTO") = false
  ∧ isFunctionContext (str "UPDATE") = false
  ∧ isFunctionContext (str "MERGE INTO") = false
  ∧ allTables <$> extractTableNames generate_series_sql no_options
    = Some [str "users"]
  ∧ allTables <$> extractTableNames
      (str "INSERT INTO audit_log (id) SELECT id FROM users") no_options
    = Some [str "audit_log"; str "users"].
Proof.
  split; [|split; [exact defaultSqlKeywords_wordy | by vm_compute]].
  intros sql options mt kws _ Hin Hfun%isFunction_spec.
  apply scan_matches_elem in Hin as (i & s & Hex).
  destruct (keyword_of_table _ _ _ _ Hex) as (w & c & tail & E0 & Hc & Hkw & Hk).
  pose proof (effective_keywords_nonempty options) as Hne. fold kws in Hne.
  assert (∃ kw, kw ∈ kws ∧ toUpperCase w = toUpperCase kw
            ∧ (Forall wordy_keyword kws →
               triggering_keyword kws (m_index mt) (m_0 mt ++ m_after mt)
               = Some kw)) as (kw & Hkin & U & Htrig).
  { destruct (decide (Forall (λ kw, Forall (λ c, wordy_char c = true) kw) kws))
      as [Hw|Hnw].
    - destruct (keyword_of_triggering _ _ _ _ Hne Hw Hex) as (kw & Ht & Hk2).
      exists kw. split; [|split; [congruence | done]].
      unfold triggering_keyword in Ht.
      destruct (list_find _ kws) as [[n kw']|] eqn:Ef; [|done].
      injection Ht as ->. apply list_find_Some in Ef as (Hl & _).
      by eapply list_elem_of_lookup_2.
    - destruct Hk as [[Hnil _]|(kw & Hkin & U)]; [done|].
      by exists kw. }
  apply exec_from_Some in Hex as (pre & s' & _ & _ & Hm).
  apply match_here_table in Hm as (_ & _ & _ & ident & _ & _ & _ & H1 & Hni & _).
  exists kw, w, c, tail, ident. rewrite <- U.
  assert (skipped kws mt = isFunctionContext (toUpperCase w)) as Hsk.
  { unfold skipped. by rewrite Hfun, Hkw. }
  repeat split; try done.
  - rewrite Hsk. unfold isFunctionContext, str_eqb.
    rewrite !orb_true_iff, !bool_decide_eq_true. tauto.
  - rewrite Hsk. unfold isFunctionContext, str_eqb.
    rewrite !orb_true_iff, !bool_decide_eq_true. tauto.
  - intros resolve tables. unfold scan_body. rewrite H1.
    by destruct ident.
Qed.

(** X23 at the match on [FROM generate_series] of the scenario. *)
Lemma function_call_suppression_witness :
  ∃ kw w c tail ident,
    kw ∈ effective_keywords no_options
    ∧ (Forall wordy_keyword (effective_keywords no_options) →
       triggering_keyword (effective_keywords no_options)
         (m_index generate_series_match)
         (m_0 generate_series_match ++ m_after generate_series_match)
       = Some kw)
    ∧ m_0 generate_series_match = w ++ c :: tail ∧ is_space c = true
    ∧ toUpperCase w = toUpperCase kw
    ∧ keyword_of (effective_keywords no_options) generate_series_match
      = Some (toUpperCase kw)
    ∧ m_1 generate_series_match = Some ident ∧ ident ≠ []
    ∧ (skipped (effective_keywords no_options) generate_series_match = true ↔
         toUpperCase kw = str "FROM"
         ∨ includes (str "JOIN") (toUpperCase kw) = true
         ∨ toUpperCase kw = str "USING")
    ∧ ∀ resolve tables,
        scan_body resolve (effective_keywords no_options) generate_series_match tables
        = if skipped (effective_keywords no_options) generate_series_match
          then tables
          else Set_add (resolve (cleanTableName ident)) tables.
Proof.
  apply (proj1 function_call_suppression generate_series_sql no_options
           generate_series_match).
  - apply (bool_decide_unpack _). by vm_compute.
  - vm_compute. left.
  - exists [], (str "1,100) t JOIN users u ON t.id=u.id").
    split; [reflexivity | constructor].
Defined.

(** C7, the code at a function call after [FROM] when another keyword of
    the list is read at the start of the match. In
    [quoted_keyword_options] the first keyword is [FROM], a space, a
    double quote and [a]; the second is [FROM]; both are plain phrases.
    The one match of [quoted_keyword_sql] is triggered by [FROM], since
    no identifier starts at the exclamation mark, and its identifier is
    followed by an opening parenthesis. The loop reads the first keyword
    at the start of the matched text, finds no table-source role, and
    keeps the capture; with [FROM] as the only keyword the capture is
    dropped. *)
Theorem function_call_kept_after_from :
  plain_options quoted_keyword_options
  ∧ matches_of (effective_keywords quoted_keyword_options)
      (removeCommentsAndStrings quoted_keyword_sql)
    = [quoted_keyword_match]
  ∧ triggering_keyword (effective_keywords quoted_keyword_options) 9
      (m_0 quoted_keyword_match ++ m_after quoted_keyword_match)
    = Some (str "FROM")
  ∧ isFunctionContext (str "FROM") = true
  ∧ isFunction quoted_keyword_match = true
  ∧ keyword_of (effective_keywords quoted_keyword_options) quoted_keyword_match
    = Some (str "FROM " ++ ch_dquote :: str "A")
  ∧ skipped (effective_keywords quoted_keyword_options) quoted_keyword_match = false
  ∧ allTables <$> extractTableNames quoted_keyword_sql quoted_keyword_options
    = Some [str "a ! b"]
  ∧ allTables <$> extractTableNames quoted_keyword_sql
      {| knownTables := None; filterCTEs := None; customKeywords := None;
         keywords := Some [str "FROM"] |}
    = Some [].
Proof.
  split; [apply (bool_decide_unpack _); by vm_compute|]. by vm_compute.
Qed.

(** * Known names and resolution *)

Lemma isKnownTable_spec name (known : list (jsstring * TableMetadata)) :
  isKnownTable name known = true ↔
  ∃ e, e ∈ known ∧ (e.1 = name ∨ tableName e.2 = tableWithoutSchema name
                     ∨ fullyQualifiedName e.2 = name).
Proof.
  unfold isKnownTable. rewrite existsb_exists. unfold str_eqb. split.
  - intros ([key md] & Hin%list_elem_of_In & H). exists (key, md). split; [done|].
    rewrite !orb_true_iff, !bool_decide_eq_true in H. simpl. tauto.
  - intros ([key md] & Hin%list_elem_of_In & H). exists (key, md). split; [done|].
    rewrite !orb_true_iff, !bool_decide_eq_true. simpl in H. tauto.
Qed.

Lemma isKnownTable_fqn (e : jsstring * TableMetadata) known :
  e ∈ known → isKnownTable (fullyQualifiedName e.2) known = true.
Proof. intros Hin. apply isKnownTable_spec. exists e. auto. Qed.

Lemma resolveTableName_cases name (known : list (jsstring * TableMetadata)) :
  (isKnownTable name known = true
   ∧ ∃ e, e ∈ known ∧ resolveTableName name (Some known) = fullyQualifiedName e.2)
  ∨ (isKnownTable name known = false ∧ resolveTableName name (Some known) = name).
Proof.
  unfold resolveTableName. rewrite Map_get_find.
  destruct (list_find (λ e, e.1 = name) known) as [[i e]|] eqn:E.
  - apply list_find_Some in E as (Hl%list_elem_of_lookup_2 & He & _). left. split.
    + apply isKnownTable_spec. exists e. auto.
    + by exists e.
  - simpl. rewrite resolve_loop_find by done.
    destruct (list_find (λ e, tableName e.2 = _ ∨ _) known) as [[i e]|] eqn:E2.
    + apply list_find_Some in E2 as (Hl%list_elem_of_lookup_2 & He & _). left. split.
      * apply isKnownTable_spec. exists e. tauto.
      * by exists e.
    + right. split; [|done]. apply not_true_is_false.
      intros (e & Hin & He)%isKnownTable_spec.
      apply list_find_None in E, E2. rewrite Forall_forall in E, E2.
      specialize (E _ Hin). specialize (E2 _ Hin). simpl in *. tauto.
Qed.

(** ** Insertion-ordered sets *)

Lemma Set_into_split l : ∀ s t,
  Set_into (s ++ t) l = s ++ Set_into t (filter (λ x, x ∉ s) l).
Proof.
  induction l as [|x l IH]; intros s t; [done|].
  cbn [Set_into foldl]. fold (Set_into (Set_add x (s ++ t)) l).
  rewrite filter_cons. unfold Set_add at 1.
  destruct (decide (x ∈ s)) as [Hs|Hs].
  - rewrite decide_True by (apply elem_of_app; auto).
    rewrite decide_False by (by intros ?). apply IH.
  - rewrite (decide_True (P := x ∉ s)) by done.
    cbn [Set_into foldl]. fold (Set_into (Set_add x t) (filter (λ x, x ∉ s) l)).
    unfold Set_add. destruct (decide (x ∈ t)) as [Ht|Ht].
    + rewrite decide_True by (apply elem_of_app; auto). apply IH.
    + rewrite decide_False by (rewrite elem_of_app; tauto).
      rewrite <- app_assoc. apply IH.
Qed.

Lemma Set_into_new s l : Set_into s l = s ++ Set_from (filter (λ x, x ∉ s) l).
Proof. rewrite <- (app_nil_r s) at 1. apply Set_into_split. Qed.

Lemma Set_from_cons x l :
  Set_from (x :: l) = x :: Set_from (filter (λ y, y ≠ x) l).
Proof.
  change (Set_from (x :: l)) with (Set_into [x] l). rewrite Set_into_new.
  simpl. do 2 f_equal. apply list_filter_iff. intros y.
  rewrite list_elem_of_singleton. done.
Qed.

Lemma filter_Set_into (P : jsstring → Prop) `{!∀ x, Decision (P x)} l : ∀ s,
  filter P (Set_into s l) = Set_into (filter P s) (filter P l).
Proof.
  induction l as [|x l IH]; intros s; [done|].
  cbn [Set_into foldl]. fold (Set_into (Set_add x s) l). rewrite IH, filter_cons.
  assert (filter P (Set_add x s)
          = if decide (P x) then Set_add x (filter P s) else filter P s) as ->.
  { unfold Set_add. destruct (decide (x ∈ s)) as [Hs|Hs].
    - destruct (decide (P x)); [|done].
      by rewrite decide_True by (by apply list_elem_of_filter).
    - rewrite filter_app, filter_cons, filter_nil.
      destruct (decide (P x)); [|by rewrite app_nil_r].
      by rewrite decide_False by (rewrite list_elem_of_filter; tauto). }
  by destruct (decide (P x)).
Qed.

Lemma filter_Set_from (P : jsstring → Prop) `{!∀ x, Decision (P x)} l :
  filter P (Set_from l) = Set_from (filter P l).
Proof. apply (filter_Set_into P l []). Qed.

Lemma filter_map_pre {A B} (f : A → B) (P : B → Prop) `{!∀ y, Decision (P y)} l :
  filter P (map f l) = map f (filter (λ x, P (f x)) l).
Proof.
  induction l as [|x l IH]; [done|]. cbn [map]. rewrite !filter_cons, IH.
  by destruct (decide (P (f x))).
Qed.

(** Removing duplicates before a renaming changes nothing once the
    duplicates are removed after it. *)
Lemma Set_from_map (f : jsstring → jsstring) l :
  Set_from (map f (Set_from l)) = Set_from (map f l).
Proof.
  induction l as [l IH] using (induction_ltof1 _ length). unfold ltof in IH.
  destruct l as [|x l]; [done|].
  rewrite Set_from_cons. cbn [map]. rewrite !Set_from_cons. f_equal.
  rewrite !(filter_map_pre f (λ y, y ≠ f x)).
  rewrite (filter_Set_from (λ y, f y ≠ f x)).
  rewrite list_filter_filter.
  rewrite (list_filter_iff _ (λ y, f y ≠ f x)) by (intros y; simpl; intuition congruence).
  apply IH. simpl. pose proof (length_filter (λ y, f y ≠ f x) l). lia.
Qed.

(** ** Captures with and without resolution *)

Lemma captures_map resolve kws cleanSql :
  captures resolve kws cleanSql = map resolve (captures (λ name, name) kws cleanSql).
Proof.
  unfold captures. induction (matches_of kws cleanSql) as [|mt ms IH]; [done|].
  cbn [omap list_omap]. fold (omap (captured resolve kws) ms).
  fold (omap (captured (λ name, name) kws) ms). rewrite IH.
  unfold captured. destruct (m_1 mt) as [[|c t]|]; try done.
  by destruct (skipped kws mt).
Qed.

(** X1. Resolution against a catalog gives the [fullyQualifiedName] of a
    catalog entry if and only if [isKnownTable] accepts the name; a name
    that [isKnownTable] rejects is given back unchanged. (A known name may
    come back unchanged too: the qualified name of its entry can be the
    name itself.) *)
Theorem resolveTableName_known_or_unchanged (name : jsstring)
    (known : list (jsstring * TableMetadata)) :
  ((∃ e, e ∈ known ∧ resolveTableName name (Some known) = fullyQualifiedName e.2)
   ↔ isKnownTable name known = true)
  ∧ (isKnownTable name known = false → resolveTableName name (Some known) = name).
Proof.
  destruct (resolveTableName_cases name known) as [[Hk He]|[Hk E]].
  - split; [done|]. rewrite Hk. done.
  - split; [|done]. split; [|by rewrite Hk].
    intros (e & Hin & Ee). rewrite E in Ee. rewrite Ee.
    by apply isKnownTable_fqn.
Qed.

(** X2. Resolution does not change whether a name is known: the resolved
    name passes [isKnownTable] if and only if the name did. *)
Theorem isKnownTable_resolveTableName (name : jsstring)
    (known : list (jsstring * TableMetadata)) :
  isKnownTable (resolveTableName name (Some known)) known = isKnownTable name known.
Proof.
  destruct (resolveTableName_cases name known)
    as [[Hk (e & Hin & ->)]|[Hk ->]]; [|done].
  rewrite Hk. by apply isKnownTable_fqn.
Qed.

(** X3. A catalog acts on the list of tables only by renaming: the
    [allTables] of a call with a catalog is the [allTables] of the same
    call without one, every name resolved, duplicates removed (the first
    occurrence of a resolved name stays). *)
Theorem allTables_with_catalog (sql : jsstring)
    (known : list (jsstring * TableMetadata)) (filter : option bool)
    (custom kws : option (list jsstring)) :
  Forall plain_keyword (default [] kws ++ default [] custom) →
  ∃ res res0,
    extractTableNames sql
      {| knownTables := Some known; filterCTEs := filter;
         customKeywords := custom; keywords := kws |} = Some res
    ∧ extractTableNames sql
        {| knownTables := None; filterCTEs := filter;
           customKeywords := custom; keywords := kws |} = Some res0
    ∧ allTables res
      = Set_from (map (λ name, resolveTableName name (Some known)) (allTables res0)).
Proof.
  intros _.
  rewrite !extractTableNames_eq. eexists _, _. split; [done|]. split; [done|].
  assert (∀ l k b, allTables (classify l k b) = l) as Hall.
  { intros l [k|] [|]; done. }
  rewrite !Hall. cbn [knownTables].
  rewrite (captures_map (λ name, resolveTableName name (Some known))).
  by rewrite Set_from_map.
Qed.

Lemma allTables_with_catalog_witness :
  ∃ res res0,
    extractTableNames (str "SELECT * FROM dbo.users u JOIN users v ON u.id = v.id")
      {| knownTables := Some users_catalog; filterCTEs := None;
         customKeywords := None; keywords := None |} = Some res
    ∧ extractTableNames (str "SELECT * FROM dbo.users u JOIN users v ON u.id = v.id")
        {| knownTables := None; filterCTEs := None;
           customKeywords := None; keywords := None |} = Some res0
    ∧ allTables res
      = Set_from (map (λ name, resolveTableName name (Some users_catalog))
                    (allTables res0)).
Proof.
  apply (allTables_with_catalog
           (str "SELECT * FROM dbo.users u JOIN users v ON u.id = v.id")
           users_catalog None None None).
  apply Forall_nil_2.
Defined.

(** X4. With a catalog and [filterCTEs] on, every name of [realTables] is
    the [fullyQualifiedName] of a catalog entry, and every name of
    [filteredCTEs] is a name the query yields without a catalog, left as
    it was captured, that no entry matches by key, by [tableName] or by
    [fullyQualifiedName]. *)
Theorem realTables_are_catalog_names (sql : jsstring)
    (known : list (jsstring * TableMetadata))
    (custom kws : option (list jsstring)) :
  Forall plain_keyword (default [] kws ++ default [] custom) →
  ∃ res res0,
    extractTableNames sql
      {| knownTables := Some known; filterCTEs := Some true;
         customKeywords := custom; keywords := kws |} = Some res
    ∧ extractTableNames sql
        {| knownTables := None; filterCTEs := None;
           customKeywords := custom; keywords := kws |} = Some res0
    ∧ Forall (λ x, ∃ e, e ∈ known ∧ x = fullyQualifiedName e.2) (realTables res)
    ∧ Forall (λ x, x ∈ allTables res0
                   ∧ Forall (λ e, e.1 ≠ x ∧ tableName e.2 ≠ tableWithoutSchema x
                                  ∧ fullyQualifiedName e.2 ≠ x) known)
        (filteredCTEs res).
Proof.
  intros _.
  rewrite !extractTableNames_eq. eexists _, _. split; [done|]. split; [done|].
  cbn [knownTables filterCTEs default classify realTables filteredCTEs allTables].
  rewrite (captures_map (λ name, resolveTableName name (Some known))).
  replace (captures (λ name, resolveTableName name None)) with (captures (λ name, name)) by done.
  set (cs := captures (λ name, name) _ _).
  split; apply Forall_forall; intros x [Hk Hx]%list_elem_of_filter;
    apply Set_from_elem, list_elem_of_fmap in Hx as (n & -> & Hn).
  - apply Is_true_true in Hk.
    destruct (resolveTableName_cases n known)
      as [[_ (e & Hin & ->)]|[Hn0 E]]; [by exists e|].
    rewrite E in Hk. congruence.
  - apply Is_true_false in Hk.
    destruct (resolveTableName_cases n known)
      as [[_ (e & Hin & E)]|[Hn0 E]].
    + rewrite E in Hk. rewrite isKnownTable_fqn in Hk; done.
    + rewrite E. split; [by apply Set_from_elem|].
      apply Forall_forall. intros e Hin.
      assert (¬ (e.1 = n ∨ tableName e.2 = tableWithoutSchema n
                 ∨ fullyQualifiedName e.2 = n)) as Hno; [|tauto].
      intros He. apply not_true_iff_false in Hn0. apply Hn0.
      apply isKnownTable_spec. eauto.
Qed.

Lemma realTables_are_catalog_names_witness :
  ∃ res res0,
    extractTableNames cte_sql
      {| knownTables := Some users_catalog; filterCTEs := Some true;
         customKeywords := None; keywords := None |} = Some res
    ∧ extractTableNames cte_sql
        {| knownTables := None; filterCTEs := None;
           customKeywords := None; keywords := None |} = Some res0
    ∧ Forall (λ x, ∃ e, e ∈ users_catalog ∧ x = fullyQualifiedName e.2)
        (realTables res)
    ∧ Forall (λ x, x ∈ allTables res0
                   ∧ Forall (λ e, e.1 ≠ x ∧ tableName e.2 ≠ tableWithoutSchema x
                                  ∧ fullyQualifiedName e.2 ≠ x) users_catalog)
        (filteredCTEs res).
Proof.
  apply (realTables_are_catalog_names cte_sql users_catalog None None).
  apply Forall_nil_2.
Defined.

(** * The scrubber: what its output looks like *)

Lemma trim_end_last s c : last (trim_end s) = Some c → is_space c = false.
Proof.
  induction s as [|d s IH]; simpl; [done|].
  destruct (trim_end s) as [|e u] eqn:Eu.
  - destruct (is_space d) eqn:E; simpl; [done|]. by intros [= <-].
  - rewrite last_cons. destruct (last (e :: u)) eqn:El; [|by apply last_None in El].
    intros [= <-]. by apply IH.
Qed.

Lemma single_spaced_spaces s :
  single_spaced s = true →
  Forall (λ c, is_space c = true → c = ch_space) s
  ∧ includes [ch_space; ch_space] s = false.
Proof.
  induction s as [|c s IH]; [done|]. cbn [single_spaced includes starts_with].
  intros [Hc Hs]%andb_prop. destruct (IH Hs) as [IH1 IH2]. split.
  - constructor; [|done]. intros E. rewrite E in Hc.
    by apply andb_prop in Hc as [->%N.eqb_eq _].
  - rewrite IH2, orb_false_r. destruct (N.eqb_spec ch_space c) as [<-|]; [|done].
    change (is_space ch_space) with true in Hc. cbn [andb] in Hc.
    rewrite N.eqb_refl in Hc. apply negb_true_iff in Hc.
    destruct s as [|d s]; [done|]. cbn [starts_with_space starts_with] in *.
    destruct (N.eqb_spec ch_space d) as [<-|]; done.
Qed.

Lemma normalize_ws_single_spaced s : single_spaced (normalize_ws s) = true.
Proof.
  rewrite normalize_ws_collapse.
  apply single_spaced_trim_end, single_spaced_trim_start, collapse_single_spaced.
Qed.

Lemma normalize_ws_ends s :
  starts_with_space (normalize_ws s) = false
  ∧ ∀ c, last (normalize_ws s) = Some c → is_space c = false.
Proof.
  rewrite normalize_ws_collapse. split.
  - apply trim_end_head, trim_start_head.
  - apply trim_end_last.
Qed.

(** The characters of the output. *)
Lemma Forall_collapse (P : N → Prop) s : ∀ b,
  P ch_space → Forall P s → Forall P (collapse b s).
Proof.
  induction s as [|c s IH]; intros b Hsp Hs; simpl; [done|]. inv Hs.
  destruct (is_space c); [destruct b|]; auto.
Qed.

Lemma Forall_trim_start (P : N → Prop) s : Forall P s → Forall P (trim_start s).
Proof.
  induction s as [|c s IH]; simpl; [done|]. intros Hs. inv Hs.
  destruct (is_space c); auto.
Qed.

Lemma Forall_trim_end (P : N → Prop) s : Forall P s → Forall P (trim_end s).
Proof.
  induction s as [|c s IH]; simpl; [done|]. intros Hs. inv Hs.
  destruct (trim_end s) eqn:E; [destruct (is_space c)|]; auto.
Qed.

Lemma Forall_normalize_ws (P : N → Prop) s :
  P ch_space → Forall P s → Forall P (normalize_ws s).
Proof.
  intros. rewrite normalize_ws_collapse.
  by apply Forall_trim_end, Forall_trim_start, Forall_collapse.
Qed.

Lemma collapse_length s : ∀ b, length (collapse b s) ≤ length s.
Proof.
  induction s as [|c s IH]; intros b; simpl; [done|].
  pose proof (IH true). pose proof (IH false).
  destruct (is_space c); [destruct b|]; simpl; lia.
Qed.

Lemma trim_end_length s : length (trim_end s) ≤ length s.
Proof.
  induction s as [|c s IH]; simpl; [done|].
  destruct (trim_end s); [destruct (is_space c)|]; simpl in *; lia.
Qed.

Lemma normalize_ws_length s : length (normalize_ws s) ≤ length s.
Proof.
  rewrite normalize_ws_collapse. unfold trim.
  pose proof (trim_end_length (trim_start (collapse false s))).
  pose proof (trim_start_length (collapse false s)).
  pose proof (collapse_length s false). lia.
Qed.

Lemma skip_line_suffix s : skip_line s `suffix_of` s.
Proof.
  induction s as [|c s IH]; simpl; [done|].
  destruct (c =? ch_lf)%N; [done | by apply suffix_cons_r].
Qed.

Lemma skip_block_suffix s : skip_block s `suffix_of` s.
Proof.
  induction s as [|a s IH]; simpl; [done|]. destruct s as [|b t]; [done|].
  destruct ((a =? ch_star)%N && (b =? ch_slash)%N).
  - by do 2 apply suffix_cons_r.
  - by apply suffix_cons_r.
Qed.

Lemma skip_squote_suffix s : skip_squote s `suffix_of` s.
Proof.
  induction s as [s IH] using (induction_ltof1 _ length). unfold ltof in IH.
  destruct s as [|c t]; simpl; [done|].
  destruct (c =? ch_squote)%N.
  - destruct t as [|c2 t2]; [by apply suffix_cons_r|].
    destruct (c2 =? ch_squote)%N; [|by apply suffix_cons_r].
    do 2 apply suffix_cons_r. apply IH. simpl. lia.
  - apply suffix_cons_r, IH. simpl. lia.
Qed.

Lemma skip_dquote_suffix s : skip_dquote s `suffix_of` s.
Proof.
  induction s as [|c s IH]; simpl; [done|].
  destruct (c =? ch_dquote)%N; by apply suffix_cons_r.
Qed.

(** What one round of the loop does: it moves on to a later place of the
    text, and it writes nothing, a space, or the character it stands on,
    which is then not a single quote. *)
Lemma scrub_step_emits c tl out :
  ∃ w, (scrub_step (c :: tl) out).2 = out ++ w
    ∧ (w = [] ∨ w = [ch_space] ∨ w = [c] ∧ c ≠ ch_squote)
    ∧ (scrub_step (c :: tl) out).1 `suffix_of` tl
    ∧ length w + length (scrub_step (c :: tl) out).1 ≤ length (c :: tl).
Proof.
  unfold scrub_step.
  destruct ((c =? ch_minus)%N && _) eqn:E1.
  { exists []. rewrite app_nil_r. cbn [fst snd]. repeat split; [auto| |].
    - apply andb_prop in E1 as [->%N.eqb_eq _]. cbn [skip_line].
      change (ch_minus =? ch_lf)%N with false. cbn iota. apply skip_line_suffix.
    - pose proof (skip_line_length (c :: tl)). simpl in *. lia. }
  destruct ((c =? ch_slash)%N && _) eqn:E2.
  { exists []. rewrite app_nil_r. cbn [fst snd]. repeat split; [auto| |].
    - etrans; [apply skip_block_suffix|]. cbn [drop]. apply suffix_drop.
    - pose proof (skip_block_length (drop 2 (c :: tl))).
      pose proof (length_drop (c :: tl) 2). simpl in *. lia. }
  destruct (N.eqb_spec c ch_squote) as [->|Hq].
  { exists [ch_space]. cbn [fst snd]. repeat split; [auto | apply skip_squote_suffix|].
    pose proof (skip_squote_length tl). simpl. lia. }
  destruct (c =? ch_dquote)%N; [destruct (isStringLiteral out)|]; cbn [fst snd].
  - exists [ch_space]. repeat split; [auto | apply skip_dquote_suffix|].
    pose proof (skip_dquote_length tl). simpl. lia.
  - exists [c]. repeat split; [auto | done | simpl; lia].
  - exists [c]. repeat split; [auto | done | simpl; lia].
Qed.

Lemma scrub_loop_emits (P : N → Prop) fuel : ∀ sql out,
  P ch_space → Forall (λ c, c ≠ ch_squote → P c) sql → Forall P out →
  Forall P (scrub_loop fuel sql out).2.
Proof.
  induction fuel as [|fuel IH]; intros sql out Hsp Hsql Hout; [done|].
  destruct sql as [|c tl]; [done|]. cbn [scrub_loop].
  destruct (scrub_step_emits c tl out) as (w & Ew & Hw & [k Hk] & _).
  destruct (scrub_step (c :: tl) out) as [sql' out']. simpl in *. subst.
  inv Hsql. apply IH; [done| |].
  - match goal with H : Forall _ (_ ++ _) |- _ => by apply Forall_app in H as [_ ?] end.
  - apply Forall_app. split; [done|].
    destruct Hw as [->|[->|[-> ?]]]; auto.
Qed.

Lemma scrub_loop_length fuel : ∀ sql out,
  length (scrub_loop fuel sql out).2 + length (scrub_loop fuel sql out).1
  ≤ length out + length sql.
Proof.
  induction fuel as [|fuel IH]; intros sql out; [simpl; lia|].
  destruct sql as [|c tl]; [simpl; lia|]. cbn [scrub_loop].
  destruct (scrub_step_emits c tl out) as (w & Ew & _ & _ & Hl).
  destruct (scrub_step (c :: tl) out) as [sql' out']. simpl in *. subst.
  specialize (IH sql' (out ++ w)). rewrite length_app in IH. lia.
Qed.

(** X5. The scrubbed text is normalised: its only white space character
    is the space, no two spaces are adjacent, and it neither starts nor
    ends with a space. *)
Theorem scrubbed_text_is_normalised (sql : jsstring) :
  Forall (λ c, is_space c = true → c = ch_space) (removeCommentsAndStrings sql)
  ∧ includes [ch_space; ch_space] (removeCommentsAndStrings sql) = false
  ∧ head (removeCommentsAndStrings sql) ≠ Some ch_space
  ∧ last (removeCommentsAndStrings sql) ≠ Some ch_space.
Proof.
  unfold removeCommentsAndStrings.
  destruct (single_spaced_spaces _ (normalize_ws_single_spaced (scrub_raw sql)))
    as [H1 H2].
  destruct (normalize_ws_ends (scrub_raw sql)) as [H3 H4].
  repeat split; try done.
  - intros E. destruct (normalize_ws (scrub_raw sql)) as [|c t]; [done|].
    injection E as ->. done.
  - intros E. apply H4 in E. done.
Qed.

(** X6. Every character of the scrubbed text is a character of the input
    or a space, and none is a single quote; the scrubbed text is never
    longer than the input. *)
Theorem scrubbed_text_characters (sql : jsstring) :
  Forall (λ c, (c ∈ sql ∨ c = ch_space) ∧ c ≠ ch_squote)
    (removeCommentsAndStrings sql)
  ∧ length (removeCommentsAndStrings sql) ≤ length sql.
Proof.
  unfold removeCommentsAndStrings, scrub_raw. split.
  - apply Forall_normalize_ws; [by auto|].
    apply scrub_loop_emits; [by auto| |done].
    apply Forall_forall. auto.
  - etrans; [apply normalize_ws_length|].
    pose proof (scrub_loop_length (length sql) sql []). simpl in *. lia.
Qed.

(** * The scrubber: comments and literals after clean text *)

Lemma scrub_loop_fuel f1 : ∀ f2 sql out,
  length sql ≤ f1 → length sql ≤ f2 →
  scrub_loop f1 sql out = scrub_loop f2 sql out.
Proof.
  induction f1 as [|f1 IH]; intros f2 sql out H1 H2.
  - destruct sql; [|simpl in H1; lia]. by destruct f2.
  - destruct sql as [|c tl]; [by destruct f2|].
    destruct f2 as [|f2]; [simpl in H2; lia|]. cbn [scrub_loop].
    pose proof (scrub_step_shorter c tl out) as Hlt.
    destruct (scrub_step (c :: tl) out) as [sql' out'].
    apply IH; simpl in *; lia.
Qed.

Lemma clean_text_cons c t : clean_text (c :: t) → clean_text t.
Proof.
  intros (Hs & Hd & Hl & Hb). repeat split.
  - by apply not_elem_of_cons in Hs as [_ ?].
  - by apply not_elem_of_cons in Hd as [_ ?].
  - cbn [includes] in Hl. by apply orb_false_elim in Hl as [_ ?].
  - cbn [includes] in Hb. by apply orb_false_elim in Hb as [_ ?].
Qed.

Lemma clean_across_regular a rest :
  clean_text a → no_opener_across a rest → all_regular a rest = true.
Proof.
  induction a as [|c a IH]; [done|]. intros Hc [Hm Hst].
  cbn [all_regular]. apply andb_true_intro. split.
  - destruct Hc as (Hs & Hd & Hl & Hb).
    apply not_elem_of_cons in Hs as [Hs1 _], Hd as [Hd1 _].
    cbn [includes] in Hl, Hb.
    apply orb_false_elim in Hl as [Hl1 _], Hb as [Hb1 _].
    unfold regular.
    rewrite (proj2 (N.eqb_neq c ch_squote)), (proj2 (N.eqb_neq c ch_dquote)) by done.
    rewrite !andb_true_r. apply andb_true_intro. split; apply negb_true_iff.
    + destruct (N.eqb_spec c ch_minus) as [->|]; [|done]. cbn [andb].
      apply bool_decide_eq_false. destruct a as [|d a].
      * simpl. intros E. apply Hm. done.
      * simpl in *. intros [= ->]. done.
    + destruct (N.eqb_spec c ch_slash) as [->|]; [|done]. cbn [andb].
      apply bool_decide_eq_false. destruct a as [|d a].
      * simpl. intros E. apply Hst. done.
      * simpl in *. intros [= ->]. done.
  - apply IH; [by eapply clean_text_cons|].
    destruct a as [|d a]; [by split; intros [? _]|].
    exact (conj Hm Hst).
Qed.

(** After clean text the loop stands at the text that follows, with the
    clean text as its output. *)
Lemma scrub_raw_after_clean a rest :
  clean_text a → no_opener_across a rest →
  scrub_raw (a ++ rest) = (scrub_loop (length rest) rest a).2.
Proof.
  intros Hc Hn. unfold scrub_raw. rewrite length_app.
  by rewrite scrub_loop_regular by by apply clean_across_regular.
Qed.

Lemma scrub_loop_step fuel c tl out :
  length (c :: tl) ≤ fuel →
  (scrub_loop fuel (c :: tl) out).2
  = (scrub_loop (length (scrub_step (c :: tl) out).1)
       (scrub_step (c :: tl) out).1 (scrub_step (c :: tl) out).2).2.
Proof.
  intros Hf. destruct fuel as [|fuel]; [simpl in Hf; lia|]. cbn [scrub_loop].
  pose proof (scrub_step_shorter c tl out) as Hlt.
  destruct (scrub_step (c :: tl) out) as [sql' out']. cbn [fst snd] in *.
  f_equal. apply scrub_loop_fuel; simpl in *; lia.
Qed.

Lemma skip_line_comment c : ∀ tl,
  (ch_lf ∉ c) → (tl = [] ∨ head tl = Some ch_lf) → skip_line (c ++ tl) = tl.
Proof.
  induction c as [|d c IH]; intros tl Hc Htl.
  - destruct Htl as [->|Htl]; [done|]. destruct tl as [|e tl]; [done|].
    injection Htl as ->. done.
  - apply not_elem_of_cons in Hc as [Hd Hc]. cbn [app skip_line].
    rewrite (proj2 (N.eqb_neq d ch_lf)) by done. by apply IH.
Qed.

Lemma skip_block_comment c : ∀ b,
  includes (str "*/") c = false → skip_block (c ++ str "*/" ++ b) = b.
Proof.
  change (str "*/") with [ch_star; ch_slash].
  induction c as [|d c IH]; intros b Hc; [done|].
  cbn [includes] in Hc. apply orb_false_elim in Hc as [Hd Hc].
  destruct c as [|e c].
  - change (skip_block ([d] ++ [ch_star; ch_slash] ++ b))
      with (if (d =? ch_star)%N && (ch_star =? ch_slash)%N then ch_slash :: b
            else skip_block ([] ++ [ch_star; ch_slash] ++ b)).
    change (ch_star =? ch_slash)%N with false. rewrite andb_false_r. done.
  - change (skip_block ((d :: e :: c) ++ [ch_star; ch_slash] ++ b))
      with (if (d =? ch_star)%N && (e =? ch_slash)%N
            then c ++ [ch_star; ch_slash] ++ b
            else skip_block ((e :: c) ++ [ch_star; ch_slash] ++ b)).
    cbn [starts_with] in Hd. rewrite andb_true_r in Hd.
    rewrite (N.eqb_sym d), (N.eqb_sym e), Hd. by apply IH.
Qed.

Lemma skip_squote_literal body : ∀ b,
  quotes_doubled body = true → head b ≠ Some ch_squote →
  skip_squote (body ++ ch_squote :: b) = b ∧ skip_squote body = [].
Proof.
  induction body as [body IH] using (induction_ltof1 _ length). unfold ltof in IH.
  intros b Hq Hb. destruct body as [|c t].
  - split; [|done]. cbn [app skip_squote]. rewrite N.eqb_refl.
    destruct b as [|d b]; [done|].
    rewrite (proj2 (N.eqb_neq d ch_squote)); [done|]. simpl in Hb. congruence.
  - cbn [quotes_doubled] in Hq. cbn [app skip_squote].
    destruct (c =? ch_squote)%N.
    + destruct t as [|c2 t2]; [done|]. apply andb_prop in Hq as [Hc2 Hq].
      cbn [app skip_squote]. rewrite Hc2. apply IH; [simpl; lia | done | done].
    + apply IH; [simpl; lia | done | done].
Qed.

Lemma skip_dquote_literal body : ∀ b,
  (ch_dquote ∉ body) →
  skip_dquote (body ++ ch_dquote :: b) = b ∧ skip_dquote body = [].
Proof.
  induction body as [|c t IH]; intros b Hq.
  - split; [|done]. cbn [app skip_dquote]. by rewrite N.eqb_refl.
  - apply not_elem_of_cons in Hq as [Hc Hq]. cbn [app skip_dquote].
    rewrite (proj2 (N.eqb_neq c ch_dquote)) by done. by apply IH.
Qed.

Lemma no_opener_across_other a c b :
  c ≠ ch_minus → c ≠ ch_star → no_opener_across a (c :: b).
Proof. intros ??. split; intros [_ [= ?]]; done. Qed.

Lemma scrub_step_space b out :
  scrub_step (ch_space :: b) out = (b, out ++ [ch_space]).
Proof. done. Qed.

(** X7. A line comment that follows clean text (text with no quote and no
    comment opener, not ending in a minus sign) is removed up to the line
    feed that ends it, or up to the end of the input: the scrubbed text
    is that of the input without the comment. *)
Theorem line_comment_removed (a c tl : jsstring) :
  clean_text a → last a ≠ Some ch_minus →
  ch_lf ∉ c → tl = [] ∨ head tl = Some ch_lf →
  removeCommentsAndStrings (a ++ str "--" ++ c ++ tl)
  = removeCommentsAndStrings (a ++ tl).
Proof.
  intros Ha Hl Hc Htl. unfold removeCommentsAndStrings. f_equal.
  rewrite !scrub_raw_after_clean; try done.
  - change (str "--" ++ c ++ tl) with (ch_minus :: ch_minus :: c ++ tl).
    rewrite scrub_loop_step by done.
    assert (scrub_step (ch_minus :: ch_minus :: c ++ tl) a = (tl, a)) as ->; [|done].
    unfold scrub_step. cbn [head andb]. rewrite N.eqb_refl, bool_decide_eq_true_2 by done.
    cbn [andb skip_line]. change (ch_minus =? ch_lf)%N with false. cbn iota.
    by rewrite skip_line_comment.
  - destruct Htl as [->|Htl]; [by split; intros [_ ?]|].
    destruct tl as [|d tl]; [done|]. injection Htl as ->.
    by apply no_opener_across_other.
  - split; [by intros [? _] | by intros [_ [= ?]]].
Qed.

Lemma line_comment_removed_witness :
  removeCommentsAndStrings
    (str "SELECT a " ++ str "--" ++ str " FROM x" ++ ch_lf :: str "FROM t")
  = removeCommentsAndStrings (str "SELECT a " ++ ch_lf :: str "FROM t").
Proof.
  apply (line_comment_removed (str "SELECT a ") (str " FROM x") (ch_lf :: str "FROM t")).
  - repeat split; try by vm_compute. all: apply (bool_decide_unpack _); by vm_compute.
  - by vm_compute.
  - apply (bool_decide_unpack _); by vm_compute.
  - by right.
Defined.

(** X8. A block comment with its closer that follows clean text is
    removed, and nothing is put in its place: the scrubbed text is that of
    the input without the comment, provided the characters the removal
    brings together do not form a comment opener. *)
Theorem block_comment_removed (a c b : jsstring) :
  clean_text a → includes (str "*/") c = false → no_opener_across a b →
  removeCommentsAndStrings (a ++ str "/*" ++ c ++ str "*/" ++ b)
  = removeCommentsAndStrings (a ++ b).
Proof.
  intros Ha Hc Hb. unfold removeCommentsAndStrings. f_equal.
  rewrite !scrub_raw_after_clean; try done.
  - change (str "/*" ++ c ++ str "*/" ++ b)
      with (ch_slash :: ch_star :: c ++ str "*/" ++ b).
    rewrite scrub_loop_step by done.
    assert (scrub_step (ch_slash :: ch_star :: c ++ str "*/" ++ b) a = (b, a))
      as ->; [|done].
    unfold scrub_step. cbn [head drop].
    change ((ch_slash =? ch_minus)%N) with false. cbn [andb].
    rewrite N.eqb_refl, bool_decide_eq_true_2 by done. cbn [andb].
    rewrite drop_0. by rewrite skip_block_comment.
  - split; [by intros [_ [= ?]] | by intros [_ [= ?]]].
Qed.

Lemma block_comment_removed_witness :
  removeCommentsAndStrings
    (str "SELECT * FROM " ++ str "/*" ++ str " old * table " ++ str "*/" ++ str "users u")
  = removeCommentsAndStrings (str "SELECT * FROM " ++ str "users u").
Proof.
  apply (block_comment_removed (str "SELECT * FROM ") (str " old * table ") (str "users u")).
  - repeat split; try by vm_compute. all: apply (bool_decide_unpack _); by vm_compute.
  - by vm_compute.
  - split; by intros [[= ?] _].
Defined.

(** X9. A single-quoted string literal that follows clean text is replaced
    by one space, whatever it holds, a doubled quote inside standing for
    a quote of the literal; a literal left open is replaced together with
    the rest of the input. *)
Theorem string_literal_replaced (a body b : jsstring) :
  clean_text a → quotes_doubled body = true → head b ≠ Some ch_squote →
  removeCommentsAndStrings (a ++ ch_squote :: body ++ ch_squote :: b)
  = removeCommentsAndStrings (a ++ ch_space :: b)
  ∧ removeCommentsAndStrings (a ++ ch_squote :: body)
    = removeCommentsAndStrings (a ++ [ch_space]).
Proof.
  intros Ha Hq Hb. destruct (skip_squote_literal body b Hq Hb) as [E1 E2].
  unfold removeCommentsAndStrings.
  split; f_equal; rewrite !scrub_raw_after_clean;
    try done; try (by apply no_opener_across_other);
    rewrite !scrub_loop_step by done; rewrite scrub_step_space;
    unfold scrub_step; cbn [head];
    change ((ch_squote =? ch_minus)%N) with false;
    change ((ch_squote =? ch_slash)%N) with false;
    cbn [andb]; rewrite N.eqb_refl; cbn [fst snd]; by rewrite ?E1, ?E2.
Qed.

Lemma string_literal_replaced_witness :
  removeCommentsAndStrings
    (str "WHERE n = " ++ ch_squote :: str "it''s FROM x" ++ ch_squote :: str " AND 1")
  = removeCommentsAndStrings (str "WHERE n = " ++ ch_space :: str " AND 1")
  ∧ removeCommentsAndStrings (str "WHERE n = " ++ ch_squote :: str "it''s FROM x")
    = removeCommentsAndStrings (str "WHERE n = " ++ [ch_space]).
Proof.
  apply (string_literal_replaced (str "WHERE n = ") (str "it''s FROM x") (str " AND 1")).
  - repeat split; try by vm_compute. all: apply (bool_decide_unpack _); by vm_compute.
  - by vm_compute.
  - by vm_compute.
Defined.

(** X10. A double-quoted span that follows clean text ending in a
    comparison operator ([=], [!], [<], [>]) and optional white space,
    within its last ten characters, is taken for a string literal and
    replaced by one space; left open, it is replaced together with the
    rest of the input. *)
Theorem double_quoted_literal_replaced (a body b : jsstring) :
  clean_text a → isStringLiteral a = true → ch_dquote ∉ body →
  removeCommentsAndStrings (a ++ dq body ++ b)
  = removeCommentsAndStrings (a ++ ch_space :: b)
  ∧ removeCommentsAndStrings (a ++ ch_dquote :: body)
    = removeCommentsAndStrings (a ++ [ch_space]).
Proof.
  intros Ha Hlit Hq. destruct (skip_dquote_literal body b Hq) as [E1 E2].
  unfold removeCommentsAndStrings.
  change (dq body ++ b) with (ch_dquote :: (body ++ [ch_dquote]) ++ b).
  rewrite <- (app_assoc body). cbn [app].
  split; f_equal; rewrite !scrub_raw_after_clean;
    try done; try (by apply no_opener_across_other);
    rewrite !scrub_loop_step by done; rewrite scrub_step_space;
    unfold scrub_step; cbn [head];
    change ((ch_dquote =? ch_minus)%N) with false;
    change ((ch_dquote =? ch_slash)%N) with false;
    change ((ch_dquote =? ch_squote)%N) with false;
    cbn [andb]; rewrite N.eqb_refl, Hlit; cbn [fst snd]; by rewrite ?E1, ?E2.
Qed.

Lemma double_quoted_literal_replaced_witness :
  removeCommentsAndStrings (str "WHERE n != " ++ dq (str "FROM x") ++ str " AND 1")
  = removeCommentsAndStrings (str "WHERE n != " ++ ch_space :: str " AND 1")
  ∧ removeCommentsAndStrings (str "WHERE n != " ++ ch_dquote :: str "FROM x")
    = removeCommentsAndStrings (str "WHERE n != " ++ [ch_space]).
Proof.
  apply (double_quoted_literal_replaced (str "WHERE n != ") (str "FROM x") (str " AND 1")).
  - repeat split; try by vm_compute. all: apply (bool_decide_unpack _); by vm_compute.
  - by vm_compute.
  - apply (bool_decide_unpack _); by vm_compute.
Defined.

(** * The window of the string-literal test *)

Lemma is_cmp_not_space c : is_cmp c = true → is_space c = false.
Proof.
  unfold is_cmp. rewrite !orb_true_iff, !N.eqb_eq.
  intros [[[->| ->]| ->]| ->]; done.
Qed.

Lemma last_non_space (x y : jsstring) c c' sp sp' :
  x ++ c :: sp = y ++ c' :: sp' →
  is_space c = false → is_space c' = false →
  Forall (λ d, is_space d = true) sp → Forall (λ d, is_space d = true) sp' →
  x = y ∧ c = c' ∧ sp = sp'.
Proof.
  revert sp'. induction sp as [|d sp IH] using rev_ind;
    intros sp' E Hc Hc' Hsp Hsp'.
  - destruct sp' as [|d' sp' _] using rev_ind.
    + change (x ++ [c] = y ++ [c']) in E. by apply app_inj_tail in E as [-> ->].
    + rewrite (app_comm_cons sp' [d'] c'), app_assoc in E.
      apply app_inj_tail in E as [_ ->].
      apply Forall_app in Hsp' as [_ Hd]. inv Hd. congruence.
  - destruct sp' as [|d' sp' _] using rev_ind.
    + rewrite (app_comm_cons sp [d] c), app_assoc in E.
      change (y ++ [c']) with (y ++ [c']) in E.
      apply app_inj_tail in E as [_ ->].
      apply Forall_app in Hsp as [_ Hd]. inv Hd. congruence.
    + rewrite (app_comm_cons sp [d] c), (app_comm_cons sp' [d'] c'), !app_assoc in E.
      apply app_inj_tail in E as [E ->].
      apply Forall_app in Hsp as [Hsp _], Hsp' as [Hsp' _].
      destruct (IH sp' E) as (-> & -> & ->); done.
Qed.

(** X25. The test that tells a string literal from an identifier looks at
    the last ten characters of the output only: after an output that
    ends with a character that is not white space and then white space,
    a double quote opens a string literal exactly when that character is
    a comparison operator and at most nine white space characters
    follow it. *)
Theorem isStringLiteral_window (pre : jsstring) (c : N) (sp : jsstring) :
  is_space c = false → Forall (λ d, is_space d = true) sp →
  (isStringLiteral (pre ++ c :: sp) = true ↔ is_cmp c = true ∧ length sp ≤ 9).
Proof.
  intros Hc Hsp. rewrite isStringLiteral_spec. unfold slice_last.
  set (out := pre ++ c :: sp). split.
  - intros (x & c' & sp' & E & Hc' & Hsp').
    destruct (Nat.le_gt_cases (length sp) 9) as [Hle|Hgt].
    + split; [|done].
      assert (out = take (length out - 10) out ++ x ++ c' :: sp') as E2.
      { rewrite <- E. by rewrite take_drop. }
      unfold out in E2 at 1. rewrite app_assoc in E2.
      apply last_non_space in E2 as (_ & -> & _); try done.
      by apply is_cmp_not_space.
    + exfalso.
      assert (Forall (λ d, is_space d = true) (drop (length out - 10) out)) as Hall.
      { unfold out.
        replace (length (pre ++ c :: sp) - 10)
          with (length (pre ++ [c]) + (length sp - 10))
          by (rewrite !length_app; simpl; lia).
        replace (pre ++ c :: sp) with ((pre ++ [c]) ++ sp)
          by (by rewrite <- app_assoc).
        rewrite drop_app_add. by apply Forall_drop. }
      rewrite E in Hall. apply Forall_app in Hall as [_ Hall]. inv Hall.
      apply is_cmp_not_space in Hc'. congruence.
  - intros [Hcmp Hle]. exists (drop (length out - 10) pre), c, sp.
    split; [|done]. unfold out. rewrite length_app. simpl.
    rewrite drop_app_le; [done|]. lia.
Qed.

Lemma isStringLiteral_window_witness :
  isStringLiteral (str "a " ++ ch_eq :: str "          ") = true
  ↔ is_cmp ch_eq = true ∧ length (str "          ") ≤ 9.
Proof.
  apply (isStringLiteral_window (str "a ") ch_eq (str "          ")).
  - done.
  - repeat constructor.
Defined.

(** * Where the reported names come from *)

(** Every match of the scan lies in the text that was scanned. *)
Lemma scan_matches_in_text kws mt fuel : ∀ i s p,
  i = length p → mt ∈ scan_matches kws fuel i s →
  ∃ pre, p ++ s = pre ++ m_0 mt ++ m_after mt ∧ m_index mt = length pre
    ∧ match_here (table_regex kws) (m_index mt) (m_0 mt ++ m_after mt) = Some mt.
Proof.
  induction fuel as [|fuel IH]; intros i s p Hi; simpl; [by intros ?%elem_of_nil|].
  destruct (exec_from _ i s) as [mt'|] eqn:E; [|by intros ?%elem_of_nil].
  apply exec_from_Some in E as (pre & s' & -> & Ei & Hm).
  destruct (match_here_split _ _ _ _ Hm) as [_ Hs].
  intros [->|Hin]%elem_of_cons.
  - exists (p ++ pre). rewrite <- app_assoc, <- Hs, length_app, Ei, Hi.
    split; [done|]. split; [done|]. by rewrite <- Hi.
  - apply (IH _ _ (p ++ pre ++ m_0 mt')) in Hin.
    + destruct Hin as (pre' & E' & Hi' & Hm'). exists pre'.
      rewrite <- E', Hs, <- !app_assoc. done.
    + rewrite Ei, Hi, !length_app. lia.
Qed.

Lemma plus_ws_spaces st st' :
  matches (Plus ws) st st' →
  ∃ c w, is_space c = true ∧ Forall (λ c, is_space c = true) w
    ∧ rest st = c :: w ++ rest st'.
Proof.
  intros H. inv H.
  match goal with M : matches ws _ _ |- _ =>
    apply chr_matches in M as (c & Hc & E & _) end.
  match goal with M : matches (Star ws) _ _ |- _ =>
    apply star_ws_matches in M as (w & Ew & Hw) end.
  exists c, w. by rewrite E, Ew.
Qed.

Lemma table_match_spaces kws i s st' :
  matches (table_regex kws) (MState i s None) st' →
  ∃ wk c wsp wid,
    s = wk ++ c :: wsp ++ wid ++ rest st'
    ∧ cap st' = Some wid ∧ wid ≠ [] ∧ is_space c = true
    ∧ Forall (λ c, is_space c = true) wsp
    ∧ (kws = [] ∧ wk = [] ∨ ∃ kw, kw ∈ kws ∧ toUpperCase wk = toUpperCase kw).
Proof.
  intros H.
  destruct (table_regex_shape _ _ _ _ H)
    as (wk0 & c0 & wsp0 & wid0 & E0 & _ & C0 & Hn0 & _ & Hk0).
  unfold table_regex in H.
  inv H. match goal with M : matches (Seq _ (Group _)) _ _ |- _ => inv M end.
  match goal with M : matches (Group _) _ _ |- _ => inv M end.
  match goal with M : matches (keywordPattern _) _ _ |- _ =>
    pose proof (keywordPattern_matches _ _ _ M) as (wk & Ek & Ik & _ & Hk) end.
  match goal with M : matches (Plus ws) _ _ |- _ =>
    apply plus_ws_spaces in M as (c & wsp & Hc & Hw & Es) end.
  match goal with M : matches re_identifier ?a ?b |- _ =>
    pose proof (matches_consume _ _ _ M) as (wid & Ei & Ii) end.
  simpl in *. exists wk, c, wsp, wid0.
  assert (wid = wid0) as <-.
  { injection C0 as <-.
    match goal with |- _ = take ?n _ => replace n with (length wid) by lia end.
    rewrite Ei. by rewrite take_app_length. }
  rewrite Ek, Es, Ei. repeat split; try done.
  by rewrite <- Ei.
Qed.

Lemma includes_app_mid p a b : includes p (a ++ p ++ b) = true.
Proof.
  induction a as [|c a IH]; simpl.
  - destruct (p ++ b) eqn:E; simpl.
    + apply app_eq_nil in E as [-> _]. done.
    + rewrite <- E. clear. 
      assert (starts_with p (p ++ b) = true) as ->; [|done].
      induction p as [|d p IH]; [done|]. simpl. by rewrite N.eqb_refl.
  - rewrite IH. apply orb_true_r.
Qed.

Lemma matches_of_in_text kws cleanSql mt :
  mt ∈ matches_of kws cleanSql →
  ∃ pre wk c wsp wid,
    cleanSql = pre ++ m_0 mt ++ m_after mt
    ∧ m_index mt = length pre
    ∧ match_here (table_regex kws) (length pre) (m_0 mt ++ m_after mt) = Some mt
    ∧ m_0 mt = wk ++ c :: wsp ++ wid
    ∧ m_1 mt = Some wid ∧ wid ≠ [] ∧ is_space c = true
    ∧ Forall (λ c, is_space c = true) wsp
    ∧ (kws = [] ∧ wk = [] ∨ ∃ kw, kw ∈ kws ∧ toUpperCase wk = toUpperCase kw).
Proof.
  intros (pre & E & Hi & Hm)%(scan_matches_in_text _ _ _ _ _ [] eq_refl).
  pose proof Hm as (st' & M & Emt)%match_here_Some.
  apply table_match_spaces in M as (wk & c & wsp & wid & Es & C & Hn & Hc & Hw & Hk).
  pose proof (f_equal m_1 Emt) as E1. pose proof (f_equal m_after Emt) as Ea.
  cbn [m_1 m_after] in E1, Ea.
  exists pre, wk, c, wsp, wid. rewrite E1, C, <- Hi. repeat split; try done.
  rewrite <- Ea in Es.
  replace (wk ++ c :: wsp ++ wid ++ m_after mt)
    with ((wk ++ c :: wsp ++ wid) ++ m_after mt) in Es
    by (rewrite <- app_assoc; cbn [app]; by rewrite <- app_assoc).
  by apply app_inv_tail in Es.
Qed.

(** In scrubbed text the white space between keyword and identifier is
    one space. *)
Lemma matches_of_scrubbed kws sql mt :
  mt ∈ matches_of kws (removeCommentsAndStrings sql) →
  ∃ pre wk wid,
    removeCommentsAndStrings sql = pre ++ m_0 mt ++ m_after mt
    ∧ m_index mt = length pre
    ∧ match_here (table_regex kws) (length pre) (m_0 mt ++ m_after mt) = Some mt
    ∧ m_0 mt = wk ++ ch_space :: wid
    ∧ m_1 mt = Some wid ∧ wid ≠ []
    ∧ (kws = [] ∧ wk = [] ∨ ∃ kw, kw ∈ kws ∧ toUpperCase wk = toUpperCase kw).
Proof.
  intros (pre & wk & c & wsp & wid & E & Hi & Hm & E0 & C & Hn & Hc & Hw & Hk)
    %matches_of_in_text.
  destruct (single_spaced_spaces _ (normalize_ws_single_spaced (scrub_raw sql)))
    as [H1 H2].
  fold (removeCommentsAndStrings sql) in H1, H2.
  rewrite E, E0 in H1, H2. rewrite Forall_forall in H1.
  assert (c = ch_space) as ->.
  { apply H1; [|done]. apply elem_of_app. right. apply elem_of_app. left.
    apply elem_of_app. right. left. }
  destruct wsp as [|d wsp].
  - by exists pre, wk, wid.
  - inv Hw. assert (d = ch_space) as ->.
    { apply H1; [|done]. apply elem_of_app. right. apply elem_of_app. left.
      apply elem_of_app. right. right. left. }
    replace (pre ++ (wk ++ ch_space :: (ch_space :: wsp) ++ wid) ++ m_after mt)
      with ((pre ++ wk) ++ [ch_space; ch_space] ++ (wsp ++ wid ++ m_after mt)) in H2
      by (rewrite <- !app_assoc; cbn [app]; by rewrite <- !app_assoc).
    by rewrite includes_app_mid in H2.
Qed.

(** X11. With keywords that are plain phrases, the names of [allTables]
    are the captures of the matches the scan reports. Every match lies
    in the scrubbed text at its index, is what the pattern gives at that
    index, and consists of a configured keyword (in any letter case), one
    space and the identifier that capture group 1 takes there, which is
    not empty. A name is in [allTables] if and only if it is the
    identifier of such a match that is not skipped as a function call,
    with its quoting removed and the catalog, if any, applied. *)
Theorem reported_tables_follow_keywords (sql : jsstring)
    (options : TableExtractionOptions) :
  plain_options options →
  let kws := effective_keywords options in
  let cleanSql := removeCommentsAndStrings sql in
  ∃ res, extractTableNames sql options = Some res
    ∧ Forall (λ mt, ∃ pre w ident kw,
          cleanSql = pre ++ m_0 mt ++ m_after mt
          ∧ m_index mt = length pre
          ∧ match_here (table_regex kws) (length pre) (m_0 mt ++ m_after mt)
            = Some mt
          ∧ m_0 mt = w ++ ch_space :: ident
          ∧ m_1 mt = Some ident ∧ ident ≠ []
          ∧ kw ∈ kws ∧ toUpperCase w = toUpperCase kw)
        (matches_of kws cleanSql)
    ∧ ∀ x, x ∈ allTables res ↔
        ∃ mt ident, mt ∈ matches_of kws cleanSql
          ∧ m_1 mt = Some ident ∧ skipped kws mt = false
          ∧ x = resolveTableName (cleanTableName ident) (knownTables options).
Proof.
  intros _ kws cleanSql.
  rewrite extractTableNames_eq. eexists. split; [done|].
  assert (∀ l k b, allTables (classify l k b) = l) as Hall.
  { intros l [k|] [|]; done. }
  rewrite Hall. fold kws cleanSql. split.
  - apply Forall_forall. intros mt Hmt.
    apply matches_of_scrubbed in Hmt
      as (pre & wk & wid & E & Hi & Hm & E0 & C & Hn & Hk).
    destruct Hk as [[Hnil _]|(kw & Hkw & U)];
      [by apply effective_keywords_nonempty in Hnil|].
    by exists pre, wk, wid, kw.
  - intros x. rewrite Set_from_elem. unfold captures.
    rewrite list_elem_of_omap. split.
    + intros (mt & Hmt & Hc). unfold captured in Hc.
      destruct (m_1 mt) as [[|c t]|] eqn:C; try done.
      destruct (skipped kws mt) eqn:Hsk; [done|]. injection Hc as <-.
      by exists mt, (c :: t).
    + intros (mt & ident & Hmt & C & Hsk & ->). exists mt. split; [done|].
      apply matches_of_scrubbed in Hmt as (_ & _ & wid & _ & _ & _ & _ & C' & Hn & _).
      rewrite C in C'. injection C' as ->.
      unfold captured. rewrite C, Hsk. by destruct wid.
Qed.

Lemma reported_tables_follow_keywords_witness :
  ∃ res, extractTableNames generate_series_sql no_options = Some res
    ∧ Forall (λ mt, ∃ pre w ident kw,
          removeCommentsAndStrings generate_series_sql
          = pre ++ m_0 mt ++ m_after mt
          ∧ m_index mt = length pre
          ∧ match_here (table_regex (effective_keywords no_options)) (length pre)
              (m_0 mt ++ m_after mt)
            = Some mt
          ∧ m_0 mt = w ++ ch_space :: ident
          ∧ m_1 mt = Some ident ∧ ident ≠ []
          ∧ kw ∈ effective_keywords no_options ∧ toUpperCase w = toUpperCase kw)
        (matches_of (effective_keywords no_options)
           (removeCommentsAndStrings generate_series_sql))
    ∧ ∀ x, x ∈ allTables res ↔
        ∃ mt ident,
          mt ∈ matches_of (effective_keywords no_options)
                 (removeCommentsAndStrings generate_series_sql)
          ∧ m_1 mt = Some ident
          ∧ skipped (effective_keywords no_options) mt = false
          ∧ x = resolveTableName (cleanTableName ident) (knownTables no_options).
Proof.
  apply (reported_tables_follow_keywords generate_series_sql no_options).
  apply Forall_nil_2.
Defined.

(** X12. With keywords that are plain phrases, a query whose scrubbed
    text holds no space yields no table: the pattern asks for white space
    between keyword and identifier. *)
Theorem no_space_no_tables (sql : jsstring) (options : TableExtractionOptions) :
  plain_options options →
  ch_space ∉ removeCommentsAndStrings sql →
  extractTableNames sql options
  = Some {| allTables := []; realTables := []; filteredCTEs := [] |}.
Proof.
  intros _ Hsp. rewrite extractTableNames_eq.
  assert (matches_of (effective_keywords options) (removeCommentsAndStrings sql) = [])
    as Hnone.
  { destruct (matches_of _ _) as [|mt ms] eqn:E; [done|].
    assert (mt ∈ matches_of (effective_keywords options) (removeCommentsAndStrings sql))
      as (pre & wk & wid & E' & _ & _ & E0 & _)%matches_of_scrubbed
      by (rewrite E; left).
    exfalso. apply Hsp. rewrite E', E0. apply elem_of_app. right.
    apply elem_of_app. left. apply elem_of_app. right. left. }
  unfold captures. rewrite Hnone.
  by destruct (default false (filterCTEs options)), (knownTables options).
Qed.

Lemma no_space_no_tables_witness :
  extractTableNames (str "SELECT*FROM[users]") no_options
  = Some {| allTables := []; realTables := []; filteredCTEs := [] |}.
Proof.
  apply (no_space_no_tables (str "SELECT*FROM[users]") no_options).
  - apply Forall_nil_2.
  - apply (bool_decide_unpack _). by vm_compute.
Defined.

(** * [cleanTableName]: the quoting of the parts is removed *)

Lemma unquote_eq open close s :
  unquote open close s
  = replace_from (S (length s)) (unquote_regex open close) (default []) 0 s.
Proof. done. Qed.

Lemma unquote_no_match open close i c t :
  c ≠ open → match_here (unquote_regex open close) i (c :: t) = None.
Proof.
  intros Hc. unfold match_here, unquote_regex, Lit. cbn [rmatch rest].
  assert ((open =? c)%N = false) as -> by (apply N.eqb_neq; congruence). done.
Qed.

Lemma unquote_no_match_nil open close i :
  match_here (unquote_regex open close) i [] = None.
Proof. done. Qed.

Lemma first_close (close : N) (w1 : jsstring) : ∀ (w2 r1 r2 : jsstring),
  Forall (λ c, c ≠ close) w1 → Forall (λ c, c ≠ close) w2 →
  w1 ++ close :: r1 = w2 ++ close :: r2 → w1 = w2 ∧ r1 = r2.
Proof.
  induction w1 as [|c w1 IH]; intros [|d w2] r1 r2 H1 H2 E; simpl in E.
  - by injection E as ->.
  - injection E as <- _. by inv H2.
  - injection E as -> _. by inv H1.
  - injection E as -> E. inv H1. inv H2.
    destruct (IH _ _ _ ltac:(done) ltac:(done) E) as [-> ->]. done.
Qed.

Lemma star_chr_all p w : ∀ i t cp,
  Forall (λ c, p c = true) w →
  matches (Star (Chr p)) (MState i (w ++ t) cp) (MState (i + length w) t cp).
Proof.
  induction w as [|c w IH]; intros i t cp Hw; simpl.
  - rewrite Nat.add_0_r. constructor.
  - inv Hw. eapply M_StarStep; [by constructor | simpl; lia |].
    replace (i + S (length w)) with (S i + length w) by lia. by apply IH.
Qed.

Lemma unquote_shape open close i s st' :
  matches (unquote_regex open close) (MState i s None) st' →
  ∃ w, s = open :: w ++ close :: rest st' ∧ w ≠ []
    ∧ Forall (λ c, c ≠ close) w ∧ cap st' = Some w
    ∧ idx st' = i + length w + 2.
Proof.
  intros M. unfold unquote_regex in M. inv M.
  match goal with M1 : matches (Lit open) _ _ |- _ =>
    apply chr_matches in M1 as (q & ->%N.eqb_eq & Eq & Iq & _) end.
  match goal with M2 : matches (Seq _ _) _ _ |- _ => inv M2 end.
  match goal with M3 : matches (Lit close) _ _ |- _ =>
    apply chr_matches in M3 as (q' & ->%N.eqb_eq & Eq' & Iq' & Cq') end.
  match goal with M4 : matches (Group _) _ _ |- _ => inv M4 end.
  match goal with M5 : matches (Plus _) _ _ |- _ => inv M5 end.
  match goal with M6 : matches (Chr _) _ _ |- _ =>
    apply chr_matches in M6 as (c & Hc & Ec & Ic & _) end.
  match goal with M7 : matches (Star _) _ _ |- _ =>
    pose proof (matches_consume _ _ _ M7) as (w' & Ew' & Iw');
    apply star_chr_matches in M7 as (w & Ew & Hw) end.
  simpl in *.
  assert (w' = w) as -> by (rewrite Ew in Ew'; by apply app_inv_tail in Ew').
  exists (c :: w). rewrite Eq, Ec, Ew, Eq'. repeat split; try done.
  - constructor.
    + apply negb_true_iff, N.eqb_neq in Hc. done.
    + eapply Forall_impl; [exact Hw|]. intros d Hd.
      by apply negb_true_iff, N.eqb_neq in Hd.
  - rewrite Cq'. f_equal.
    replace (idx st'0 - idx st1) with (length (c :: w)) by (simpl; lia).
    rewrite Ec, Ew. change (c :: w ++ ?t) with ((c :: w) ++ t).
    by rewrite take_app_length.
  - simpl. lia.
Qed.

Lemma unquote_match open close i content rest0 :
  content ≠ [] → Forall (λ c, c ≠ close) content →
  match_here (unquote_regex open close) i (open :: content ++ close :: rest0)
  = Some {| m_index := i; m_0 := open :: content ++ [close];
            m_1 := Some content; m_after := rest0 |}.
Proof.
  intros Hne Hc.
  set (s := open :: content ++ close :: rest0).
  assert (matches (unquote_regex open close) (MState i s None)
            (MState (S (S i + length content)) rest0 (Some content))) as M.
  { unfold unquote_regex, s. eapply M_Seq; [constructor; apply N.eqb_refl|].
    eapply M_Seq; [|constructor; apply N.eqb_refl].
    destruct content as [|c content]; [done|]. inv Hc.
    pose proof (M_Group (Plus (Chr (λ c, negb (c =? close)%N)))
      (MState (S i) ((c :: content) ++ close :: rest0) None)
      (MState (S i + length (c :: content)) (close :: rest0) None)) as HG.
    cbn [idx rest] in HG.
    replace (S i + length (c :: content) - S i) with (length (c :: content)) in HG by lia.
    rewrite take_app_length in HG. apply HG.
    eapply M_Seq.
    - constructor. apply negb_true_iff, N.eqb_neq. done.
    - replace (S i + length (c :: content)) with (S (S i) + length content)
        by (simpl; lia).
      apply star_chr_all. eapply Forall_impl; [eassumption|].
      intros d Hd. by apply negb_true_iff, N.eqb_neq. }
  destruct (match_here_complete _ _ _ _ M) as [mt Hmt]. rewrite Hmt. f_equal.
  apply match_here_Some in Hmt as (st' & M' & ->).
  apply unquote_shape in M' as (w & Es & Hw & Hcw & Cw & Iw).
  unfold s in Es. injection Es as Es.
  apply first_close in Es as [<- <-]; [|done..].
  rewrite Cw. f_equal.
  replace (idx st' - i) with (length (open :: content ++ [close]))
    by (simpl; rewrite length_app; simpl; lia).
  unfold s. replace (open :: content ++ close :: rest0)
    with ((open :: content ++ [close]) ++ rest0)
    by (simpl; by rewrite <- app_assoc).
  by rewrite take_app_length.
Qed.

Section Pass.
Variables (open close : N) (strip : part → part).

(** What one [replace] call finds in a part: the quoting it removes, or
    no character that opens a match. *)
Hypothesis strip_cases : ∀ p, part_ok p →
  (part_text p = open :: part_name p ++ [close]
   ∧ strip p = Bare (part_name p) ∧ part_name p ≠ []
   ∧ Forall (λ c, c ≠ close) (part_name p))
  ∨ (strip p = p ∧ Forall (λ c, c ≠ open) (part_text p)).

Lemma replace_copy s : ∀ rest0 fuel i,
  Forall (λ c, c ≠ open) s → length (s ++ rest0) < fuel →
  ∃ fuel' i', length rest0 < fuel'
    ∧ replace_from fuel (unquote_regex open close) (default []) i (s ++ rest0)
      = s ++ replace_from fuel' (unquote_regex open close) (default []) i' rest0.
Proof.
  induction s as [|c s IH]; intros rest0 fuel i Hs Hf; [by exists fuel, i|].
  inv Hs. destruct fuel as [|fuel]; [lia|]. cbn [app replace_from].
  rewrite unquote_no_match by done.
  destruct (IH rest0 fuel (S i)) as (fuel' & i' & Hf' & ->); [done|simpl in Hf; lia|].
  by exists fuel', i'.
Qed.

Lemma replace_group content rest0 fuel i :
  content ≠ [] → Forall (λ c, c ≠ close) content →
  length (open :: content ++ close :: rest0) < fuel →
  ∃ fuel' i', length rest0 < fuel'
    ∧ replace_from fuel (unquote_regex open close) (default []) i
        (open :: content ++ close :: rest0)
      = content ++ replace_from fuel' (unquote_regex open close) (default []) i' rest0.
Proof.
  intros Hne Hc Hf. destruct fuel as [|fuel]; [lia|]. cbn [replace_from].
  rewrite unquote_match by done. cbn [m_after m_1 m_0 default].
  destruct (Nat.ltb_spec (length rest0) (length (open :: content ++ close :: rest0)))
    as [_|Hge]; [|simpl in Hge; rewrite length_app in Hge; simpl in Hge; lia].
  eexists fuel, _. split; [|done].
  simpl in Hf. rewrite length_app in Hf. simpl in Hf. lia.
Qed.

Lemma part_ok_strip p : part_ok p → part_ok (strip p).
Proof.
  intros Hp. destruct (strip_cases p Hp) as [(_ & -> & _)|[-> _]]; [|done].
  by destruct Hp.
Qed.

Lemma replace_parts ps : ∀ fuel i,
  Forall part_ok ps → length (parts_text ps) < fuel →
  replace_from fuel (unquote_regex open close) (default []) i (parts_text ps)
  = parts_text (map strip ps).
Proof.
  induction ps as [|p ps IH]; intros fuel i Hps Hf.
  - destruct fuel; [simpl in Hf; lia|]. done.
  - inv Hps. unfold parts_text in *. cbn [map concat] in *.
    match goal with H : part_ok p |- _ =>
      destruct (strip_cases p H) as [(Et & -> & Hne & Hc)|[-> Ho]] end.
    + rewrite Et. rewrite Et in Hf. cbn [app]. rewrite <- app_assoc. cbn [app].
      cbn [app] in Hf. rewrite <- app_assoc in Hf. cbn [app] in Hf.
      destruct (replace_group (part_name p) (concat (map part_text ps)) fuel i)
        as (fuel' & i' & Hf' & ->); try done.
      cbn [part_text]. f_equal. by apply IH.
    + destruct (replace_copy (part_text p) (concat (map part_text ps)) fuel i)
        as (fuel' & i' & Hf' & ->); try done.
      f_equal. by apply IH.
Qed.

Lemma unquote_parts ps :
  Forall part_ok ps → unquote open close (parts_text ps) = parts_text (map strip ps).
Proof. intros Hps. rewrite unquote_eq. apply replace_parts; [done | lia]. Qed.
End Pass.

Lemma quote_char_cases c :
  is_quote_char c = false →
  c ≠ ch_lbracket ∧ c ≠ ch_rbracket ∧ c ≠ ch_dquote ∧ c ≠ ch_backtick.
Proof.
  unfold is_quote_char. rewrite !orb_false_iff, !N.eqb_neq. tauto.
Qed.

Lemma name_free (P : N → Prop) s :
  (∀ c, is_quote_char c = false → P c) →
  Forall (λ c, is_quote_char c = false) s → Forall P s.
Proof. intros HP Hs. eapply Forall_impl; [exact Hs | done]. Qed.

Lemma quoted_free (P : N → Prop) o s c :
  P o → P c → Forall P s → Forall P (o :: s ++ [c]).
Proof. intros. constructor; [done|]. apply Forall_app. split; [done|]. by constructor. Qed.

Ltac free_of_quotes :=
  match goal with Hs : Forall (λ c, is_quote_char c = false) _ |- _ =>
    eapply name_free; [|exact Hs];
    let c := fresh "c" in let Hc := fresh "Hc" in
    intros c Hc; apply quote_char_cases in Hc; tauto
  end.

(** What each of the three [replace] calls finds in a part. *)
Ltac strip_cases :=
  intros [s|s|s|s] [Hs Hne]; cbn [part_text part_name] in *;
  first [ by left; repeat split; [done..|free_of_quotes]
        | right; split; [done|];
          first [ free_of_quotes | apply quoted_free; [done..|free_of_quotes] ] ].

Lemma strip_brackets_cases p : part_ok p →
  (part_text p = ch_lbracket :: part_name p ++ [ch_rbracket]
   ∧ strip_brackets p = Bare (part_name p) ∧ part_name p ≠ []
   ∧ Forall (λ c, c ≠ ch_rbracket) (part_name p))
  ∨ (strip_brackets p = p ∧ Forall (λ c, c ≠ ch_lbracket) (part_text p)).
Proof. revert p. strip_cases. Qed.

Lemma strip_dquotes_cases p : part_ok p →
  (part_text p = ch_dquote :: part_name p ++ [ch_dquote]
   ∧ strip_dquotes p = Bare (part_name p) ∧ part_name p ≠ []
   ∧ Forall (λ c, c ≠ ch_dquote) (part_name p))
  ∨ (strip_dquotes p = p ∧ Forall (λ c, c ≠ ch_dquote) (part_text p)).
Proof. revert p. strip_cases. Qed.

Lemma strip_backticks_cases p : part_ok p →
  (part_text p = ch_backtick :: part_name p ++ [ch_backtick]
   ∧ strip_backticks p = Bare (part_name p) ∧ part_name p ≠ []
   ∧ Forall (λ c, c ≠ ch_backtick) (part_name p))
  ∨ (strip_backticks p = p ∧ Forall (λ c, c ≠ ch_backtick) (part_text p)).
Proof. revert p. strip_cases. Qed.

Lemma cleanTableName_parts (ps : list part) :
  Forall part_ok ps →
  cleanTableName (parts_text ps) = concat (map part_name ps).
Proof.
  intros Hps. unfold cleanTableName.
  assert (Forall part_ok (map strip_brackets ps)) as Hps1.
  { apply Forall_fmap. eapply Forall_impl; [exact Hps|]. by intros [s|s|s|s] [??]. }
  assert (Forall part_ok (map strip_dquotes (map strip_brackets ps))) as Hps2.
  { apply Forall_fmap. eapply Forall_impl; [exact Hps1|]. by intros [s|s|s|s] [??]. }
  rewrite (unquote_parts _ _ _ strip_brackets_cases) by done.
  rewrite (unquote_parts _ _ _ strip_dquotes_cases) by done.
  rewrite (unquote_parts _ _ _ strip_backticks_cases) by done.
  unfold parts_text. f_equal. rewrite !map_map. apply map_ext.
  by intros [s|s|s|s].
Qed.

(** X13. [cleanTableName] removes the quoting of every part of an
    identifier: written as a sequence of bare, bracketed, double-quoted
    and backtick-quoted parts whose names hold no bracket, double quote
    or backtick (the names of quoted parts not empty), the identifier is
    cleaned to the names one after the other. *)
Theorem cleanTableName_unquotes (ps : list part) :
  Forall part_ok ps →
  cleanTableName (parts_text ps) = concat (map part_name ps).
Proof. apply cleanTableName_parts. Qed.

Lemma cleanTableName_unquotes_witness :
  cleanTableName
    (parts_text [DoubleQuoted (str "my schema"); Bare (str ".");
                 Bracketed (str "order items"); Bare (str ".");
                 Backticked (str "2024")])
  = concat (map part_name
      [DoubleQuoted (str "my schema"); Bare (str ".");
       Bracketed (str "order items"); Bare (str ".");
       Backticked (str "2024")]).
Proof.
  apply (cleanTableName_unquotes
           [DoubleQuoted (str "my schema"); Bare (str ".");
            Bracketed (str "order items"); Bare (str ".");
            Backticked (str "2024")]).
  repeat constructor; by vm_compute.
Defined.

(** * The simplest query, for every table name *)

Lemma star_chr_greedy {R} p w : ∀ fuel i cp (k : mstate → option R) x,
  Forall (λ c, p c = true) w → length w < fuel →
  k (MState (i + length w) [] cp) = Some x →
  star (rmatch (Chr p)) fuel (MState i w cp) k = Some x.
Proof.
  induction w as [|c w IH]; intros fuel i cp k x Hw Hf Hk;
    (destruct fuel as [|fuel]; [simpl in Hf; lia|]); cbn [star rmatch rest].
  - rewrite Nat.add_0_r in Hk. done.
  - inv Hw. match goal with H : p c = true |- _ => rewrite H end.
    cbn [rest idx cap length].
    destruct (Nat.ltb_spec (length w) (S (length w))); [|lia].
    erewrite IH; [done | done | simpl in Hf; lia |].
    rewrite <- Hk. f_equal. f_equal. simpl. lia.
Qed.

Lemma ident_char_plain c :
  is_ident_char c = true →
  is_space c = false ∧ c ≠ ch_lbracket ∧ c ≠ ch_dquote ∧ c ≠ ch_backtick
  ∧ c ≠ ch_squote ∧ c ≠ ch_minus ∧ c ≠ ch_slash ∧ c ≠ ch_rbracket.
Proof.
  intros Hc. split; [by apply ident_char_not_space|].
  repeat split; intros ->; done.
Qed.

(** An identifier made of [[\w@#]] only is taken whole. *)
Lemma ident_greedy {R} t i cp (k : mstate → option R) x :
  t ≠ [] → Forall (λ c, is_ident_char c = true) t →
  k (MState (i + length t) [] cp) = Some x →
  rmatch re_identifier (MState i t cp) k = Some x.
Proof.
  intros Hne Ht Hk. destruct t as [|c t]; [done|]. inv Ht.
  match goal with H : is_ident_char c = true |- _ =>
    pose proof (ident_char_plain c H) as (_ & Hq1 & Hq2 & Hq3 & _); pose proof H as Hc end.
  unfold re_identifier, re_part, quoted, Lit. cbn [rmatch rest Plus].
  rewrite (proj2 (N.eqb_neq ch_lbracket c)), (proj2 (N.eqb_neq ch_dquote c)),
    (proj2 (N.eqb_neq ch_backtick c)) by congruence.
  rewrite Hc. cbn [idx cap].
  apply star_chr_greedy; [done | lia |].
  cbn [star rmatch rest length]. rewrite <- Hk. f_equal. f_equal. simpl. lia.
Qed.

Lemma match_here_from t :
  t ≠ [] → Forall (λ c, is_ident_char c = true) t →
  match_here (table_regex defaultSqlKeywords_default) 9 (str "FROM " ++ t)
  = Some {| m_index := 9; m_0 := str "FROM " ++ t; m_1 := Some t; m_after := [] |}.
Proof.
  intros Hne Ht. unfold match_here.
  assert (rmatch (table_regex defaultSqlKeywords_default)
            (MState 9 (str "FROM " ++ t) None) Some
          = Some (MState (14 + length t) [] (Some t))) as ->.
  { change (rmatch (table_regex defaultSqlKeywords_default)
              (MState 9 (str "FROM " ++ t) None) Some)
      with (rmatch (keywordPattern defaultSqlKeywords_default)
              (MState 9 (str "FROM " ++ t) None)
              (λ st1, rmatch (Plus ws) st1
                        (λ st', rmatch (Group re_identifier) st' Some))).
    rewrite rmatch_keywordPattern by done.
    change defaultSqlKeywords_default
      with (str "FROM" :: tail defaultSqlKeywords_default).
    cbn [first_some].
    assert (∀ {R} (k : mstate → option R),
              rmatch (keyword_regex (str "FROM")) (MState 9 (str "FROM " ++ t) None) k
              = k (MState 13 (ch_space :: t) None)) as -> by done.
    assert (rmatch (Plus ws) (MState 13 (ch_space :: t) None)
              (λ st', rmatch (Group re_identifier) st' Some)
            = Some (MState (14 + length t) [] (Some t))) as ->; [|done].
    unfold Plus, ws. cbn [rmatch rest idx cap].
    change (is_space ch_space) with true. cbn iota.
    destruct t as [|c t]; [done|]. inv Ht.
    match goal with H : is_ident_char c = true |- _ =>
      pose proof (ident_char_not_space c H) as Hsp; pose proof H as Hc end.
    cbn [star rmatch rest length]. rewrite Hsp. cbn [idx cap].
    apply ident_greedy; [done | by constructor |].
    cbn [idx rest cap]. f_equal. f_equal.
    replace (14 + length (c :: t) - 14) with (length (c :: t)) by lia.
    by rewrite firstn_all. }
  cbn [idx cap rest]. f_equal. f_equal.
  replace (14 + length t - 9) with (length (str "FROM " ++ t))
    by (rewrite length_app; simpl; lia).
  by rewrite firstn_all.
Qed.

Lemma exec_from_select t :
  t ≠ [] → Forall (λ c, is_ident_char c = true) t →
  exec_from (table_regex defaultSqlKeywords_default) 0 (select_from ++ t)
  = Some {| m_index := 9; m_0 := str "FROM " ++ t; m_1 := Some t; m_after := [] |}.
Proof.
  intros Hne Ht.
  change (select_from ++ t)
    with (str "SELECT * " ++ str "FROM " ++ t).
  set (s := str "FROM " ++ t).
  assert (∀ pre i,
            (∀ j, j < length pre →
               match_here (table_regex defaultSqlKeywords_default) (i + j)
                 (drop j pre ++ s) = None) →
            exec_from (table_regex defaultSqlKeywords_default) i (pre ++ s)
            = exec_from (table_regex defaultSqlKeywords_default) (i + length pre) s)
    as Hskip.
  { induction pre as [|c pre IH]; intros i Hnone.
    - by rewrite Nat.add_0_r.
    - cbn [app exec_from].
      pose proof (Hnone 0 ltac:(simpl; lia)) as H0.
      rewrite Nat.add_0_r in H0. cbn [drop app] in H0. rewrite H0.
      rewrite IH.
      + f_equal. simpl. lia.
      + intros j Hj. specialize (Hnone (S j) ltac:(simpl; lia)).
        cbn [drop] in Hnone. rewrite <- Hnone. f_equal. lia. }
  rewrite Hskip.
  - apply exec_from_here. by apply match_here_from.
  - intros j Hj. unfold s. clear -Hj.
    do 9 (destruct j as [|j]; [by vm_compute|]). simpl in Hj. lia.
Qed.

Lemma trim_end_id s :
  (∀ c, last s = Some c → is_space c = false) → trim_end s = s.
Proof.
  induction s as [|c s IH]; [done|]. intros Hl. cbn [trim_end].
  destruct s as [|d s].
  - cbn [trim_end]. by rewrite (Hl c eq_refl).
  - rewrite IH; [done|]. intros e He. apply Hl. by rewrite last_cons, He.
Qed.

Lemma single_spaced_no_space s :
  Forall (λ c, is_space c = false) s → single_spaced s = true.
Proof.
  induction 1 as [|c s Hc _ IH]; [done|]. cbn [single_spaced]. by rewrite Hc, IH.
Qed.

Lemma includes_absent c0 p s : (c0 ∉ s) → includes (c0 :: p) s = false.
Proof.
  induction s as [|c s IH]; [done|]. intros [Hc Hs]%not_elem_of_cons.
  cbn [includes starts_with]. rewrite IH by done.
  by rewrite (proj2 (N.eqb_neq c0 c)) by congruence.
Qed.

Lemma select_from_scrubbed t :
  t ≠ [] → Forall (λ c, is_ident_char c = true) t →
  removeCommentsAndStrings (select_from ++ t) = select_from ++ t.
Proof.
  intros Hne Ht.
  assert (Forall (λ c, is_space c = false ∧ c ≠ ch_squote ∧ c ≠ ch_dquote
                       ∧ c ≠ ch_minus ∧ c ≠ ch_slash) t) as Hp.
  { eapply Forall_impl; [exact Ht|]. intros c Hc.
    apply ident_char_plain in Hc. tauto. }
  assert (∀ d, (d = ch_squote ∨ d = ch_dquote ∨ d = ch_minus ∨ d = ch_slash) →
               d ∉ select_from ++ t) as Hnot.
  { intros d Hd [Hin|Hin]%elem_of_app.
    - revert Hin. apply (bool_decide_unpack _).
      destruct Hd as [->|[->|[->| ->]]]; by vm_compute.
    - rewrite Forall_forall in Hp. specialize (Hp d Hin).
      destruct Hd as [->|[->|[->| ->]]]; tauto. }
  unfold removeCommentsAndStrings. rewrite scrub_raw_clean.
  - rewrite normalize_ws_collapse, single_spaced_collapse.
    + unfold trim. rewrite trim_start_id by done. apply trim_end_id.
      intros c Hc. rewrite last_app in Hc.
      destruct (last t) as [d|] eqn:El; [|by apply last_None in El].
      injection Hc as <-. apply last_Some_elem_of in El.
      rewrite Forall_forall in Hp. by destruct (Hp d El).
    + destruct t as [|c t]; [done|]. inv Hp.
      match goal with H : _ ∧ _ |- _ => destruct H as [Hc _] end.
      unfold select_from. cbn. rewrite Hc. cbn.
      apply single_spaced_no_space. eapply Forall_impl; [eassumption|].
      by intros d [? _].
  - repeat split; try (apply Hnot; tauto).
    + apply (includes_absent ch_minus [ch_minus]). apply Hnot. tauto.
    + apply (includes_absent ch_slash [ch_star]). apply Hnot. tauto.
Qed.

(** X26. The table of the simplest query is found whatever its name:
    [SELECT * FROM t], for a name [t] made of letters, digits,
    underscores, [@] and [#], yields exactly [t], in [allTables] and in
    [realTables]. *)
Theorem select_from_identifier (t : jsstring) :
  t ≠ [] → Forall (λ c, is_ident_char c = true) t →
  extractTableNames (str "SELECT * FROM " ++ t) no_options
  = Some {| allTables := [t]; realTables := [t]; filteredCTEs := [] |}.
Proof.
  intros Hne Ht. rewrite extractTableNames_eq.
  fold select_from. rewrite select_from_scrubbed by done.
  change (effective_keywords no_options) with defaultSqlKeywords_default.
  assert (matches_of defaultSqlKeywords_default (select_from ++ t)
          = [{| m_index := 9; m_0 := str "FROM " ++ t; m_1 := Some t;
                m_after := [] |}]) as Hms.
  { unfold matches_of. cbn [scan_matches]. rewrite exec_from_select by done.
    cbn [m_after m_index m_0]. by f_equal. }
  unfold captures. rewrite Hms. cbn [omap list_omap].
  assert (cleanTableName t = t) as Hclean.
  { pose proof (cleanTableName_parts [Bare t]) as Hcl.
    cbn in Hcl. rewrite !app_nil_r in Hcl. apply Hcl.
    constructor; [|done]. split; [|done].
    eapply Forall_impl; [exact Ht|]. intros d Hd.
    apply ident_char_plain in Hd as (_ & ? & ? & ? & _ & _ & _ & ?).
    unfold is_quote_char. rewrite !orb_false_iff, !N.eqb_neq. tauto. }
  unfold captured. cbn [m_1]. destruct t as [|c t']; [done|].
  assert (skipped defaultSqlKeywords_default
            {| m_index := 9; m_0 := str "FROM " ++ c :: t'; m_1 := Some (c :: t');
               m_after := [] |}
          = false) as -> by done.
  cbn [knownTables no_options resolveTableName]. by rewrite Hclean.
Qed.

Lemma select_from_identifier_witness :
  extractTableNames (str "SELECT * FROM " ++ str "#temp_2024") no_options
  = Some {| allTables := [str "#temp_2024"]; realTables := [str "#temp_2024"];
            filteredCTEs := [] |}.
Proof.
  apply (select_from_identifier (str "#temp_2024")).
  - done.
  - repeat constructor.
Defined.

(** * The keyword lists *)

Lemma Set_from_NoDup_id l : NoDup l → Set_from l = l.
Proof.
  induction l as [|x l IH] using rev_ind; [done|].
  intros [Hl [Hx _]]%NoDup_app. unfold Set_from in *. rewrite foldl_app. cbn [foldl].
  rewrite IH by done. unfold Set_add. rewrite decide_False; [done|].
  intros Hin. apply (Hx x Hin). left.
Qed.

Lemma Set_from_app_new l1 l2 :
  Set_from (l1 ++ l2) = Set_from l1 ++ Set_from (filter (λ x, x ∉ l1) l2).
Proof.
  rewrite Set_from_app, Set_into_new. f_equal. f_equal.
  apply list_filter_iff. intros x. by rewrite Set_from_elem.
Qed.

(** X14. The keyword list the pattern is built from: the [keywords] of
    the options when that list is not empty, the default keywords
    otherwise, without duplicates, followed by the [customKeywords] that
    are not among them, without duplicates; the order is the order of the
    alternatives of the pattern. *)
Theorem effective_keywords_order (options : TableExtractionOptions) :
  let base :=
    match keywords options with
    | Some ((_ :: _) as keywords) => keywords
    | _ => defaultSqlKeywords_default
    end in
  effective_keywords options
  = Set_from base
    ++ Set_from (filter (λ x, x ∉ base) (default [] (customKeywords options)))
  ∧ NoDup (effective_keywords options)
  ∧ (keywords options = None → customKeywords options = None →
     effective_keywords options = defaultSqlKeywords_default).
Proof.
  intros base. unfold effective_keywords. fold base. repeat split.
  - destruct (default [] (customKeywords options)) as [|c cs] eqn:E.
    + by rewrite filter_nil, app_nil_r.
    + apply Set_from_app_new.
  - apply Set_from_NoDup.
  - intros Hk Hc. subst base. rewrite Hk, Hc. by vm_compute.
Qed.

(** X15. In the set-based engine a non-empty [keywords] list is used
    whatever the [databaseType]; without it, a [databaseType] gives the
    default keywords followed by the keywords of that database that are
    not default keywords; the [customKeywords] that are new come last. *)
Theorem set_effective_keywords_order (options : SetVariant.TableExtractionOptions) :
  let base :=
    match SetVariant.keywords options with
    | Some ((_ :: _) as keywords) => keywords
    | _ =>
        match SetVariant.databaseType options with
        | Some d =>
            defaultSqlKeywords_default
            ++ filter (λ x, x ∉ defaultSqlKeywords_default) (SetVariant.databaseSpecific d)
        | None => defaultSqlKeywords_default
        end
    end in
  SetVariant.effective_keywords options
  = Set_from base
    ++ Set_from (filter (λ x, x ∉ base) (default [] (SetVariant.customKeywords options)))
  ∧ NoDup (SetVariant.effective_keywords options).
Proof.
  intros base. split; [|apply Set_from_NoDup].
  unfold SetVariant.effective_keywords.
  assert (match SetVariant.keywords options with
          | Some ((_ :: _) as keywords) => keywords
          | _ =>
              match SetVariant.databaseType options with
              | Some d => SetVariant.getKeywordsForDatabase (Some d)
              | None => defaultSqlKeywords_default
              end
          end = base) as ->.
  { subst base. destruct (SetVariant.keywords options) as [[|k ks]|];
      try done; destruct (SetVariant.databaseType options) as [d|]; try done;
      by destruct d; vm_compute. }
  destruct (default [] (SetVariant.customKeywords options)) as [|c cs] eqn:E.
  - by rewrite filter_nil, app_nil_r.
  - apply Set_from_app_new.
Qed.

(** X16. [getKeywordsForDatabase] returns, without duplicates, the default
    keywords of the configuration followed by the keywords of the
    database that are not default keywords; without a database type, the
    default keywords. For the configuration of the repository it is the
    list the set-based engine uses. *)
Theorem getKeywordsForDatabase_contents (config : Config.SqlKeywordsConfig)
    (d : SetVariant.DatabaseType) :
  Config.getKeywordsForDatabase (Some d) config
  = Set_from (Config.default config)
    ++ Set_from (filter (λ x, x ∉ Config.default config)
                   (Config.databaseSpecific config d))
  ∧ NoDup (Config.getKeywordsForDatabase (Some d) config)
  ∧ Config.getKeywordsForDatabase None config = Set_from (Config.default config)
  ∧ SetVariant.getKeywordsForDatabase (Some d)
    = Config.getKeywordsForDatabase (Some d) Config.defaultSqlKeywords
  ∧ SetVariant.getKeywordsForDatabase None
    = Config.getKeywordsForDatabase None Config.defaultSqlKeywords.
Proof.
  unfold Config.getKeywordsForDatabase. repeat split.
  - apply Set_from_app_new.
  - apply Set_from_NoDup.
Qed.

(** X17. [createCustomKeywordsConfig] adds the custom keywords to the
    default keywords and leaves the database-specific lists as they are:
    the keywords of a database under the new configuration are those
    under the base configuration and the custom keywords. *)
Theorem createCustomKeywordsConfig_keywords (customKeywords : list jsstring)
    (baseConfig : Config.SqlKeywordsConfig) (d : option SetVariant.DatabaseType)
    (x : jsstring) :
  x ∈ Config.getKeywordsForDatabase d
        (Config.createCustomKeywordsConfig customKeywords baseConfig)
  ↔ x ∈ Config.getKeywordsForDatabase d baseConfig ∨ x ∈ customKeywords.
Proof.
  unfold Config.getKeywordsForDatabase, Config.createCustomKeywordsConfig.
  destruct d as [d|]; cbn [Config.default Config.databaseSpecific];
    rewrite !Set_from_elem, !elem_of_app; tauto.
Qed.

(** X18. In the configuration with the list of all keywords, every
    default keyword is one of all keywords, and
    [createCustomKeywordsConfig] keeps it so: it appends the custom
    keywords to both lists. *)
Theorem createCustomKeywordsConfig_all (customKeywords : list jsstring)
    (baseConfig : ConfigAll.SqlKeywordsConfig) :
  ConfigAll.default ConfigAll.defaultSqlKeywords
    ⊆ ConfigAll.getAllKeywords ConfigAll.defaultSqlKeywords
  ∧ (ConfigAll.default baseConfig ⊆ ConfigAll.getAllKeywords baseConfig →
     ConfigAll.default (ConfigAll.createCustomKeywordsConfig customKeywords baseConfig)
       ⊆ ConfigAll.getAllKeywords
           (ConfigAll.createCustomKeywordsConfig customKeywords baseConfig))
  ∧ ConfigAll.getAllKeywords
      (ConfigAll.createCustomKeywordsConfig customKeywords baseConfig)
    = ConfigAll.getAllKeywords baseConfig ++ customKeywords
  ∧ customKeywords
      ⊆ ConfigAll.default (ConfigAll.createCustomKeywordsConfig customKeywords baseConfig).
Proof.
  repeat split.
  - apply (bool_decide_unpack _). by vm_compute.
  - intros Hsub x. cbn. rewrite !elem_of_app. intros [?|?]; [left|right]; auto.
  - intros x Hx. cbn. apply elem_of_app. auto.
Qed.

(** * The lists of the command line *)

Lemma split_cons_cases sep c s :
  ∃ seg segs, split sep s = seg :: segs
    ∧ split sep (c :: s)
      = if (c =? sep)%N then [] :: seg :: segs else (c :: seg) :: segs.
Proof.
  destruct (split_segments sep s) as (seg & segs & E & _).
  exists seg, segs. split; [done|]. cbn [split]. rewrite E.
  by destruct (c =? sep)%N.
Qed.

Lemma split_Forall (P : N → Prop) sep s :
  Forall P s → Forall (λ seg, Forall P seg ∧ sep ∉ seg) (split sep s).
Proof.
  induction s as [|c s IH]; intros Hs.
  - repeat constructor. apply not_elem_of_nil.
  - inv Hs. destruct (split_cons_cases sep c s) as (seg & segs & E & ->).
    match goal with H : Forall P s |- _ => specialize (IH H) end.
    rewrite E in IH. inv IH.
    destruct (N.eqb_spec c sep) as [->|Hc].
    + constructor; [split; [done | apply not_elem_of_nil]|]. by constructor.
    + constructor; [|done].
      match goal with H : _ ∧ _ |- _ => destruct H as [Hseg Hno] end.
      split; [by constructor | by apply not_elem_of_cons].
Qed.

Lemma split_no_sep sep s : sep ∉ s → split sep s = [s].
Proof.
  induction s as [|c s IH]; [done|]. intros [Hc Hs]%not_elem_of_cons.
  cbn [split]. rewrite IH by done. by rewrite (proj2 (N.eqb_neq c sep)).
Qed.

Lemma split_app_sep sep k rest0 :
  sep ∉ k → split sep (k ++ sep :: rest0) = k :: split sep rest0.
Proof.
  induction k as [|c k IH]; intros Hk.
  - cbn [app split]. by rewrite N.eqb_refl.
  - apply not_elem_of_cons in Hk as [Hc Hk]. cbn [app split].
    rewrite IH by done. by rewrite (proj2 (N.eqb_neq c sep)).
Qed.

Lemma Forall_trim (P : N → Prop) s : Forall P s → Forall P (trim s).
Proof. intros. by apply Forall_trim_end, Forall_trim_start. Qed.

Lemma trim_spaces s : Forall (λ c, is_space c = true) s → trim s = [].
Proof.
  intros Hs. unfold trim.
  assert (trim_start s = []) as ->; [|done].
  induction Hs as [|c s Hc _ IH]; [done|]. cbn [trim_start]. by rewrite Hc.
Qed.

Lemma trim_space_cons c s : is_space c = true → trim (c :: s) = trim s.
Proof. intros Hc. unfold trim. cbn [trim_start]. by rewrite Hc. Qed.

Lemma parse_list_cons_space c s :
  is_space c = true → parse_list (c :: s) = parse_list s.
Proof.
  intros Hc. unfold parse_list.
  destruct (split_cons_cases ch_comma c s) as (seg & segs & E & ->). rewrite E.
  assert ((c =? ch_comma)%N = false) as ->.
  { apply N.eqb_neq. intros ->. done. }
  cbn [map]. by rewrite trim_space_cons.
Qed.

Lemma parse_list_app_comma k rest0 :
  (ch_comma ∉ k) →
  parse_list (k ++ ch_comma :: rest0)
  = (if decide (0 < length (trim k)) then [trim k] else []) ++ parse_list rest0.
Proof.
  intros Hk. unfold parse_list. rewrite split_app_sep by done.
  cbn [map]. rewrite filter_cons. by destruct (decide (0 < length (trim k))).
Qed.

(** X19. The items of a comma-separated list of the command line are not
    empty, hold no comma, and have no white space at either end. *)
Theorem parse_list_items (s : jsstring) :
  Forall (λ k, k ≠ [] ∧ (ch_comma ∉ k) ∧ trim k = k) (parse_list s).
Proof.
  unfold parse_list. apply Forall_forall. intros k [Hlen Hk]%list_elem_of_filter.
  apply list_elem_of_fmap in Hk as (seg & -> & Hseg).
  pose proof (split_Forall (λ _, True) ch_comma s (Forall_true _ _ (λ _, I))) as Hall.
  rewrite Forall_forall in Hall. destruct (Hall _ Hseg) as [_ Hno].
  repeat split.
  - intros E. rewrite E in Hlen. simpl in Hlen. lia.
  - intros Hin. apply Hno.
    assert (Forall (λ c, c ≠ ch_comma) (trim seg)) as Hf.
    { apply Forall_trim, Forall_forall. intros c Hc ->. done. }
    rewrite Forall_forall in Hf. by destruct (Hf _ Hin).
  - apply trim_idem.
Qed.

(** X20. Reading back a list that was written with [join(', ')] gives the
    list, when its items are not empty, hold no comma and have no white
    space at either end. *)
Theorem parse_list_join (a : list jsstring) :
  Forall (λ k, k ≠ [] ∧ (ch_comma ∉ k) ∧ trim k = k) a →
  parse_list (join (str ", ") a) = a.
Proof.
  induction a as [|k a IH]; [done|]. intros Ha. inv Ha.
  match goal with H : _ ∧ _ |- _ => destruct H as (Hne & Hc & Ht) end.
  destruct a as [|k' a].
  - cbn [join]. unfold parse_list. rewrite split_no_sep by done.
    cbn [map]. rewrite Ht, filter_cons, decide_True; [done|].
    destruct k; [done | simpl; lia].
  - change (join (str ", ") (k :: k' :: a))
      with (k ++ ch_comma :: ch_space :: join (str ", ") (k' :: a)).
    rewrite parse_list_app_comma by done. rewrite Ht.
    rewrite decide_True by (destruct k; [done | simpl; lia]).
    rewrite parse_list_cons_space by done. cbn [app]. f_equal. by apply IH.
Qed.

Lemma parse_list_join_witness :
  parse_list (join (str ", ") [str "MERGE INTO"; str "USING"])
  = [str "MERGE INTO"; str "USING"].
Proof.
  apply (parse_list_join [str "MERGE INTO"; str "USING"]).
  repeat constructor; try done; try (apply (bool_decide_unpack _); by vm_compute).
Defined.

Lemma parse_list_blank s :
  Forall (λ c, c = ch_comma ∨ is_space c = true) s → parse_list s = [].
Proof.
  intros Hs. unfold parse_list.
  pose proof (split_Forall _ ch_comma s Hs) as Hall.
  induction Hall as [|seg segs [Hseg Hno] _ IH]; [done|].
  cbn [map]. rewrite filter_cons.
  rewrite trim_spaces; [by rewrite decide_False by (simpl; lia)|].
  rewrite Forall_forall in Hseg. apply Forall_forall. intros c Hc.
  destruct (Hseg c Hc) as [->|?]; done.
Qed.

(** X21. On the command line a [--keywords] list made of commas and white
    space only is no list at all: the call uses the default keywords, as
    without the option. And [--filter-ctes] without known tables filters
    nothing. *)
Theorem cli_extract_defaults (sql : jsstring)
    (known : option (list (jsstring * TableMetadata)))
    (filterCtes : bool) (keywords customKeywords : option jsstring) (blank : jsstring) :
  Forall plain_keyword
    (default [] (cli_list keywords) ++ default [] (cli_list customKeywords)) →
  Forall (λ c, c = ch_comma ∨ is_space c = true) blank →
  cli_extract sql known filterCtes (Some blank) customKeywords
  = cli_extract sql known filterCtes None customKeywords
  ∧ cli_extract sql None true keywords customKeywords
    = cli_extract sql None false keywords customKeywords.
Proof.
  intros _ Hb. split; [|done]. unfold cli_extract, cli_list.
  destruct blank as [|c t]; [done|]. by rewrite parse_list_blank.
Qed.

Lemma cli_extract_defaults_witness :
  cli_extract (str "SELECT * FROM users") None true (Some (str " , ,")) None
  = cli_extract (str "SELECT * FROM users") None true None None
  ∧ cli_extract (str "SELECT * FROM users") None true None None
    = cli_extract (str "SELECT * FROM users") None false None None.
Proof.
  apply (cli_extract_defaults (str "SELECT * FROM users") None true None None (str " , ,")).
  - apply Forall_nil_2.
  - repeat constructor; by vm_compute.
Defined.
